(** * synthaser.figure: SVG figures of synthase domain architectures

    A shallow embedding of [synthaser/figure.py] (class [Figure] and the two
    module-level helpers [_validate_colour] and [wrap_fasta]) together with
    the properties its specification states about it.

    Conventions of the embedding:
    - a Python [str] is a [string]; a Python [int] is a [Z]; a Python [float]
      is an IEEE-754 binary64 value, represented by [spec_float] with the
      operations of the standard library's executable specification
      ([SpecFloat], precision 53, exponent bound 1024);
    - a function that may raise returns a [result]; the exception carries the
      message the source gives it;
    - a method that mutates the [Figure] takes the figure and returns the
      mutated figure together with its outcome;
    - an argument that defaults to [None] is an [option];
    - a [dict] used as a map is a [gmap]; a [dict] that is iterated is taken
      in its iteration order, as an association list. *)

From Stdlib Require Import ZArith String Ascii List Bool Lia DecimalString.
From Stdlib Require Import Floats.SpecFloat.
From stdpp Require Import base option list gmap strings sorting.

Local Open Scope Z_scope.

(** ** Exceptions and results *)

Inductive exn :=
| TypeError (msg : string)
| KeyError (msg : string)
| ValueError (msg : string)
| ZeroDivisionError (msg : string)
| OverflowError (msg : string)
| AttributeError (msg : string).

Inductive result (A : Type) :=
| Ok (a : A)
| Raise (e : exn).
Arguments Ok {A} a.
Arguments Raise {A} e.

Global Instance result_ret : MRet result := fun A a => Ok a.
Global Instance result_bind : MBind result := fun A B k m =>
  match m with
  | Ok a => k a
  | Raise e => Raise e
  end.
Global Instance result_fmap : FMap result := fun A B g m =>
  match m with
  | Ok a => Ok (g a)
  | Raise e => Raise e
  end.

Definition raises {A} (m : result A) : Prop := exists e, m = Raise e.

(** ** Text helpers *)

(** The double quote and the line feed, as one-character strings. *)
Definition dquote : string := String "034"%char EmptyString.
Definition newline : string := String "010"%char EmptyString.

(** [str(n)] for an [int]. *)
Definition str_int (n : Z) : string := NilZero.string_of_int (Z.to_int n).

(** [sep.join(parts)]. *)
Definition join (sep : string) (parts : list string) : string :=
  String.concat sep parts.

(** [len(s)]. *)
Definition len (s : string) : Z := Z.of_nat (String.length s).

(** ** Python numbers: [int] and binary64 [float] *)

Module Float.

Definition prec : Z := 53.
Definition emax : Z := 1024.

Definition mul : spec_float -> spec_float -> spec_float := SFmul prec emax.
Definition add : spec_float -> spec_float -> spec_float := SFadd prec emax.
Definition sub : spec_float -> spec_float -> spec_float := SFsub prec emax.

(** An integer as an unrounded significand with exponent 0. *)
Definition exact (z : Z) : spec_float :=
  match z with
  | Z0 => S754_zero false
  | Zpos p => S754_finite false p 0
  | Zneg p => S754_finite true p 0
  end.

(** [float(z)]: the nearest binary64 value, [OverflowError] beyond the
    range. *)
Definition of_int (z : Z) : result spec_float :=
  match binary_normalize prec emax z 0 false with
  | S754_infinity _ => Raise (OverflowError "int too large to convert to float")
  | x => Ok x
  end.

(** [a / b] on two [int]s: the correctly rounded quotient. *)
Definition int_truediv (a b : Z) : result spec_float :=
  if decide (b = 0) then Raise (ZeroDivisionError "division by zero")
  else match SFdiv prec emax (exact a) (exact b) with
       | S754_infinity _ =>
           Raise (OverflowError "integer division result too large for a float")
       | x => Ok x
       end.

(** [x / y] on two [float]s. *)
Definition truediv (x y : spec_float) : result spec_float :=
  match y with
  | S754_zero _ => Raise (ZeroDivisionError "float division by zero")
  | _ => Ok (SFdiv prec emax x y)
  end.

(** [int(x)]: truncation towards zero. *)
Definition to_int (x : spec_float) : result Z :=
  match x with
  | S754_zero _ => Ok 0
  | S754_finite s m e => Ok (cond_Zopp s (Z.shiftl (Zpos m) e))
  | S754_infinity _ =>
      Raise (OverflowError "cannot convert float infinity to integer")
  | S754_nan => Raise (ValueError "cannot convert float NaN to integer")
  end.

(** [math.floor(x)]: rounding towards minus infinity. *)
Definition floor (x : spec_float) : result Z :=
  match x with
  | S754_zero _ => Ok 0
  | S754_finite s m e => Ok (Z.shiftl (cond_Zopp s (Zpos m)) e)
  | S754_infinity _ =>
      Raise (OverflowError "cannot convert float infinity to integer")
  | S754_nan => Raise (ValueError "cannot convert float NaN to integer")
  end.

(** The literal [0.9], that is [0x1.ccccccccccccdp-1]. *)
Definition lit_0_9 : spec_float := S754_finite false 8106479329266893 (-53).

End Float.

(** A number as Python has it at run time. *)
Inductive number :=
| Int (z : Z)
| Float (x : spec_float).

Module Number.

Definition to_float (n : number) : result spec_float :=
  match n with
  | Int z => Float.of_int z
  | Float x => Ok x
  end.

(** A binary operator that stays in [int] on two [int]s and otherwise
    converts both sides to [float]. *)
Definition arith (fz : Z -> Z -> Z) (ff : spec_float -> spec_float -> spec_float)
    (a b : number) : result number :=
  match a, b with
  | Int x, Int y => Ok (Int (fz x y))
  | _, _ => x ← to_float a; y ← to_float b; Ok (Float (ff x y))
  end.

Definition mul : number -> number -> result number := arith Z.mul Float.mul.
Definition add : number -> number -> result number := arith Z.add Float.add.
Definition sub : number -> number -> result number := arith Z.sub Float.sub.

(** [a / b]: always a [float]. *)
Definition truediv (a b : number) : result number :=
  match a, b with
  | Int x, Int y => Float <$> Float.int_truediv x y
  | _, _ => x ← to_float a; y ← to_float b; Float <$> Float.truediv x y
  end.

End Number.

(** ** Data model ([synthaser.models]) *)

(** Modelled from the spec: the class [Domain] of [synthaser.models] is not
    part of [figure.py]; the spec gives a domain annotation a type label and
    integer start and end positions. *)
Module Domain.
Record t := mk { type : string; start : Z; end_ : Z }.
End Domain.

(** Modelled from the spec: the class [Synthase] of [synthaser.models] is not
    part of [figure.py]; the spec gives an entity a header, a sequence (which
    may be empty) and an ordered sequence of domain annotations, and derives
    its sequence length from the sequence. [architecture] is the hyphen
    separated string of domain type labels shown in the docstring of
    [generate_synthase_polygon] (["synthase, 100aa, KS-AT"]). *)
Module Synthase.
Record t := mk { header : string; sequence : string; domains : list Domain.t }.

Definition sequence_length (s : t) : Z := len (sequence s).

Definition architecture (s : t) : string :=
  join "-" (map Domain.type (domains s)).
End Synthase.

(** Modelled from the spec: the classification labels [type] and [subtype] of
    a synthase are derived by code outside [figure.py]; [figure.py] only
    reads the two attributes, so they are taken as an interface. *)
Class Classification := {
  type : Synthase.t -> string;
  subtype : Synthase.t -> string
}.

Record Figure := {
  synthases : list Synthase.t;
  colours : gmap string string
}.

(** The colour scheme as the class body lists it. *)
Definition default_colours_items : list (string * string) :=
  [ ("ACP", "#084BC6"); ("KS", "#08B208"); ("SAT", "#808080");
    ("KR", "#089E4B"); ("MT", "#00ff00"); ("ER", "#089E85");
    ("AT", "#DC0404"); ("DH", "#B45F04"); ("PT", "#999900");
    ("TE", "#750072"); ("TR", "#9933ff"); ("T", "#084BC6");
    ("R", "#9933ff"); ("C", "#393989"); ("A", "#56157F") ]%string.

Definition default_colours : gmap string string :=
  list_to_map default_colours_items.

(** ** Regular expressions, as far as [_validate_colour] needs them *)

Inductive regex :=
| Bol                                   (* ^ *)
| Eol                                   (* $ *)
| Lit (c : ascii)
| CharClass (ranges : list (ascii * ascii)) (* [a-bc-d...] *)
| Seq (r1 r2 : regex)
| Alt (r1 r2 : regex)
| Rep (r : regex) (n : nat).            (* r{n} *)

Definition in_range (c : ascii) (range : ascii * ascii) : bool :=
  (N_of_ascii (fst range) <=? N_of_ascii c)%N && (N_of_ascii c <=? N_of_ascii (snd range))%N.

Definition in_class (ranges : list (ascii * ascii)) (c : ascii) : bool :=
  existsb (in_range c) ranges.

(** Backtracking matcher. [at_start] tells whether the current position is the
    beginning of the subject, [s] is the rest of the subject and [k] the
    continuation. Without flags, [^] matches only at the beginning and [$]
    matches at the end and just before a line feed that ends the subject. *)
Fixpoint matches (r : regex) (at_start : bool) (s : list ascii)
    (k : bool -> list ascii -> bool) : bool :=
  match r with
  | Bol => at_start && k at_start s
  | Eol =>
      match s with
      | [] => k at_start s
      | [c] => if decide (c = "010"%char) then k at_start s else false
      | _ => false
      end
  | Lit c =>
      match s with
      | c' :: s' => if decide (c' = c) then k false s' else false
      | [] => false
      end
  | CharClass ranges =>
      match s with
      | c' :: s' => in_class ranges c' && k false s'
      | [] => false
      end
  | Seq r1 r2 => matches r1 at_start s (fun b s' => matches r2 b s' k)
  | Alt r1 r2 => matches r1 at_start s k || matches r2 at_start s k
  | Rep r' n =>
      (fix rep (n : nat) (b : bool) (s : list ascii) : bool :=
         match n with
         | O => k b s
         | S n' => matches r' b s (fun b' s' => rep n' b' s')
         end) n at_start s
  end.

(** [pattern.search(s)]: a match starting at any position. *)
Fixpoint search_from (r : regex) (at_start : bool) (s : list ascii) : bool :=
  matches r at_start s (fun _ _ => true) ||
  match s with
  | [] => false
  | _ :: s' => search_from r false s'
  end.

Definition search (r : regex) (s : string) : bool :=
  search_from r true (list_ascii_of_string s).

(** [[A-Fa-f0-9]] *)
Definition hex_class : regex :=
  CharClass [("A", "F"); ("a", "f"); ("0", "9")]%char.

(** [^#([A-Fa-f0-9]{6}|[A-Fa-f0-9]{3})$] *)
Definition hex_regex : regex :=
  Seq Bol (Seq (Lit "#") (Seq (Alt (Rep hex_class 6) (Rep hex_class 3)) Eol)).

Definition _validate_colour (colour : string) : bool :=
  if search hex_regex colour then true else false.

(** ** [Figure.__init__] and [Figure.set_colours] *)

(** The body of the [for] loop of [set_colours], over the items of the
    override dictionary in iteration order. An exception leaves the entries
    written so far in place. *)
Fixpoint set_colours_loop (registry : gmap string string)
    (items : list (string * string)) : gmap string string * result unit :=
  match items with
  | [] => (registry, Ok tt)
  | (key, value) :: rest =>
      match registry !! key with
      | None => (registry, Raise (KeyError ("Invalid domain '" +:+ key +:+ "'")))
      | Some _ =>
          if negb (_validate_colour value)
          then (registry, Raise (ValueError ("'" +:+ key +:+ "' is not a valid hex code")))
          else set_colours_loop (<[key := value]> registry) rest
      end
  end.

Definition set_colours (f : Figure) (overrides : list (string * string))
    : Figure * result unit :=
  let '(registry, outcome) := set_colours_loop (colours f) overrides in
  ({| synthases := synthases f; colours := registry |}, outcome).

(** [Figure(synthases=None, colours=None)]. A constructor that raises
    yields no object. *)
Definition Figure_init (synthases0 : option (list Synthase.t))
    (colours0 : option (list (string * string))) : result Figure :=
  let self := {| synthases := default [] synthases0; colours := default_colours |} in
  match colours0 with
  | None | Some [] => Ok self
  | Some overrides =>
      match set_colours self overrides with
      | (self', Ok _) => Ok self'
      | (_, Raise e) => Raise e
      end
  end.

(** ** [Figure.__getitem__] and [Figure.add_query_sequences] *)

(** The loop of [__getitem__]: the first synthase with the header [key]. *)
Fixpoint getitem_loop (l : list Synthase.t) (key : string) : result Synthase.t :=
  match l with
  | [] => Raise (KeyError ("No synthase with header '" +:+ key +:+ "'"))
  | synthase :: rest =>
      if decide (Synthase.header synthase = key) then Ok synthase
      else getitem_loop rest key
  end.

(** [self[key]] *)
Definition Figure_getitem (f : Figure) (key : string) : result Synthase.t :=
  getitem_loop (synthases f) key.

(** [self[key].sequence = sequence], once [self[key]] has returned: the
    synthase it returns is changed in place and keeps its position in the
    list. The synthases of a figure are taken to be distinct objects. *)
Fixpoint setitem_sequence (l : list Synthase.t) (key sequence : string)
    : list Synthase.t :=
  match l with
  | [] => []
  | synthase :: rest =>
      if decide (Synthase.header synthase = key)
      then Synthase.mk (Synthase.header synthase) sequence (Synthase.domains synthase)
             :: rest
      else synthase :: setitem_sequence rest key sequence
  end.

(** The [for] loop of [add_query_sequences] over the items of the
    dictionary: a [KeyError] of [self[header]] is raised again with a
    message of its own, the sequences assigned so far staying in place. *)
Fixpoint add_query_sequences_loop (l : list Synthase.t)
    (items : list (string * string)) : list Synthase.t * result unit :=
  match items with
  | [] => (l, Ok tt)
  | (header, sequence) :: rest =>
      match getitem_loop l header with
      | Ok _ => add_query_sequences_loop (setitem_sequence l header sequence) rest
      | Raise (KeyError _) =>
          (l, Raise (KeyError ("Could not match '" +:+ header +:+
                               "' to synthase in results")))
      | Raise e => (l, Raise e)
      end
  end.

Section add_query_sequences.
(** [parse_fasta] of [synthaser.results] reads a dictionary of sequences
    from an open file; it is not part of [figure.py] and is taken as an
    interface. *)
Context {handle : Type} (parse_fasta : handle -> list (string * string)).

(** Both arguments default to [None]. The value of [sequences] after the
    [if]: the dictionary read from the file when a file is given and
    [sequences] is [None] or empty, [sequences] as it was passed otherwise,
    which is [None] when neither argument is given. *)
Definition query_sequences (query_handle : option handle)
    (sequences : option (list (string * string)))
    : option (list (string * string)) :=
  match query_handle, sequences with
  | Some h, None | Some h, Some [] => Some (parse_fasta h)
  | _, _ => sequences
  end.

(** [sequences.items()] of [None] raises [AttributeError] before the loop
    is entered. *)
Definition add_query_sequences (f : Figure) (query_handle : option handle)
    (sequences : option (list (string * string))) : Figure * result unit :=
  match query_sequences query_handle sequences with
  | None =>
      (f, Raise (AttributeError "'NoneType' object has no attribute 'items'"))
  | Some items =>
      let '(l, outcome) := add_query_sequences_loop (synthases f) items in
      ({| synthases := l; colours := colours f |}, outcome)
  end.
End add_query_sequences.

(** ** Built-ins used by the methods *)

(** [max(l, key=key)]: the first element whose key is largest. *)
Fixpoint max_from {A} (key : A -> Z) (best : A) (l : list A) : A :=
  match l with
  | [] => best
  | x :: l' => max_from key (if key best <? key x then x else best) l'
  end.

Definition py_max {A} (key : A -> Z) (l : list A) : result A :=
  match l with
  | [] => Raise (ValueError "max() arg is an empty sequence")
  | x :: l' => Ok (max_from key x l')
  end.

(** [list.sort(key=key)]: a stable sort. The sort of the interpreter is a
    merge sort; a stable sort has one possible result, which insertion from
    the right computes. [le] is the order on keys; for [reverse=True] it is
    the converse order, equal keys keeping their original order. *)
Section list_sort.
Context {A K : Type} (le : K -> K -> bool) (key : A -> K).

Fixpoint sort_insert (x : A) (l : list A) : list A :=
  match l with
  | [] => [x]
  | y :: l' => if le (key x) (key y) then x :: l else y :: sort_insert x l'
  end.

Definition list_sort (l : list A) : list A := foldr sort_insert [] l.
End list_sort.

(** The order of Python on pairs of strings: the first components decide
    unless they are equal. *)
Definition tuple_leb (a b : string * string) : bool :=
  if decide (a.1 = b.1) then String.leb a.2 b.2 else String.leb a.1 b.1.

(** [itertools.groupby(l, key=key)], every group made a list: the maximal
    runs of consecutive elements with equal keys. *)
Fixpoint groupby {A} (key : A -> string) (l : list A) : list (string * list A) :=
  match l with
  | [] => []
  | x :: l' =>
      match groupby key l' with
      | (k, g) :: rest =>
          if decide (key x = k) then (k, x :: g) :: rest
          else (key x, [x]) :: (k, g) :: rest
      | [] => [(key x, [x])]
      end
  end.

(** ** Scale factor and sorting *)

Definition EmptySequenceError_figure : exn :=
  ValueError "Synthases in this Figure have no sequences".
Definition EmptySequenceError_synthase : exn :=
  ValueError "Synthase has no sequence".
Definition InvalidWidthError : exn :=
  ValueError "Width must be greater than 0".

(** [not synthase.sequence] *)
Definition no_sequence (s : Synthase.t) : bool :=
  if decide (Synthase.sequence s = "") then true else false.

Definition calculate_scale_factor (f : Figure) (width : Z) : result spec_float :=
  if existsb no_sequence (synthases f) then Raise EmptySequenceError_figure
  else if width <? 0 then Raise InvalidWidthError
  else
    largest ← py_max Synthase.sequence_length (synthases f);
    Float.int_truediv (width - 2) (Synthase.sequence_length largest).

(** The key of the length sort: the length of the architecture string when
    some synthase has no sequence, the sequence length otherwise. *)
Definition length_key (f : Figure) : Synthase.t -> Z :=
  if existsb no_sequence (synthases f)
  then fun s => len (Synthase.architecture s)
  else Synthase.sequence_length.

Definition sort_synthases_by_length (f : Figure) : Figure :=
  {| synthases := list_sort (fun a b => b <=? a) (length_key f) (synthases f);
     colours := colours f |}.

Section classified.
Context `{Classification}.

(** The generator, run to its end: the figure with its synthases sorted in
    place, and the groups yielded. *)
Definition iterate_synthase_types (f : Figure)
    : Figure * list (string * list Synthase.t) :=
  let f1 := sort_synthases_by_length f in
  let sorted := list_sort tuple_leb (fun s => (type s, subtype s)) (synthases f1) in
  ({| synthases := sorted; colours := colours f1 |}, groupby subtype sorted).
End classified.

(** ** Gradients *)

(** One [<stop offset="..%" stop-color=".."/>] element. *)
Record stop := { offset : Z; stop_color : string }.

Definition render_stop (s : stop) : string :=
  "<stop offset=" +:+ dquote +:+ str_int (offset s) +:+ "%" +:+ dquote +:+
  " stop-color=" +:+ dquote +:+ stop_color s +:+ dquote +:+ "/>".

(** [int(position / sequence_length * 100)] *)
Definition percentage (position sequence_length : Z) : result Z :=
  ratio ← Float.int_truediv position sequence_length;
  hundred ← Float.of_int 100;
  Float.to_int (Float.mul ratio hundred).

(** [self.colours[key]] *)
Definition colour_of (registry : gmap string string) (key : string) : result string :=
  match registry !! key with
  | Some colour => Ok colour
  | None => Raise (KeyError key)
  end.

(** The four stops one pass of the loop appends for a domain. *)
Definition domain_stops (registry : gmap string string) (sequence_length : Z)
    (domain : Domain.t) : result (list stop) :=
  start_pct ← percentage (Domain.start domain) sequence_length;
  end_pct ← percentage (Domain.end_ domain) sequence_length;
  colour ← colour_of registry (Domain.type domain);
  Ok [ {| offset := start_pct; stop_color := "white" |};
       {| offset := start_pct; stop_color := colour |};
       {| offset := end_pct; stop_color := colour |};
       {| offset := end_pct; stop_color := "white" |} ].

(** The [for] loop over the domains: [stops] holds one entry per domain. *)
Fixpoint gradient_loop (registry : gmap string string) (sequence_length : Z)
    (domains : list Domain.t) (stops : list (list stop)) : result (list (list stop)) :=
  match domains with
  | [] => Ok stops
  | domain :: rest =>
      entry ← domain_stops registry sequence_length domain;
      gradient_loop registry sequence_length rest (stops ++ [entry])
  end.

(** The stop elements of the gradient of a synthase, grouped by domain. *)
Definition gradient_stops (f : Figure) (synthase : Synthase.t)
    : result (list (list stop)) :=
  if no_sequence synthase then Raise EmptySequenceError_synthase
  else gradient_loop (colours f) (len (Synthase.sequence synthase))
         (Synthase.domains synthase) [].

Definition generate_synthase_gradient (f : Figure) (synthase : Synthase.t)
    : result string :=
  stops ← gradient_stops f synthase;
  Ok ("<linearGradient id=" +:+ dquote +:+ Synthase.header synthase +:+ "_doms" +:+ dquote +:+
      " x1=" +:+ dquote +:+ "0%" +:+ dquote +:+ " y1=" +:+ dquote +:+ "0%" +:+ dquote +:+
      " x2=" +:+ dquote +:+ "100%" +:+ dquote +:+ " y2=" +:+ dquote +:+ "0%" +:+ dquote +:+
      ">" +:+ newline +:+
      join newline (map (fun entry => join newline (map render_stop entry)) stops) +:+
      newline +:+ "</linearGradient>").

(** ** Polygons

    The markup of a polygon holds formatted floats; the embedding keeps the
    numbers and the strings the markup is assembled from. *)

Record polygon := {
  text_font_size : number;
  information : string;
  polygon_id : string;
  points : list (number * number);
  fill : string
}.

Definition generate_synthase_polygon (synthase : Synthase.t)
    (scale_factor info_fsize arrow_height : number) : result polygon :=
  if no_sequence synthase then Raise EmptySequenceError_synthase
  else
    let sequence_length := len (Synthase.sequence synthase) in
    scaled_length ← Number.mul scale_factor (Int sequence_length);
    info_fsize_scaled ← Number.mul info_fsize (Float Float.lit_0_9);
    bottom_y ← Number.add info_fsize_scaled arrow_height;
    half ← Number.truediv arrow_height (Int 2);
    middle_y ← Number.add info_fsize_scaled half;
    bx ← Number.sub scaled_length (Int 10);
    dx ← Number.sub scaled_length (Int 10);
    Ok {| text_font_size := info_fsize;
          information :=
            Synthase.header synthase +:+ ", " +:+ str_int sequence_length +:+ "aa, " +:+
            Synthase.architecture synthase;
          polygon_id := Synthase.header synthase;
          points := [ (Int 0, info_fsize_scaled);
                      (bx, info_fsize_scaled);
                      (scaled_length, middle_y);
                      (dx, bottom_y);
                      (Int 0, bottom_y) ];
          fill := "url(#" +:+ Synthase.header synthase +:+ "_doms)" |}.

(** ** Blocks and the document *)

(** A block: the subtype header and the polygons, each with the vertical
    offset of its [translate(1, offset)]. *)
Record block := {
  block_font_size : Z;
  block_subtype : string;
  block_polygons : list (Z * polygon)
}.

Fixpoint polygon_block_loop (group : list Synthase.t) (scale_factor : spec_float)
    (arrow_spacing arrow_height info_fsize : Z) (drawn : list (Z * polygon))
    (offset : Z) : result (list (Z * polygon) * Z) :=
  match group with
  | [] => Ok (drawn, offset)
  | synthase :: rest =>
      polygon ← generate_synthase_polygon synthase (Float scale_factor)
                  (Int info_fsize) (Int arrow_height);
      polygon_block_loop rest scale_factor arrow_spacing arrow_height info_fsize
        (drawn ++ [(offset, polygon)])
        (offset + (info_fsize + arrow_height + 4 + arrow_spacing))
  end.

Definition build_polygon_block (subtype : string) (group : list Synthase.t)
    (scale_factor : spec_float)
    (arrow_spacing arrow_height info_fsize header_fsize : Z) : result (block * Z) :=
  '(drawn, offset) ← polygon_block_loop group scale_factor arrow_spacing
                        arrow_height info_fsize [] header_fsize;
  Ok ({| block_font_size := header_fsize; block_subtype := subtype;
         block_polygons := drawn |}, offset).

Record svg := {
  svg_width : Z;
  svg_height : Z;
  svg_gradients : list string;
  svg_blocks : list (Z * block)
}.

Fixpoint visualise_loop (groups : list (string * list Synthase.t))
    (scale_factor : spec_float)
    (arrow_height arrow_spacing block_spacing header_fsize info_fsize : Z)
    (blocks : list (Z * block)) (offset : Z) : result (list (Z * block) * Z) :=
  match groups with
  | [] => Ok (blocks, offset)
  | (subtype, group) :: rest =>
      '(drawn, height) ← build_polygon_block subtype group scale_factor
                            arrow_spacing arrow_height info_fsize header_fsize;
      visualise_loop rest scale_factor arrow_height arrow_spacing block_spacing
        header_fsize info_fsize (blocks ++ [(offset, drawn)])
        (offset + (height + block_spacing))
  end.

(** The comprehension [[f(x) for x in l]] with an [f] that may raise. *)
Fixpoint comprehension {A B} (g : A -> result B) (l : list A) : result (list B) :=
  match l with
  | [] => Ok []
  | x :: l' => y ← g x; ys ← comprehension g l'; Ok (y :: ys)
  end.

Section visualise.
Context `{Classification}.

Definition visualise (f : Figure)
    (arrow_height arrow_spacing block_spacing header_fsize info_fsize width : Z)
    : Figure * result svg :=
  match calculate_scale_factor f width with
  | Raise e => (f, Raise e)
  | Ok scale_factor =>
      let '(f', groups) := iterate_synthase_types f in
      (f',
       '(blocks, offset) ← visualise_loop groups scale_factor arrow_height
                             arrow_spacing block_spacing header_fsize info_fsize [] 3;
       gradients ← comprehension (generate_synthase_gradient f') (synthases f');
       Ok {| svg_width := width;
             svg_height := offset - block_spacing - arrow_spacing - 4;
             svg_gradients := gradients;
             svg_blocks := blocks |})
  end.

(** [visualise()] with the defaults of its parameters. *)
Definition visualise_default (f : Figure) (width : Z) : Figure * result svg :=
  visualise f 12 4 16 15 12 width.
End visualise.

(** ** Serialisation

    [json.dumps] prints a tree of lists, dictionaries, strings and numbers
    and [json.load] reads the same tree back from the text; the embedding
    keeps the document as that tree. *)

#[warnings="-register-all"]
Inductive json :=
| JNull
| JBool (b : bool)
| JNumber (n : Z)
| JString (s : string)
| JArray (items : list json)
| JObject (members : list (string * json)).

(** [record[key]] on a parsed object: the last member of that name. *)
Fixpoint json_member (key : string) (members : list (string * json)) : option json :=
  match members with
  | [] => None
  | (k, v) :: rest =>
      match json_member key rest with
      | Some v' => Some v'
      | None => if decide (k = key) then Some v else None
      end
  end.

Definition json_get (key : string) (record : json) : result json :=
  match record with
  | JObject members =>
      match json_member key members with
      | Some v => Ok v
      | None => Raise (KeyError key)
      end
  | _ => Raise (TypeError "record is not a dictionary")
  end.

Definition json_str (j : json) : result string :=
  match j with
  | JString s => Ok s
  | _ => Raise (TypeError "expected a string")
  end.

Definition json_int (j : json) : result Z :=
  match j with
  | JNumber n => Ok n
  | _ => Raise (TypeError "expected an integer")
  end.

(** What iterating over a parsed document yields. *)
Definition json_iter (j : json) : result (list json) :=
  match j with
  | JArray items => Ok items
  | JObject members => Ok (map (fun member => JString member.1) members)
  | JString s =>
      Ok (map (fun c => JString (String c EmptyString)) (list_ascii_of_string s))
  | _ => Raise (TypeError "object is not iterable")
  end.

(** Modelled from the spec: [Domain.to_dict] and [Domain.from_dict] are
    methods of [synthaser.models]; the spec gives the serialised form of a
    domain as a record with the members [type], [start] and [end]. *)
Definition Domain_to_dict (d : Domain.t) : json :=
  JObject [ ("type", JString (Domain.type d));
            ("start", JNumber (Domain.start d));
            ("end", JNumber (Domain.end_ d)) ]%string.

Definition Domain_from_dict (record : json) : result Domain.t :=
  type ← json_get "type" record ≫= json_str;
  start ← json_get "start" record ≫= json_int;
  end_ ← json_get "end" record ≫= json_int;
  Ok (Domain.mk type start end_).

(** Modelled from the spec: [Synthase.to_dict] and [Synthase.from_dict] are
    methods of [synthaser.models]; the spec gives the serialised form of an
    entity as a record with the members [header], [sequence] and [domains],
    the last one a list of domain records. *)
Definition Synthase_to_dict (s : Synthase.t) : json :=
  JObject [ ("header", JString (Synthase.header s));
            ("sequence", JString (Synthase.sequence s));
            ("domains", JArray (map Domain_to_dict (Synthase.domains s))) ]%string.

Definition Synthase_from_dict (record : json) : result Synthase.t :=
  header ← json_get "header" record ≫= json_str;
  sequence ← json_get "sequence" record ≫= json_str;
  records ← json_get "domains" record ≫= json_iter;
  domains ← comprehension Domain_from_dict records;
  Ok (Synthase.mk header sequence domains).

Definition to_json (f : Figure) : json :=
  JArray (map Synthase_to_dict (synthases f)).

Definition from_json (document : json) : result Figure :=
  records ← json_iter document;
  loaded ← comprehension Synthase_from_dict records;
  Figure_init (Some loaded) None.

(** ** FASTA wrapping *)

(** [range(start, stop, step)] *)
Definition py_range (start stop step : Z) : result (list Z) :=
  if decide (step = 0) then Raise (ValueError "range() arg 3 must not be zero")
  else
    let count :=
      if 0 <? step then (stop - start + step - 1) / step
      else (start - stop - step - 1) / (- step) in
    Ok (map (fun k => start + Z.of_nat k * step) (seq 0 (Z.to_nat count))).

(** A slice bound brought into [0, len]: a negative bound counts from the
    end. *)
Definition slice_bound (length bound : Z) : Z :=
  Z.min length (Z.max 0 (if bound <? 0 then bound + length else bound)).

(** [s[i:j]] *)
Definition slice (s : string) (i j : Z) : string :=
  let lower := slice_bound (len s) i in
  let upper := slice_bound (len s) j in
  string_of_list_ascii
    (take (Z.to_nat (upper - lower)) (drop (Z.to_nat lower) (list_ascii_of_string s))).

Definition wrap_fasta (sequence : string) (limit : Z) : result string :=
  starts ← py_range 0 (len sequence) limit;
  Ok (join newline (map (fun i => slice sequence i (i + limit)) starts)).

(** [wrap_fasta(sequence)] with the default limit. *)
Definition wrap_fasta_default (sequence : string) : result string :=
  wrap_fasta sequence 80.

(** ** Sample data for the scenarios *)

(** [c * n] *)
Fixpoint repeat_char (c : ascii) (n : nat) : string :=
  match n with
  | O => EmptyString
  | S n' => String c (repeat_char c n')
  end.

(** A classification for the scenarios: the type is the type label of the
    first domain and the subtype the one of the last domain. *)
Definition terminal_classification : Classification := {|
  type := fun s => from_option Domain.type "" (head (Synthase.domains s));
  subtype := fun s => from_option Domain.type "" (last (Synthase.domains s))
|}.

(** The entity of the scenario of the spec: a hundred residues and one [KS]
    domain over the first half. *)
Definition synthase_A : Synthase.t :=
  Synthase.mk "A" (repeat_char "M" 100) [Domain.mk "KS" 0 50].

(** An entity without a sequence. *)
Definition synthase_B : Synthase.t :=
  Synthase.mk "B" "" [Domain.mk "KS" 0 50; Domain.mk "AT" 60 90].

Definition figure_of (entities : list Synthase.t) : Figure :=
  {| synthases := entities; colours := default_colours |}.

(** A reader of sequence files that finds no record. *)
Definition no_records (_ : unit) : list (string * string) := [].

(** An entity with a domain of a type that has no colour. *)
Definition synthase_X : Synthase.t :=
  Synthase.mk "X" (repeat_char "M" 10) [Domain.mk "KS" 0 5; Domain.mk "XX" 5 10].

(** * Properties *)

(** ** Failures of the scale factor *)

Lemma existsb_no_sequence (l : list Synthase.t) :
  existsb no_sequence l = true <-> Exists (fun s => Synthase.sequence s = "") l.
Proof.
  induction l as [|s l IH]; simpl.
  - split; [discriminate | intros Hex; inversion Hex].
  - rewrite orb_true_iff, IH, Exists_cons. unfold no_sequence.
    destruct (decide (Synthase.sequence s = "")); intuition congruence.
Qed.

Lemma existsb_no_sequence_false (l : list Synthase.t) :
  existsb no_sequence l = false <-> Forall (fun s => Synthase.sequence s <> "") l.
Proof.
  rewrite <- not_true_iff_false, existsb_no_sequence, <- Forall_Exists_neg.
  reflexivity.
Qed.

Lemma scale_factor_empty_sequence (f : Figure) (width : Z) :
  Exists (fun s => Synthase.sequence s = "") (synthases f) ->
  calculate_scale_factor f width = Raise EmptySequenceError_figure.
Proof.
  intros Hex. apply existsb_no_sequence in Hex.
  unfold calculate_scale_factor. now rewrite Hex.
Qed.

Lemma scale_factor_negative_width (f : Figure) (width : Z) :
  Forall (fun s => Synthase.sequence s <> "") (synthases f) ->
  width < 0 ->
  calculate_scale_factor f width = Raise InvalidWidthError.
Proof.
  intros Hall Hneg. apply existsb_no_sequence_false in Hall.
  unfold calculate_scale_factor. rewrite Hall.
  apply Z.ltb_lt in Hneg. now rewrite Hneg.
Qed.

Lemma visualise_propagates `{Classification} (f : Figure) (width : Z) (e : exn)
    (arrow_height arrow_spacing block_spacing header_fsize info_fsize : Z) :
  calculate_scale_factor f width = Raise e ->
  visualise f arrow_height arrow_spacing block_spacing header_fsize info_fsize width
  = (f, Raise e).
Proof. intros Hscale. unfold visualise. now rewrite Hscale. Qed.

(** C6, as the code has it. [calculate_scale_factor] raises the empty
    sequence error whenever some entity has an empty sequence, whatever the
    width; it raises the width error whenever the width is negative and no
    entity has an empty sequence, the sequence check coming first; and
    [visualise] ends with the same exception, the figure untouched and no
    document produced. *)
Theorem scale_factor_failures `{Classification} (f : Figure) (width : Z) :
  (Exists (fun s => Synthase.sequence s = "") (synthases f) ->
   calculate_scale_factor f width = Raise EmptySequenceError_figure) /\
  (width < 0 ->
   Forall (fun s => Synthase.sequence s <> "") (synthases f) ->
   calculate_scale_factor f width = Raise InvalidWidthError) /\
  (forall e arrow_height arrow_spacing block_spacing header_fsize info_fsize,
     calculate_scale_factor f width = Raise e ->
     visualise f arrow_height arrow_spacing block_spacing header_fsize info_fsize width
     = (f, Raise e)).
Proof.
  split; [|split].
  - apply scale_factor_empty_sequence.
  - intros Hneg Hall. now apply scale_factor_negative_width.
  - intros. now apply visualise_propagates.
Qed.

(** The scenario of the spec: two entities, one of them without a sequence;
    and a negative width on a figure whose entities all have sequences. *)
Lemma scale_factor_failures_witness :
  calculate_scale_factor (figure_of [synthase_A; synthase_B]) 600
  = Raise EmptySequenceError_figure /\
  calculate_scale_factor (figure_of [synthase_A]) (-1) = Raise InvalidWidthError /\
  @visualise_default terminal_classification (figure_of [synthase_A; synthase_B]) 600
  = (figure_of [synthase_A; synthase_B], Raise EmptySequenceError_figure).
Proof.
  pose proof (@scale_factor_failures terminal_classification
                (figure_of [synthase_A; synthase_B]) 600) as (Hempty & _ & Hrender).
  pose proof (@scale_factor_failures terminal_classification
                (figure_of [synthase_A]) (-1)) as (_ & Hwidth & _).
  assert (Hraise : calculate_scale_factor (figure_of [synthase_A; synthase_B]) 600
                   = Raise EmptySequenceError_figure).
  { apply Hempty. apply Exists_cons_tl, Exists_cons_hd. reflexivity. }
  split; [exact Hraise|split].
  - apply Hwidth; [lia|]. repeat constructor. discriminate.
  - unfold visualise_default. now apply Hrender.
Defined.

(** C6 as stated fails: with a negative width and an entity without a
    sequence the exception is the one of the sequence check, not the one of
    the width check. *)
Lemma negative_width_with_empty_sequence :
  -1 < 0 /\
  calculate_scale_factor (figure_of [synthase_B]) (-1) = Raise EmptySequenceError_figure /\
  calculate_scale_factor (figure_of [synthase_B]) (-1) <> Raise InvalidWidthError.
Proof. split; [lia|split]; [reflexivity | discriminate]. Qed.

(** ** The empty figure *)

(** C9. On a figure without entities [calculate_scale_factor] raises for
    every width; for a width that is not negative neither guard fires and
    the exception is the one of [max] on an empty list, which is neither the
    empty sequence error nor the width error; [visualise] ends with that
    exception and produces no document. *)
Theorem empty_figure_cannot_be_rendered `{Classification} (f : Figure) :
  synthases f = [] ->
  (forall width, raises (calculate_scale_factor f width)) /\
  (forall width, 0 <= width ->
     existsb no_sequence (synthases f) = false /\
     (width <? 0) = false /\
     exists msg,
       calculate_scale_factor f width = Raise (ValueError msg) /\
       py_max Synthase.sequence_length (synthases f) = Raise (ValueError msg) /\
       ValueError msg <> EmptySequenceError_figure /\
       ValueError msg <> InvalidWidthError) /\
  (forall width arrow_height arrow_spacing block_spacing header_fsize info_fsize,
     exists e,
       visualise f arrow_height arrow_spacing block_spacing header_fsize info_fsize width
       = (f, Raise e)).
Proof.
  intros Hempty.
  assert (Hraises : forall width, raises (calculate_scale_factor f width)).
  { intros width. unfold raises, calculate_scale_factor. rewrite Hempty. simpl.
    destruct (width <? 0); eexists; reflexivity. }
  split; [exact Hraises|split].
  - intros width Hwidth. rewrite Hempty. simpl.
    assert (Hltb : (width <? 0) = false) by (apply Z.ltb_ge; lia).
    repeat split; trivial.
    exists "max() arg is an empty sequence"%string.
    unfold calculate_scale_factor. rewrite Hempty. simpl. rewrite Hltb.
    repeat split; discriminate.
  - intros width **. destruct (Hraises width) as [e He].
    exists e. now apply visualise_propagates.
Qed.

Lemma empty_figure_cannot_be_rendered_witness :
  raises (calculate_scale_factor (figure_of []) 600) /\
  exists e, @visualise_default terminal_classification (figure_of []) 600
            = (figure_of [], Raise e).
Proof.
  destruct (@empty_figure_cannot_be_rendered terminal_classification (figure_of [])
              eq_refl) as (Hraises & _ & Hrender).
  split; [apply Hraises | apply Hrender].
Defined.

(** ** The colour registry *)

(** The fifteen domain types of the default colour scheme. *)
Definition domain_types : gset string :=
  list_to_set (map fst default_colours_items).

Lemma default_colours_dom : dom default_colours = domain_types.
Proof.
  unfold default_colours, domain_types. now rewrite dom_list_to_map_L.
Qed.

Lemma domain_types_size : size domain_types = 15%nat.
Proof. reflexivity. Qed.

(** The loop of [set_colours] writes under keys that are present only. *)
Lemma set_colours_loop_dom (items : list (string * string)) :
  forall registry, dom (set_colours_loop registry items).1 = dom registry.
Proof.
  induction items as [|[key value] rest IH]; intros registry; simpl; [reflexivity|].
  destruct (registry !! key) as [old|] eqn:Hkey; [|reflexivity].
  destruct (negb (_validate_colour value)); [reflexivity|].
  rewrite IH, dom_insert_L.
  apply subseteq_union_1_L, singleton_subseteq_l, elem_of_dom. eauto.
Qed.

Lemma set_colours_dom (f : Figure) (overrides : list (string * string)) :
  dom (colours (set_colours f overrides).1) = dom (colours f).
Proof.
  unfold set_colours.
  pose proof (set_colours_loop_dom overrides (colours f)) as Hdom.
  destruct (set_colours_loop (colours f) overrides) as [registry outcome].
  exact Hdom.
Qed.

Lemma set_colours_synthases (f : Figure) (overrides : list (string * string)) :
  synthases (set_colours f overrides).1 = synthases f.
Proof.
  unfold set_colours.
  now destruct (set_colours_loop (colours f) overrides) as [registry outcome].
Qed.

Lemma Figure_init_dom (entities : option (list Synthase.t))
    (overrides : option (list (string * string))) (f : Figure) :
  Figure_init entities overrides = Ok f -> dom (colours f) = domain_types.
Proof.
  unfold Figure_init.
  set (self := {| synthases := default [] entities; colours := default_colours |}).
  destruct overrides as [[|item rest]|]; intros Hinit.
  - inversion Hinit. apply default_colours_dom.
  - pose proof (set_colours_dom self (item :: rest)) as Hdom.
    destruct (set_colours self (item :: rest)) as [self' [[]|e]]; [|discriminate].
    inversion Hinit; subst. simpl in Hdom. rewrite Hdom. apply default_colours_dom.
  - inversion Hinit. apply default_colours_dom.
Qed.

(** The figures a program can hold: built by the constructor, then changed
    by any sequence of calls of the methods that write to the figure. A call
    of [set_colours] counts whether it returns or raises. *)
Inductive reachable `{Classification} : Figure -> Prop :=
| reachable_init entities overrides f :
    Figure_init entities overrides = Ok f -> reachable f
| reachable_set_colours f overrides :
    reachable f -> reachable (set_colours f overrides).1
| reachable_sort f :
    reachable f -> reachable (sort_synthases_by_length f)
| reachable_iterate f :
    reachable f -> reachable (iterate_synthase_types f).1
| reachable_visualise f arrow_height arrow_spacing block_spacing header_fsize
    info_fsize width :
    reachable f ->
    reachable (visualise f arrow_height arrow_spacing block_spacing header_fsize
                 info_fsize width).1.

Lemma visualise_colours `{Classification} (f : Figure)
    (arrow_height arrow_spacing block_spacing header_fsize info_fsize width : Z) :
  colours (visualise f arrow_height arrow_spacing block_spacing header_fsize
             info_fsize width).1 = colours f.
Proof.
  unfold visualise. destruct (calculate_scale_factor f width); reflexivity.
Qed.

(** C10. The keys of the colour registry of a figure are the fifteen domain
    types of the default colour scheme: after construction, with or without
    overrides, and after every sequence of calls of [set_colours], whether a
    call returns or raises. *)
Theorem colour_keys_invariant `{Classification} (f : Figure) :
  reachable f ->
  dom (colours f) = domain_types /\ size (dom (colours f)) = 15%nat.
Proof.
  intros Hreach.
  assert (Hdom : dom (colours f) = domain_types).
  { induction Hreach as [entities overrides f Hinit | f overrides _ IH | f _ IH
                        | f _ IH | f ah asp bsp hf inf w _ IH].
    - eapply Figure_init_dom; eauto.
    - now rewrite set_colours_dom.
    - exact IH.
    - exact IH.
    - now rewrite visualise_colours. }
  split; [exact Hdom|]. rewrite Hdom. apply domain_types_size.
Qed.

(** A figure built with an override, then given a valid override, an
    unknown domain type and an invalid colour in turn. *)
Lemma colour_keys_invariant_witness :
  let f0 := {| synthases := [synthase_A];
               colours := <["KS" := "#000000"]> default_colours |} in
  let f1 := (set_colours f0 [("ACP", "#FFF")]).1 in
  let f2 := (set_colours f1 [("AT", "#abcdef"); ("XX", "#000000")]).1 in
  let f3 := (set_colours f2 [("DH", "#123"); ("KS", "notacolor")]).1 in
  (set_colours f2 [("DH", "#123"); ("KS", "notacolor")]).2
  = Raise (ValueError "'KS' is not a valid hex code") /\
  dom (colours f3) = domain_types /\ size (dom (colours f3)) = 15%nat.
Proof.
  intros f0 f1 f2 f3. split; [reflexivity|].
  apply (@colour_keys_invariant terminal_classification f3).
  repeat apply (@reachable_set_colours terminal_classification).
  apply (@reachable_init terminal_classification (Some [synthase_A])
           (Some [("KS", "#000000")])).
  reflexivity.
Defined.

(** ** Colour validation *)

(** The form the spec gives a valid colour: a hash sign followed by three or
    by six hexadecimal digits of either case, and nothing else. *)
Definition hex_digit (c : ascii) : Prop :=
  in_class [("A", "F"); ("a", "f"); ("0", "9")]%char c = true.

Definition hex_colour (colour : string) : Prop :=
  exists digits : list ascii,
    list_ascii_of_string colour = "#"%char :: digits /\
    Forall hex_digit digits /\
    (length digits = 3%nat \/ length digits = 6%nat).

Lemma matches_Rep_S (r : regex) (n : nat) (b : bool) (s : list ascii)
    (k : bool -> list ascii -> bool) :
  matches (Rep r (S n)) b s k
  = matches r b s (fun b' s' => matches (Rep r n) b' s' k).
Proof. reflexivity. Qed.

Lemma matches_CharClass (ranges : list (ascii * ascii)) (b : bool)
    (s : list ascii) (k : bool -> list ascii -> bool) :
  matches (CharClass ranges) b s k
  = match s with
    | c :: s' => in_class ranges c && k false s'
    | [] => false
    end.
Proof. reflexivity. Qed.

Lemma matches_class_rep (ranges : list (ascii * ascii)) (n : nat)
    (k : bool -> list ascii -> bool) :
  forall (b : bool) (s : list ascii),
    matches (Rep (CharClass ranges) n) b s k = true <->
    exists digits rest,
      s = digits ++ rest /\ length digits = n /\
      Forall (fun c => in_class ranges c = true) digits /\
      k (match n with O => b | S _ => false end) rest = true.
Proof.
  induction n as [|n IH]; intros b s.
  - simpl. split.
    + intros Hk. exists [], s. repeat split; trivial.
    + intros (digits & rest & -> & Hlen & _ & Hk).
      destruct digits; [exact Hk | discriminate].
  - rewrite matches_Rep_S, matches_CharClass. destruct s as [|c s].
    + split; [discriminate|].
      intros (digits & rest & Happ & Hlen & _).
      destruct digits; discriminate.
    + rewrite andb_true_iff, IH. split.
      * intros (Hc & digits & rest & -> & Hlen & Hall & Hk).
        exists (c :: digits), rest. simpl. repeat split; auto.
        destruct n; exact Hk.
      * intros (digits & rest & Happ & Hlen & Hall & Hk).
        destruct digits as [|c' digits]; [discriminate|].
        simpl in Happ, Hlen. inversion Happ; subst c' s.
        inversion Hall; subst. split; [assumption|].
        exists digits, rest.
        split; [reflexivity|]. split; [lia|]. split; [assumption|].
        simpl in Hk. destruct n; exact Hk.
Qed.

Lemma matches_Eol (b : bool) (s : list ascii) :
  matches Eol b s (fun _ _ => true) = true <-> s = [] \/ s = ["010"%char].
Proof.
  simpl. destruct s as [|c [|c' s]].
  - intuition.
  - destruct (decide (c = "010"%char)) as [->|Hc].
    + intuition.
    + split; [discriminate|]. intros [Hs|Hs]; [discriminate|congruence].
  - split; [discriminate|]. intros [Hs|Hs]; discriminate.
Qed.

Lemma search_from_Bol (r : regex) (s : list ascii) :
  search_from (Seq Bol r) false s = false.
Proof. induction s as [|c s IH]; simpl; [reflexivity | exact IH]. Qed.

(** What the pattern accepts: a colour of the form of the spec, or such a
    colour followed by one line feed. *)
Lemma validate_colour_accepts (colour : string) :
  _validate_colour colour = true <->
  exists digits tail,
    list_ascii_of_string colour = "#"%char :: digits ++ tail /\
    Forall hex_digit digits /\
    (length digits = 3%nat \/ length digits = 6%nat) /\
    (tail = [] \/ tail = ["010"%char]).
Proof.
  unfold _validate_colour, search.
  set (s := list_ascii_of_string colour).
  assert (Hsearch :
    search_from hex_regex true s
    = match s with
      | c :: s' =>
          if decide (c = "#"%char)
          then matches (Rep hex_class 6) false s' (fun b t => matches Eol b t (fun _ _ => true))
               || matches (Rep hex_class 3) false s' (fun b t => matches Eol b t (fun _ _ => true))
          else false
      | [] => false
      end).
  { unfold hex_regex. destruct s as [|c s']; [reflexivity|].
    cbn [search_from]. rewrite search_from_Bol, orb_false_r.
    cbn [matches andb]. destruct (decide (c = "#"%char)); reflexivity. }
  rewrite Hsearch. clear Hsearch.
  destruct s as [|c s'].
  - split; [discriminate|]. intros (digits & tail & Hs & _). discriminate.
  - destruct (decide (c = "#"%char)) as [->|Hc].
    + set (k := fun (b : bool) (t : list ascii) => matches Eol b t (fun _ _ => true)).
      split.
      * intros Hm.
        destruct (matches (Rep hex_class 6) false s' k
                  || matches (Rep hex_class 3) false s' k) eqn:Hor; [|discriminate].
        apply orb_true_iff in Hor.
        destruct Hor as [Hrep|Hrep];
          apply matches_class_rep in Hrep;
          destruct Hrep as (digits & rest & -> & Hlen & Hall & Hk);
          apply matches_Eol in Hk; exists digits, rest; repeat split; auto.
      * intros (digits & tail & Hs & Hall & Hlen & Htail).
        inversion Hs; subst s'.
        assert (Hor : matches (Rep hex_class 6) false (digits ++ tail) k
                      || matches (Rep hex_class 3) false (digits ++ tail) k = true).
        { apply orb_true_iff.
          destruct Hlen as [Hlen|Hlen]; [right|left];
            apply matches_class_rep; exists digits, tail;
            repeat split; auto; apply matches_Eol; exact Htail. }
        now rewrite Hor.
    + split; [discriminate|].
      intros (digits & tail & Hs & _). inversion Hs. congruence.
Qed.

(** Every colour of the form of the spec passes the validation. *)
Lemma validate_colour_complete (colour : string) :
  hex_colour colour -> _validate_colour colour = true.
Proof.
  intros (digits & Hs & Hall & Hlen). apply validate_colour_accepts.
  exists digits, []. rewrite app_nil_r. auto.
Qed.

(** A colour followed by a line feed passes as well: [$] also matches just
    before a line feed that ends the string. *)
Lemma validate_colour_trailing_newline (colour : string) :
  hex_colour colour -> _validate_colour (colour +:+ newline) = true.
Proof.
  intros (digits & Hs & Hall & Hlen). apply validate_colour_accepts.
  exists digits, ["010"%char]. repeat split; auto.
  rewrite <- (string_of_list_ascii_of_string colour), Hs. clear Hs.
  change ("#"%char :: digits ++ ["010"%char])
    with (("#"%char :: digits) ++ ["010"%char]).
  generalize ("#"%char :: digits). intros l.
  induction l as [|c l IH]; simpl; [reflexivity|]. now rewrite IH.
Qed.

(** Whatever passes the validation without being a colour of the form of
    the spec is such a colour followed by one line feed. *)
Lemma validate_colour_sound (colour : string) :
  _validate_colour colour = true ->
  hex_colour colour \/
  exists colour', hex_colour colour' /\ colour = colour' +:+ newline.
Proof.
  intros Hv. apply validate_colour_accepts in Hv.
  destruct Hv as (digits & tail & Hs & Hall & Hlen & [->| ->]).
  - left. exists digits. now rewrite app_nil_r in Hs.
  - right. exists (string_of_list_ascii ("#"%char :: digits)). split.
    + exists digits. now rewrite list_ascii_of_string_of_list_ascii.
    + rewrite <- (string_of_list_ascii_of_string colour), Hs. clear Hs.
      change ("#"%char :: digits ++ ["010"%char])
        with (("#"%char :: digits) ++ ["010"%char]).
      generalize ("#"%char :: digits). intros l.
      induction l as [|c l IH]; simpl; [reflexivity|]. now rewrite IH.
Qed.

(** ** Overrides of the colour scheme *)

(** An override the loop of [set_colours] accepts. *)
Definition valid_override (registry : gmap string string)
    (item : string * string) : Prop :=
  item.1 ∈ dom registry /\ _validate_colour item.2 = true.

(** The registry with the overrides written in order. *)
Definition overwrite (registry : gmap string string)
    (items : list (string * string)) : gmap string string :=
  foldl (fun m item => <[item.1 := item.2]> m) registry items.

Lemma overwrite_dom (items : list (string * string)) :
  forall registry,
    Forall (valid_override registry) items ->
    dom (overwrite registry items) = dom registry.
Proof.
  induction items as [|[key value] rest IH]; intros registry Hall; [reflexivity|].
  inversion Hall as [|? ? [Hkey Hvalue] Hrest]; subst. simpl in Hkey.
  assert (Hdom : dom (<[key := value]> registry) = dom registry).
  { rewrite dom_insert_L. now apply subseteq_union_1_L, singleton_subseteq_l. }
  unfold overwrite. simpl. fold (overwrite (<[key := value]> registry) rest).
  rewrite IH, Hdom; [reflexivity|].
  eapply Forall_impl; [exact Hrest|].
  intros item [Hk Hv]. split; [now rewrite Hdom | exact Hv].
Qed.

(** Valid overrides followed by anything: the loop writes the valid ones
    and goes on with the rest. *)
Lemma set_colours_loop_app (valid rest : list (string * string)) :
  forall registry,
    Forall (valid_override registry) valid ->
    set_colours_loop registry (valid ++ rest)
    = set_colours_loop (overwrite registry valid) rest.
Proof.
  induction valid as [|[key value] valid IH]; intros registry Hall; [reflexivity|].
  inversion Hall as [|? ? [Hkey Hvalue] Hvalid]; subst. simpl in Hkey, Hvalue.
  apply elem_of_dom in Hkey as [old Hold].
  simpl. rewrite Hold, Hvalue. simpl.
  apply IH. eapply Forall_impl; [exact Hvalid|].
  intros item [Hk Hv]. split; [|exact Hv].
  rewrite dom_insert_L. set_solver.
Qed.

(** All overrides valid: [set_colours] returns and every entry is written. *)
Lemma set_colours_valid (f : Figure) (overrides : list (string * string)) :
  Forall (valid_override (colours f)) overrides ->
  set_colours f overrides
  = ({| synthases := synthases f; colours := overwrite (colours f) overrides |}, Ok tt).
Proof.
  intros Hall. unfold set_colours.
  rewrite <- (app_nil_r overrides) at 1.
  now rewrite set_colours_loop_app.
Qed.

(** The first override whose key is not a domain type raises [KeyError]
    (the [InvalidDomainError] of the spec). *)
Lemma set_colours_invalid_domain (f : Figure) (valid rest : list (string * string))
    (key value : string) :
  Forall (valid_override (colours f)) valid ->
  key ∉ dom (colours f) ->
  (set_colours f (valid ++ (key, value) :: rest)).2
  = Raise (KeyError ("Invalid domain '" +:+ key +:+ "'")).
Proof.
  intros Hall Hkey. unfold set_colours.
  rewrite set_colours_loop_app by exact Hall. simpl.
  rewrite <- (overwrite_dom valid (colours f) Hall) in Hkey.
  apply not_elem_of_dom in Hkey. now rewrite Hkey.
Qed.

(** The first override whose value fails the validation raises
    [ValueError] (the [InvalidColourError] of the spec). *)
Lemma set_colours_invalid_colour (f : Figure) (valid rest : list (string * string))
    (key value : string) :
  Forall (valid_override (colours f)) valid ->
  key ∈ dom (colours f) ->
  _validate_colour value = false ->
  (set_colours f (valid ++ (key, value) :: rest)).2
  = Raise (ValueError ("'" +:+ key +:+ "' is not a valid hex code")).
Proof.
  intros Hall Hkey Hvalue. unfold set_colours.
  rewrite set_colours_loop_app by exact Hall. simpl.
  rewrite <- (overwrite_dom valid (colours f) Hall) in Hkey.
  apply elem_of_dom in Hkey as [old Hold]. now rewrite Hold, Hvalue.
Qed.

(** A dictionary has one entry per key: after a call that returns, the
    registry holds the new colour under every key of the overrides. *)
Lemma overwrite_lookup (items : list (string * string)) (key value : string) :
  forall registry,
    NoDup (map fst items) ->
    (key, value) ∈ items ->
    overwrite registry items !! key = Some value.
Proof.
  induction items as [|[k v] rest IH]; intros registry Hnodup Hin.
  - inversion Hin.
  - simpl in Hnodup. apply NoDup_cons in Hnodup as [Hfresh Hnodup].
    unfold overwrite. simpl. fold (overwrite (<[k := v]> registry) rest).
    apply elem_of_cons in Hin as [Heq|Hin].
    + inversion Heq; subst k v. clear Heq.
      assert (Hkeep : forall l m, key ∉ map fst l ->
                overwrite m l !! key = m !! key).
      { clear. intros l. induction l as [|[k v] l IHl]; intros m Hnot; [reflexivity|].
        unfold overwrite. simpl. fold (overwrite (<[k := v]> m) l).
        simpl in Hnot. apply not_elem_of_cons in Hnot as [Hne Hnot].
        rewrite IHl by exact Hnot. now apply lookup_insert_ne. }
      rewrite Hkeep by exact Hfresh. apply lookup_insert_eq.
    + now apply IH.
Qed.

(** The scenarios of the spec. *)
Example set_colours_unknown_domain :
  (set_colours (figure_of []) [("XX", "#000000")]).2
  = Raise (KeyError "Invalid domain 'XX'").
Proof. reflexivity. Qed.

Example set_colours_not_a_colour :
  (set_colours (figure_of []) [("KS", "notacolor")]).2
  = Raise (ValueError "'KS' is not a valid hex code").
Proof. reflexivity. Qed.

(** C5, where the code departs from it. The string made of [#FFF] and a
    line feed is not of the form [#RGB] or [#RRGGBB], yet the validation
    accepts it, and [set_colours] stores it as the colour of [KS]. *)
Theorem validate_colour_accepts_line_feed :
  _validate_colour ("#FFF" +:+ newline) = true /\
  ~ hex_colour ("#FFF" +:+ newline) /\
  set_colours (figure_of []) [("KS", "#FFF" +:+ newline)]
  = ({| synthases := []; colours := <["KS" := "#FFF" +:+ newline]> default_colours |},
     Ok tt).
Proof.
  split; [reflexivity|split]; [|reflexivity].
  intros (digits & Hs & Hall & Hlen). simpl in Hs. inversion Hs; subst digits.
  simpl in Hlen. destruct Hlen; discriminate.
Qed.

(** ** FASTA wrapping *)

Lemma string_of_list_ascii_app (a b : list ascii) :
  string_of_list_ascii (a ++ b) = string_of_list_ascii a +:+ string_of_list_ascii b.
Proof. induction a as [|c a IH]; simpl; [reflexivity | now rewrite IH]. Qed.

Lemma string_of_list_ascii_length (a : list ascii) :
  String.length (string_of_list_ascii a) = length a.
Proof. induction a as [|c a IH]; simpl; [reflexivity | now rewrite IH]. Qed.

Lemma list_ascii_of_string_length (s : string) :
  length (list_ascii_of_string s) = String.length s.
Proof. induction s as [|c s IH]; simpl; [reflexivity | now rewrite IH]. Qed.

(** Joining on the empty string is concatenation. *)
Lemma join_empty (parts : list (list ascii)) :
  join "" (map string_of_list_ascii parts) = string_of_list_ascii (concat parts).
Proof.
  unfold join. induction parts as [|x parts IH]; [reflexivity|].
  destruct parts as [|y parts].
  - simpl. now rewrite app_nil_r.
  - change (String.concat "" (map string_of_list_ascii (x :: y :: parts)))
      with (string_of_list_ascii x +:+ "" +:+
            String.concat "" (map string_of_list_ascii (y :: parts))).
    rewrite IH.
    change (concat (x :: y :: parts)) with (x ++ concat (y :: parts)).
    now rewrite string_of_list_ascii_app.
Qed.

Section chunks.
Context {A : Type} (l : list A) (width : nat).

(** The [k]-th run of [width] elements of [l]. *)
Definition chunk (k : nat) : list A := take width (drop (k * width) l).

Lemma chunks_concat (count : nat) :
  concat (map chunk (seq 0 count)) = take (count * width) l.
Proof.
  induction count as [|count IH]; [reflexivity|].
  rewrite seq_S, map_app, concat_app, IH. simpl.
  rewrite app_nil_r. unfold chunk. rewrite take_take_drop.
  f_equal. lia.
Qed.

Lemma chunk_length (k : nat) :
  length (chunk k) = Nat.min width (length l - k * width).
Proof. unfold chunk. now rewrite length_take, length_drop. Qed.
End chunks.

(** [text.split("\n")]: the lines of a text. *)
Fixpoint split_lines (text : list ascii) : list (list ascii) :=
  match text with
  | [] => [[]]
  | c :: text' =>
      if decide (c = "010"%char) then [] :: split_lines text'
      else match split_lines text' with
           | line :: lines => (c :: line) :: lines
           | [] => [[c]]
           end
  end.

Definition lines_of (text : string) : list string :=
  map string_of_list_ascii (split_lines (list_ascii_of_string text)).

Lemma list_ascii_of_string_app (a b : string) :
  list_ascii_of_string (a +:+ b) = list_ascii_of_string a ++ list_ascii_of_string b.
Proof. induction a as [|c a IH]; simpl; [reflexivity | now rewrite IH]. Qed.

Lemma split_lines_app (line rest : list ascii) :
  "010"%char ∉ line ->
  split_lines (line ++ "010"%char :: rest) = line :: split_lines rest.
Proof.
  induction line as [|c line IH]; intros Hfree; simpl.
  - destruct (decide ("010"%char = "010"%char)); [reflexivity | congruence].
  - apply not_elem_of_cons in Hfree as [Hc Hfree].
    destruct (decide (c = "010"%char)); [congruence|].
    now rewrite IH.
Qed.

Lemma split_lines_single (line : list ascii) :
  "010"%char ∉ line -> split_lines line = [line].
Proof.
  induction line as [|c line IH]; intros Hfree; simpl; [reflexivity|].
  apply not_elem_of_cons in Hfree as [Hc Hfree].
  destruct (decide (c = "010"%char)); [congruence|].
  now rewrite IH.
Qed.

(** Splitting what was joined gives the parts back, when no part holds a
    line feed. *)
Lemma lines_of_join (parts : list (list ascii)) :
  parts <> [] ->
  Forall (fun part => "010"%char ∉ part) parts ->
  lines_of (join newline (map string_of_list_ascii parts))
  = map string_of_list_ascii parts.
Proof.
  intros Hne Hfree. unfold lines_of. f_equal.
  induction Hfree as [|part parts Hpart Hparts IH]; [contradiction|].
  destruct parts as [|part' parts].
  - simpl. rewrite list_ascii_of_string_of_list_ascii. now apply split_lines_single.
  - change (join newline (map string_of_list_ascii (part :: part' :: parts)))
      with (string_of_list_ascii part +:+ newline +:+
            join newline (map string_of_list_ascii (part' :: parts))).
    rewrite !list_ascii_of_string_app, list_ascii_of_string_of_list_ascii.
    simpl (list_ascii_of_string newline). simpl app at 2.
    rewrite split_lines_app by exact Hpart. f_equal.
    apply IH. discriminate.
Qed.

(** A slice of [limit] characters from a position inside the string. *)
Lemma slice_chunk (s : string) (i limit : Z) :
  0 <= i <= len s -> 0 < limit ->
  slice s i (i + limit)
  = string_of_list_ascii
      (take (Z.to_nat limit) (drop (Z.to_nat i) (list_ascii_of_string s))).
Proof.
  intros Hi Hlimit. unfold slice, slice_bound.
  assert (Hlen : len s = Z.of_nat (length (list_ascii_of_string s))).
  { unfold len. now rewrite list_ascii_of_string_length. }
  destruct (Z.ltb_spec i 0) as [?|_]; [lia|].
  destruct (Z.ltb_spec (i + limit) 0) as [?|_]; [lia|].
  rewrite (Z.max_r 0 i), (Z.min_r (len s) i), (Z.max_r 0 (i + limit)) by lia.
  f_equal.
  destruct (Z.le_gt_cases (len s) (i + limit)) as [Hle|Hgt].
  - rewrite Z.min_l by lia.
    rewrite !take_ge; [reflexivity| |]; rewrite length_drop; lia.
  - rewrite Z.min_r by lia. f_equal. lia.
Qed.

(** C8. For a positive limit [wrap_fasta] returns lines joined by line
    feeds; the lines put end to end are the sequence; there are as many
    lines as the limit goes into the length, rounded up; every line holds at
    least one and at most [limit] characters, and every line but the last
    holds exactly [limit]; for a sequence that is not empty and holds no
    line feed of its own they are the lines of the text returned. The limit
    defaults to 80, and 85 characters at limit 80 give a line of 80 and a
    line of 5. *)
Theorem wrap_fasta_lines (sequence : string) (limit : Z) :
  0 < limit ->
  exists lines : list string,
    wrap_fasta sequence limit = Ok (join newline lines) /\
    join "" lines = sequence /\
    Z.of_nat (length lines) = (len sequence + limit - 1) / limit /\
    (forall (i : nat) (line : string),
       lines !! i = Some line ->
       0 < len line <= limit /\
       (S i < length lines -> len line = limit)%nat) /\
    (sequence <> "" -> "010"%char ∉ list_ascii_of_string sequence ->
     lines_of (join newline lines) = lines) /\
    wrap_fasta_default sequence = wrap_fasta sequence 80 /\
    wrap_fasta (repeat_char "A" 85) 80
    = Ok (repeat_char "A" 80 +:+ newline +:+ repeat_char "A" 5).
Proof.
  intros Hlimit.
  set (l := list_ascii_of_string sequence).
  set (width := Z.to_nat limit).
  set (count := Z.to_nat ((len sequence + limit - 1) / limit)).
  assert (Hlen : len sequence = Z.of_nat (length l)).
  { unfold len, l. now rewrite list_ascii_of_string_length. }
  assert (Hq : 0 <= (len sequence + limit - 1) / limit).
  { apply Z.div_pos; lia. }
  assert (Hcover : (length l <= count * width)%nat).
  { pose proof (Z.mul_succ_div_gt (len sequence + limit - 1) limit Hlimit).
    unfold count, width. nia. }
  assert (Hlast : forall k, (k < count)%nat -> (k * width < length l)%nat).
  { intros k Hk.
    pose proof (Z.mul_div_le (len sequence + limit - 1) limit Hlimit).
    unfold count, width in *. nia. }
  exists (map (fun k => string_of_list_ascii (chunk l width k)) (seq 0 count)).
  split; [|split; [|split; [|split; [|split; [|split]]]]].
  - unfold wrap_fasta, py_range.
    destruct (decide (limit = 0)) as [?|_]; [lia|].
    destruct (Z.ltb_spec 0 limit) as [_|?]; [|lia].
    rewrite Z.sub_0_r. fold count. simpl. do 2 f_equal.
    rewrite map_map. apply map_ext_in. intros k Hk.
    apply in_seq in Hk. specialize (Hlast k ltac:(lia)).
    rewrite slice_chunk by (unfold width in *; nia).
    unfold chunk, width. do 3 f_equal. nia.
  - rewrite <- map_map, join_empty, chunks_concat, take_ge by exact Hcover.
    apply string_of_list_ascii_of_string.
  - rewrite length_map, length_seq. unfold count. lia.
  - intros i line Hline.
    rewrite list_lookup_fmap in Hline.
    destruct (seq 0 count !! i) as [k|] eqn:Hk; [|discriminate].
    apply lookup_seq in Hk as [-> Hi]. simpl in Hline. inversion Hline; subst line.
    unfold len. rewrite string_of_list_ascii_length, chunk_length.
    rewrite length_map, length_seq.
    specialize (Hlast i Hi) as Hin. split.
    + unfold width in *. lia.
    + intros Hnext. specialize (Hlast (S i) Hnext). unfold width in *. lia.
  - intros Hsequence Hfree. rewrite <- map_map. apply lines_of_join.
    + assert (Hcount : (0 < count)%nat).
      { destruct count; [|lia]. simpl in Hcover.
        destruct sequence; [contradiction | simpl in Hcover; lia]. }
      destruct count; [lia | discriminate].
    + apply Forall_forall. intros part Hpart.
      apply list_elem_of_fmap in Hpart as (k & -> & _).
      intros Hin. apply Hfree. unfold chunk in Hin.
      apply subseteq_take, subseteq_drop in Hin. exact Hin.
  - reflexivity.
  - vm_compute. reflexivity.
Qed.

(** The scenario of the spec: 85 characters at limit 80 give two lines, of
    80 and of 5 characters. *)
Lemma wrap_fasta_lines_witness :
  (exists lines : list string,
     wrap_fasta (repeat_char "A" 85) 80 = Ok (join newline lines) /\
     join "" lines = repeat_char "A" 85 /\
     Z.of_nat (length lines) = 2) /\
  (fun text => map len (lines_of text)) <$> wrap_fasta (repeat_char "A" 85) 80
  = Ok [80; 5].
Proof.
  split; [|vm_compute; reflexivity].
  destruct (wrap_fasta_lines (repeat_char "A" 85) 80 ltac:(lia))
    as (lines & Hwrap & Hjoin & Hcount & _).
  exists lines. repeat split; assumption.
Defined.

(** ** Serialisation round trip *)

Lemma comprehension_map {A B} (g : B -> result A) (h : A -> B) (l : list A) :
  (forall x, g (h x) = Ok x) -> comprehension g (map h l) = Ok l.
Proof.
  intros Hgh. induction l as [|x l IH]; simpl; [reflexivity|].
  now rewrite Hgh, IH.
Qed.

Lemma Domain_round_trip (d : Domain.t) :
  Domain_from_dict (Domain_to_dict d) = Ok d.
Proof. now destruct d. Qed.

Lemma Synthase_round_trip (s : Synthase.t) :
  Synthase_from_dict (Synthase_to_dict s) = Ok s.
Proof.
  destruct s as [header sequence domains].
  unfold Synthase_from_dict, Synthase_to_dict. simpl.
  now rewrite (comprehension_map _ _ domains Domain_round_trip).
Qed.

(** C2. Reading back what [to_json] wrote gives a figure with the same
    entities, each with its header, sequence and domains, in the same order,
    and with the default colour scheme: the document does not depend on the
    colours of the figure that was written. *)
Theorem json_round_trip (f : Figure) :
  from_json (to_json f)
  = Ok {| synthases := synthases f; colours := default_colours |} /\
  (forall f', from_json (to_json f) = Ok f' ->
     synthases f' = synthases f /\
     map Synthase.header (synthases f') = map Synthase.header (synthases f) /\
     map Synthase.sequence (synthases f') = map Synthase.sequence (synthases f) /\
     map Synthase.domains (synthases f') = map Synthase.domains (synthases f) /\
     colours f' = default_colours) /\
  (forall g, synthases g = synthases f -> to_json g = to_json f).
Proof.
  assert (Hload : from_json (to_json f)
                  = Ok {| synthases := synthases f; colours := default_colours |}).
  { unfold from_json, to_json. simpl.
    now rewrite (comprehension_map _ _ (synthases f) Synthase_round_trip). }
  split; [exact Hload|split].
  - intros f' Hf'. rewrite Hload in Hf'. inversion Hf'; subst f'. simpl.
    repeat split; reflexivity.
  - intros g Hg. unfold to_json. now rewrite Hg.
Qed.

(** A figure with overridden colours comes back with the default ones. *)
Example json_round_trip_colours :
  from_json (to_json {| synthases := [synthase_A; synthase_B];
                        colours := <["KS" := "#000000"]> default_colours |})
  = Ok (figure_of [synthase_A; synthase_B]).
Proof. reflexivity. Qed.

(** ** Binary64 arithmetic: when the operations return

    [float(int)] and the division of two [int]s raise [OverflowError] when
    the rounded result is infinite. The lemmas below bound the magnitude
    [digits + exponent] of a rounded result, which shows that the
    operations of the figure return on the numbers of a figure. *)

Lemma digits2_pos_size (p : positive) : digits2_pos p = Pos.size p.
Proof. induction p as [p IH|p IH|]; simpl; [now rewrite IH..|reflexivity]. Qed.

Lemma Zdigits2_nonneg (m : Z) : 0 <= Zdigits2 m.
Proof. destruct m; simpl; lia. Qed.

Lemma Zdigits2_bounds (p : positive) :
  2 ^ (Zdigits2 (Zpos p) - 1) <= Zpos p < 2 ^ Zdigits2 (Zpos p).
Proof.
  simpl. rewrite digits2_pos_size.
  pose proof (Pos.size_gt p) as Hgt. pose proof (Pos.size_le p) as Hle.
  apply Pos2Z.pos_lt_pos in Hgt. apply Pos2Z.pos_le_pos in Hle.
  rewrite Pos2Z.inj_pow in Hgt, Hle.
  split; [|exact Hgt].
  replace (Z.pos (Pos.size p)) with (Z.succ (Z.pos (Pos.size p) - 1)) in Hle by lia.
  rewrite Z.pow_succ_r in Hle by lia. change (Z.pos p~0) with (2 * Z.pos p) in Hle. lia.
Qed.

Lemma Zdigits2_le_pow (m k : Z) : 0 <= k -> 0 <= m < 2 ^ k -> Zdigits2 m <= k.
Proof.
  intros Hk [Hm Hlt]. destruct m as [|p|p]; [simpl; lia| |lia].
  destruct (Z.le_gt_cases (Zdigits2 (Zpos p)) k) as [Hle|Hgt]; [exact Hle|].
  pose proof (Zdigits2_bounds p) as [Hlow _].
  assert (2 ^ k <= 2 ^ (Zdigits2 (Z.pos p) - 1)) by (apply Z.pow_le_mono_r; lia).
  lia.
Qed.

Lemma Zdigits2_succ (m : Z) : 0 <= m -> Zdigits2 (m + 1) <= Zdigits2 m + 1.
Proof.
  intros Hm. pose proof (Zdigits2_nonneg m).
  apply Zdigits2_le_pow; [lia|]. split; [lia|].
  rewrite Z.pow_add_r by lia.
  destruct m as [|p|p]; [simpl; lia| |lia].
  pose proof (Zdigits2_bounds p). lia.
Qed.

Lemma Zdigits2_mul (a b : positive) :
  Zdigits2 (Zpos (a * b)) <= Zdigits2 (Zpos a) + Zdigits2 (Zpos b).
Proof.
  pose proof (Zdigits2_nonneg (Zpos a)). pose proof (Zdigits2_nonneg (Zpos b)).
  apply Zdigits2_le_pow; [lia|]. split; [lia|].
  rewrite Z.pow_add_r, Pos2Z.inj_mul by lia.
  pose proof (Zdigits2_bounds a). pose proof (Zdigits2_bounds b). nia.
Qed.

Lemma iter_pos_nat {A} (g : A -> A) (p : positive) :
  forall x, SpecFloat.iter_pos g p x = Nat.iter (Pos.to_nat p) g x.
Proof.
  induction p as [p IH|p IH|]; intros x; cbn [SpecFloat.iter_pos].
  - rewrite !IH, Pos2Nat.inj_xI, <- Nat.iter_succ_r, <- Nat.iter_add.
    f_equal. lia.
  - rewrite !IH, Pos2Nat.inj_xO, <- Nat.iter_add. f_equal. lia.
  - reflexivity.
Qed.

(** One step to the right drops one digit, or reaches zero. *)
Lemma shr_1_digits (mrs : shr_record) :
  0 <= shr_m mrs ->
  0 <= shr_m (shr_1 mrs) /\
  (shr_m (shr_1 mrs) = 0 \/ Zdigits2 (shr_m (shr_1 mrs)) + 1 = Zdigits2 (shr_m mrs)).
Proof.
  destruct mrs as [m r s]. simpl. intros Hm.
  destruct m as [|[p|p|]|p]; simpl; try lia.
Qed.

Lemma shr_iter_digits (n : nat) (mrs : shr_record) :
  0 <= shr_m mrs ->
  0 <= shr_m (Nat.iter n shr_1 mrs) /\
  (shr_m (Nat.iter n shr_1 mrs) = 0 \/
   Zdigits2 (shr_m (Nat.iter n shr_1 mrs)) + Z.of_nat n = Zdigits2 (shr_m mrs)).
Proof.
  intros Hm. induction n as [|n [IHpos IH]].
  - simpl. split; [exact Hm | right; lia].
  - simpl Nat.iter. destruct (shr_1_digits _ IHpos) as [Hpos Hstep].
    split; [exact Hpos|].
    destruct Hstep as [Hzero|Hstep]; [now left|].
    destruct IH as [IH|IH].
    + left. destruct (Nat.iter n shr_1 mrs) as [m r s]. simpl in *. subst m.
      reflexivity.
    + right. lia.
Qed.

(** A shift to the exponent [fexp] asks for: the exponent does not go down,
    and the magnitude [digits + exponent] is kept unless the significand
    vanishes. *)
Lemma shr_digits (mrs : shr_record) (e n : Z) :
  0 <= shr_m mrs ->
  let '(mrs', e') := shr mrs e n in
  0 <= shr_m mrs' /\ e' = e + Z.max 0 n /\
  (shr_m mrs' = 0 \/ Zdigits2 (shr_m mrs') + e' = Zdigits2 (shr_m mrs) + e).
Proof.
  intros Hm. unfold shr. destruct n as [|p|p].
  - split; [exact Hm|split]; [lia | right; reflexivity].
  - rewrite iter_pos_nat.
    destruct (shr_iter_digits (Pos.to_nat p) mrs Hm) as [Hpos Hd].
    split; [exact Hpos|split]; [lia|].
    destruct Hd as [Hd|Hd]; [now left | right]. lia.
  - split; [exact Hm|split]; [lia | right; reflexivity].
Qed.

Definition fexp64 (e : Z) : Z := Z.max (e - 53) (-1074).

Lemma fexp_eq (e : Z) : fexp Float.prec Float.emax e = fexp64 e.
Proof. reflexivity. Qed.

(** A float that is zero or finite, of magnitude at most [2 ^ bound], with
    the sign [sign]. *)
Definition finite_below (sign : bool) (bound : Z) (x : spec_float) : Prop :=
  match x with
  | S754_zero s => s = sign
  | S754_finite s m e => s = sign /\ Zdigits2 (Zpos m) + e <= bound
  | _ => False
  end.

Lemma round_nearest_even_bounds (m : Z) (l : location) :
  0 <= m -> m <= round_nearest_even m l <= m + 1.
Proof.
  intros Hm. destruct l as [|[ | | ]]; simpl; try lia.
  destruct (Z.even m); lia.
Qed.

Lemma binary_round_aux_finite (sign : bool) (m e : Z) (l : location) (bound : Z) :
  0 <= m -> e <= 971 -> Zdigits2 m + e <= bound -> -1074 <= bound -> bound < 1024 ->
  finite_below sign (bound + 1) (binary_round_aux Float.prec Float.emax sign m e l).
Proof.
  intros Hm He Hmag Hlow Hhigh.
  unfold binary_round_aux, shr_fexp. rewrite fexp_eq.
  pose proof (Zdigits2_nonneg m) as Hd.
  set (mrs := shr_record_of_loc m l).
  assert (Hmrs : shr_m mrs = m) by (unfold mrs; destruct l as [|[ | | ]]; reflexivity).
  pose proof (shr_digits mrs e (fexp64 (Zdigits2 m + e) - e)) as Hshr.
  rewrite Hmrs in Hshr. specialize (Hshr Hm).
  destruct (shr mrs e (fexp64 (Zdigits2 m + e) - e)) as [mrs1 e1].
  destruct Hshr as (Hm1 & He1 & Hd1).
  set (m2 := round_nearest_even (shr_m mrs1) (loc_of_shr_record mrs1)).
  pose proof (round_nearest_even_bounds (shr_m mrs1) (loc_of_shr_record mrs1) Hm1) as Hm2.
  fold m2 in Hm2.
  assert (Hmag2 : Zdigits2 m2 + e1 <= bound + 1 /\ e1 <= 971 /\ e1 <= bound).
  { unfold fexp64 in He1.
    assert (Zdigits2 m2 <= Zdigits2 (shr_m mrs1) + 1).
    { destruct (Z.eq_dec m2 (shr_m mrs1)) as [->|Hne]; [lia|].
      replace m2 with (shr_m mrs1 + 1) by lia. now apply Zdigits2_succ. }
    destruct Hd1 as [Hzero|Hd1].
    - rewrite Hzero in *. simpl in *. lia.
    - lia. }
  destruct Hmag2 as (Hmag2 & He1' & He1'').
  set (mrs2 := shr_record_of_loc m2 loc_Exact).
  pose proof (shr_digits mrs2 e1 (fexp64 (Zdigits2 m2 + e1) - e1)) as Hshr.
  assert (Hmrs2 : shr_m mrs2 = m2) by reflexivity.
  rewrite Hmrs2 in Hshr. specialize (Hshr ltac:(lia)).
  rewrite fexp_eq.
  destruct (shr mrs2 e1 (fexp64 (Zdigits2 m2 + e1) - e1)) as [mrs3 e3].
  destruct Hshr as (Hm3 & He3 & Hd3).
  unfold fexp64 in He3.
  destruct (shr_m mrs3) as [|p|p] eqn:Hp; [reflexivity| |lia].
  assert (He3' : e3 <= 971) by lia.
  change (Float.emax - Float.prec) with 971.
  destruct (Z.leb_spec e3 971) as [_|?]; [|lia].
  split; [reflexivity|].
  destruct Hd3 as [?|Hd3]; [discriminate|]. lia.
Qed.

Lemma finite_below_weaken (sign : bool) (b b' : Z) (x : spec_float) :
  b <= b' -> finite_below sign b x -> finite_below sign b' x.
Proof. intros Hb. destruct x as [s|s| |s m e]; simpl; intuition lia. Qed.

Lemma digits2_pos_iter_xO (m d : positive) :
  Zpos (digits2_pos (Pos.iter xO m d)) = Zpos (digits2_pos m) + Zpos d.
Proof.
  induction d as [|d IH] using Pos.peano_ind.
  - simpl. lia.
  - rewrite Pos.iter_succ. simpl digits2_pos. lia.
Qed.

Lemma shl_align_digits (m : positive) (e e' : Z) :
  let '(mz, ez) := shl_align m e e' in
  Zdigits2 (Zpos mz) + ez = Zdigits2 (Zpos m) + e /\ ez <= e.
Proof.
  unfold shl_align. destruct (e' - e) as [|d|d] eqn:Hd; [simpl; lia..|].
  cbn [Zdigits2]. rewrite digits2_pos_iter_xO. lia.
Qed.

(** [float(z)] returns for an integer of fewer than 1024 bits. *)
Lemma of_int_finite (z : Z) :
  Z.abs z < 2 ^ 1023 ->
  exists x, Float.of_int z = Ok x /\ finite_below (z <? 0) 1024 x.
Proof.
  intros Hz. unfold Float.of_int, binary_normalize.
  assert (Hround : forall (s : bool) (p : positive),
            Zpos p < 2 ^ 1023 ->
            finite_below s 1024 (binary_round Float.prec Float.emax s p 0)).
  { intros s p Hp. unfold binary_round.
    pose proof (shl_align_digits p 0
                  (fexp Float.prec Float.emax (Zpos (digits2_pos p) + 0))) as Hal.
    destruct (shl_align p 0 _) as [mz ez]. destruct Hal as [Hmag Hez].
    assert (Hd : Zdigits2 (Zpos p) <= 1023) by (apply Zdigits2_le_pow; lia).
    pose proof (Zdigits2_nonneg (Zpos p)).
    apply (binary_round_aux_finite s (Zpos mz) ez loc_Exact 1023); lia. }
  destruct z as [|p|p].
  - exists (S754_zero false). split; reflexivity.
  - specialize (Hround false p ltac:(lia)).
    destruct (binary_round Float.prec Float.emax false p 0) as [s|s| |s m e] eqn:Hx;
      simpl in Hround; try contradiction; eexists; split; try reflexivity; exact Hround.
  - specialize (Hround true p ltac:(lia)).
    destruct (binary_round Float.prec Float.emax true p 0) as [s|s| |s m e] eqn:Hx;
      simpl in Hround; try contradiction; eexists; split; try reflexivity; exact Hround.
Qed.

(** The quotient of two significands, as [SFdiv] computes it before it
    rounds. *)
Lemma div_core_bound (m1 m2 : positive) (t : Z) :
  0 <= t -> Zpos m1 <= Zpos m2 * 2 ^ t ->
  let '(q, e', _) := SFdiv_core_binary Float.prec Float.emax (Zpos m1) 0 (Zpos m2) 0 in
  0 <= q /\ e' <= 0 /\ Zdigits2 q + e' <= t + 1.
Proof.
  intros Ht Hle. unfold SFdiv_core_binary.
  set (e' := Z.min (fexp Float.prec Float.emax
                      (Zdigits2 (Zpos m1) + 0 - (Zdigits2 (Zpos m2) + 0))) (0 - 0)).
  assert (He' : e' <= 0) by (unfold e'; lia).
  set (s := 0 - 0 - e').
  set (m' := match s with
             | 0 => Zpos m1
             | Zpos _ => Z.shiftl (Zpos m1) s
             | Zneg _ => 0
             end).
  assert (Hm' : m' = Zpos m1 * 2 ^ s).
  { unfold m'. destruct s as [|p|p] eqn:Hs; [simpl; lia| |lia].
    rewrite Z.shiftl_mul_pow2 by lia. reflexivity. }
  pose proof (Z.div_eucl_eq m' (Zpos m2) ltac:(lia)) as Heucl.
  pose proof (Z.mod_pos_bound m' (Zpos m2) ltac:(lia)) as Hmod.
  unfold Z.modulo in Hmod.
  destruct (Z.div_eucl m' (Zpos m2)) as [q r].
  assert (Hs : 0 <= s) by (unfold s; lia).
  assert (Hpow : 0 < 2 ^ s) by (apply Z.pow_pos_nonneg; lia).
  assert (Hq : 0 <= q) by nia.
  assert (Hqle : q < 2 ^ (s + t + 1)).
  { rewrite Z.pow_add_r, Z.pow_add_r, Z.pow_1_r by lia.
    assert (0 < 2 ^ t) by (apply Z.pow_pos_nonneg; lia). nia. }
  split; [exact Hq|split]; [exact He'|].
  assert (Zdigits2 q <= s + t + 1) by (apply Zdigits2_le_pow; lia).
  unfold s in *. lia.
Qed.

(** [a / b] returns when [a] is at most [2 ^ t] times [b] in magnitude. *)
Lemma int_truediv_finite (a b t : Z) :
  b <> 0 -> 0 <= t <= 1022 -> Z.abs a <= Z.abs b * 2 ^ t ->
  exists x, Float.int_truediv a b = Ok x /\
            finite_below (xorb (a <? 0) (b <? 0)) (t + 2) x.
Proof.
  intros Hb Ht Hle. unfold Float.int_truediv.
  destruct (decide (b = 0)) as [?|_]; [contradiction|].
  assert (Hdiv : forall (sa sb : bool) (m1 m2 : positive),
            Zpos m1 <= Zpos m2 * 2 ^ t ->
            finite_below (xorb sa sb) (t + 2)
              (SFdiv Float.prec Float.emax (S754_finite sa m1 0) (S754_finite sb m2 0))).
  { intros sa sb m1 m2 Hm. unfold SFdiv.
    pose proof (div_core_bound m1 m2 t ltac:(lia) Hm) as Hcore.
    destruct (SFdiv_core_binary _ _ _ _ _ _) as [[q e'] lz].
    destruct Hcore as (Hq & He' & Hmag).
    replace (t + 2) with (t + 1 + 1) by lia.
    apply (binary_round_aux_finite (xorb sa sb) q e' lz (t + 1)); lia. }
  assert (Hfin : finite_below (xorb (a <? 0) (b <? 0)) (t + 2)
                   (SFdiv Float.prec Float.emax (Float.exact a) (Float.exact b))).
  { destruct a as [|m1|m1], b as [|m2|m2]; try contradiction;
      try reflexivity; apply Hdiv; lia. }
  destruct (SFdiv Float.prec Float.emax (Float.exact a) (Float.exact b))
    as [s|s| |s m e]; simpl in Hfin; try contradiction;
    eexists; split; try reflexivity; exact Hfin.
Qed.

(** A product of two finite floats of small magnitude is finite. *)
Lemma mul_finite (sx sy : bool) (bx by' bound : Z) (x y : spec_float) :
  finite_below sx bx x -> finite_below sy by' y ->
  bx + by' <= bound -> -1074 <= bound -> bound <= 973 ->
  finite_below (xorb sx sy) (bound + 1) (Float.mul x y).
Proof.
  intros Hx Hy Hsum Hlow Hhigh. unfold Float.mul, SFmul.
  destruct x as [s1|s1| |s1 m1 e1], y as [s2|s2| |s2 m2 e2]; simpl in Hx, Hy;
    try contradiction.
  - now subst.
  - destruct Hy as [Hs2 _]. now subst.
  - destruct Hx as [Hs1 _]. now subst.
  - destruct Hx as [Hs1 Hx], Hy as [Hs2 Hy]. subst s1 s2.
    pose proof (Zdigits2_mul m1 m2) as Hmul.
    assert (1 <= Zdigits2 (Zpos m1)) by (simpl; lia).
    assert (1 <= Zdigits2 (Zpos m2)) by (simpl; lia).
    apply (binary_round_aux_finite (xorb sx sy) (Zpos (m1 * m2)) (e1 + e2)
             loc_Exact bound); cbn [Zdigits2] in *; lia.
Qed.

(** On a float that is not negative, [int] and [floor] agree and return. *)
Lemma to_int_finite (bound : Z) (x : spec_float) :
  finite_below false bound x ->
  exists z, Float.to_int x = Ok z /\ Float.floor x = Ok z /\ 0 <= z.
Proof.
  destruct x as [s|s| |s m e]; simpl; try contradiction.
  - intros _. exists 0. repeat split; lia.
  - intros [-> _]. exists (Z.shiftl (Zpos m) e). repeat split.
    apply Z.shiftl_nonneg. lia.
Qed.

(** ** Gradient stops *)

(** [100.0] *)
Definition hundred : spec_float := S754_finite false 7036874417766400 (-46).

Lemma of_int_100 : Float.of_int 100 = Ok hundred.
Proof. reflexivity. Qed.

(** The percentage as the spec words it, [floor(position / length * 100)]
    with the quotient and the product of the rationals: the largest integer
    that is at most [100 * position / length]. *)
Definition floor_percentage (position sequence_length : Z) : Z :=
  100 * position / sequence_length.

Lemma floor_percentage_spec (position sequence_length : Z) :
  0 < sequence_length ->
  floor_percentage position sequence_length * sequence_length <= 100 * position
  /\ 100 * position < (floor_percentage position sequence_length + 1) * sequence_length.
Proof.
  intros Hlength. unfold floor_percentage.
  pose proof (Z.mul_div_le (100 * position) sequence_length Hlength).
  pose proof (Z.mul_succ_div_gt (100 * position) sequence_length Hlength).
  lia.
Qed.

(** For a position inside the sequence the percentage is computed without
    an exception and is not negative. *)
Lemma percentage_returns (position sequence_length : Z) :
  0 <= position <= sequence_length -> 0 < sequence_length ->
  exists pct,
    percentage position sequence_length = Ok pct /\
    0 <= pct.
Proof.
  intros Hpos Hlen. unfold percentage.
  destruct (int_truediv_finite position sequence_length 0) as (ratio & Hratio & Hfin);
    [lia | lia | rewrite Z.pow_0_r; lia |].
  rewrite Hratio, of_int_100. simpl.
  destruct (Z.ltb_spec position 0) as [?|_]; [lia|].
  destruct (Z.ltb_spec sequence_length 0) as [?|_]; [lia|].
  simpl in Hfin.
  assert (Hhundred : finite_below false 7 hundred) by (split; [reflexivity | simpl; lia]).
  pose proof (mul_finite false false 2 7 9 ratio hundred Hfin Hhundred
                ltac:(lia) ltac:(lia) ltac:(lia)) as Hmul.
  destruct (to_int_finite _ _ Hmul) as (pct & Hint & Hfloor & Hpct).
  exists pct. auto.
Qed.

(** A domain annotation as the data model of the spec has it: the type is a
    key of the colour registry and the positions lie inside the sequence. *)
Definition valid_domain (registry : gmap string string) (sequence_length : Z)
    (domain : Domain.t) : Prop :=
  Domain.type domain ∈ dom registry /\
  0 <= Domain.start domain < Domain.end_ domain /\
  Domain.end_ domain <= sequence_length.

(** The four stops of a domain in the order the spec lists them, at the
    percentages [int(position / length * 100)] of binary64 arithmetic. *)
Definition stops_of (registry : gmap string string) (sequence_length : Z)
    (domain : Domain.t) (entry : list stop) : Prop :=
  exists start_pct end_pct colour,
    percentage (Domain.start domain) sequence_length = Ok start_pct /\
    percentage (Domain.end_ domain) sequence_length = Ok end_pct /\
    registry !! Domain.type domain = Some colour /\
    entry = [ {| offset := start_pct; stop_color := "white" |};
              {| offset := start_pct; stop_color := colour |};
              {| offset := end_pct; stop_color := colour |};
              {| offset := end_pct; stop_color := "white" |} ].

Lemma domain_stops_valid (registry : gmap string string) (sequence_length : Z)
    (domain : Domain.t) :
  valid_domain registry sequence_length domain ->
  exists entry,
    domain_stops registry sequence_length domain = Ok entry /\
    stops_of registry sequence_length domain entry.
Proof.
  intros (Htype & Hstart & Hend). unfold domain_stops, stops_of, colour_of.
  destruct (percentage_returns (Domain.start domain) sequence_length)
    as (start_pct & Hs & _); [lia..|].
  destruct (percentage_returns (Domain.end_ domain) sequence_length)
    as (end_pct & He & _); [lia..|].
  apply elem_of_dom in Htype as [colour Hcolour].
  rewrite Hs, He, Hcolour. simpl.
  eexists. split; [reflexivity|]. exists start_pct, end_pct, colour. auto.
Qed.

Lemma gradient_loop_valid (registry : gmap string string) (sequence_length : Z)
    (domains : list Domain.t) :
  Forall (valid_domain registry sequence_length) domains ->
  forall stops, exists entries,
    gradient_loop registry sequence_length domains stops = Ok (stops ++ entries) /\
    Forall2 (stops_of registry sequence_length) domains entries.
Proof.
  induction 1 as [|domain domains Hdomain _ IH]; intros stops.
  - exists []. rewrite app_nil_r. split; [reflexivity | constructor].
  - destruct (domain_stops_valid _ _ _ Hdomain) as (entry & Hentry & Hstops).
    destruct (IH (stops ++ [entry])) as (entries & Hloop & Hall).
    exists (entry :: entries). simpl. rewrite Hentry. simpl.
    rewrite Hloop, <- app_assoc. split; [reflexivity|].
    now constructor.
Qed.

Lemma stops_of_count (registry : gmap string string) (sequence_length : Z)
    (domains : list Domain.t) (entries : list (list stop)) :
  Forall2 (stops_of registry sequence_length) domains entries ->
  length (concat entries) = (4 * length domains)%nat.
Proof.
  induction 1 as [|domain entry domains entries Hentry _ IH]; [reflexivity|].
  destruct Hentry as (sp & ep & colour & _ & _ & _ & ->).
  simpl. rewrite IH. lia.
Qed.

(** The gradient of the docstring of [generate_synthase_gradient]. *)
Example gradient_of_docstring :
  generate_synthase_gradient (figure_of [])
    (Synthase.mk "synthase" (repeat_char "A" 100) [Domain.mk "KS" 50 100])
  = Ok (join newline
          [ "<linearGradient id=" +:+ dquote +:+ "synthase_doms" +:+ dquote +:+
            " x1=" +:+ dquote +:+ "0%" +:+ dquote +:+
            " y1=" +:+ dquote +:+ "0%" +:+ dquote +:+
            " x2=" +:+ dquote +:+ "100%" +:+ dquote +:+
            " y2=" +:+ dquote +:+ "0%" +:+ dquote +:+ ">";
            "<stop offset=" +:+ dquote +:+ "50%" +:+ dquote +:+
            " stop-color=" +:+ dquote +:+ "white" +:+ dquote +:+ "/>";
            "<stop offset=" +:+ dquote +:+ "50%" +:+ dquote +:+
            " stop-color=" +:+ dquote +:+ "#08B208" +:+ dquote +:+ "/>";
            "<stop offset=" +:+ dquote +:+ "100%" +:+ dquote +:+
            " stop-color=" +:+ dquote +:+ "#08B208" +:+ dquote +:+ "/>";
            "<stop offset=" +:+ dquote +:+ "100%" +:+ dquote +:+
            " stop-color=" +:+ dquote +:+ "white" +:+ dquote +:+ "/>";
            "</linearGradient>" ]).
Proof. vm_compute. reflexivity. Qed.

(** The percentages are those of binary64 arithmetic: 29 of 100 is 28
    percent, because [29 / 100 * 100] is just below 29. *)
Example percentage_29_of_100 : percentage 29 100 = Ok 28.
Proof. reflexivity. Qed.

(** Before the start of the sequence [int] and [floor] part: [int] rounds
    towards zero. *)
Example percentage_of_negative_position :
  percentage (-1) 3 = Ok (-33) /\ floor_percentage (-1) 3 = -34.
Proof. split; reflexivity. Qed.

(** ** Polygons *)

(** The largest length of a string of the interpreter. *)
Definition sys_maxsize : Z := 2 ^ 63 - 1.

(** A number that converts to [float]: any [float], and an [int] of fewer
    than 1024 bits. *)
Definition convertible (n : number) : Prop :=
  match n with
  | Int z => Z.abs z < 2 ^ 1023
  | Float _ => True
  end.

Lemma to_float_convertible (n : number) :
  convertible n -> exists x, Number.to_float n = Ok x.
Proof.
  destruct n as [z|x]; simpl.
  - intros Hz. destruct (of_int_finite z Hz) as (x & Hx & _). eauto.
  - eauto.
Qed.

(** An operator applied to a [float] on the left returns a [float]. *)
Lemma arith_float_l (fz : Z -> Z -> Z) (ff : spec_float -> spec_float -> spec_float)
    (x : spec_float) (b : number) :
  convertible b -> exists y, Number.arith fz ff (Float x) b = Ok (Float y).
Proof.
  intros Hb. destruct (to_float_convertible b Hb) as (y & Hy).
  unfold Number.arith. simpl. rewrite Hy. simpl. eauto.
Qed.

Lemma arith_float_r (fz : Z -> Z -> Z) (ff : spec_float -> spec_float -> spec_float)
    (a : number) (y : spec_float) :
  convertible a -> exists z, Number.arith fz ff a (Float y) = Ok (Float z).
Proof.
  intros Ha. destruct (to_float_convertible a Ha) as (x & Hx).
  unfold Number.arith. destruct a as [z|x']; simpl in *; [rewrite Hx|]; simpl; eauto.
Qed.

Lemma arith_int_r (fz : Z -> Z -> Z) (ff : spec_float -> spec_float -> spec_float)
    (a : number) (z : Z) :
  Z.abs z < 2 ^ 1023 -> exists c, Number.arith fz ff a (Int z) = Ok c.
Proof.
  intros Hz. destruct a as [x|x]; [simpl; eauto|].
  destruct (arith_float_l fz ff x (Int z) Hz) as (y & Hy). eauto.
Qed.

(** Half of a number is a [float]. *)
Lemma truediv_two (a : number) :
  convertible a -> exists h, Number.truediv a (Int 2) = Ok (Float h).
Proof.
  destruct a as [z|x]; simpl; intros Ha.
  - destruct (int_truediv_finite z 2 1022) as (h & Hh & _); [lia | lia | |].
    + change (2 ^ 1023) with (2 * 2 ^ 1022) in Ha. simpl Z.abs at 2. lia.
    + rewrite Hh. simpl. eauto.
  - eexists. reflexivity.
Qed.

(** [1.0] *)
Definition one : spec_float := S754_finite false 4503599627370496 (-52).

(** The x coordinate of the third point, the tip of the arrow. *)
Definition tip_x (drawn : polygon) : option number :=
  fst <$> points drawn !! 2%nat.



(** The polygon of the docstring of [generate_synthase_polygon], with the
    default scale factor, font size and arrow height of the method; the
    vertical coordinates are the floats 10.8, 17.8 and 24.8. *)
Example polygon_of_docstring :
  points <$> generate_synthase_polygon
    (Synthase.mk "synthase" (repeat_char "A" 100) [Domain.mk "KS" 50 100])
    (Int 1) (Int 12) (Int 14)
  = Ok [ (Int 0, Float (S754_finite false 6079859496950170 (-49)));
         (Int 90, Float (S754_finite false 6079859496950170 (-49)));
         (Int 100, Float (S754_finite false 5010254585449677 (-48)));
         (Int 90, Float (S754_finite false 6980579422424269 (-48)));
         (Int 0, Float (S754_finite false 6980579422424269 (-48))) ].
Proof. vm_compute. reflexivity. Qed.

(** ** Binary64 arithmetic: how far a rounded result is from the exact one *)

Lemma Zdigits2_unique (m k : Z) :
  2 ^ (k - 1) <= m < 2 ^ k -> 1 <= k -> Zdigits2 m = k.
Proof.
  intros [Hlow Hhigh] Hk.
  assert (Hm : 0 < m) by (pose proof (Z.pow_pos_nonneg 2 (k - 1)); lia).
  destruct m as [|p|p]; try lia.
  pose proof (Zdigits2_bounds p) as [Hl Hh].
  pose proof (Zdigits2_nonneg (Zpos p)) as Hd.
  destruct (Z.lt_trichotomy (Zdigits2 (Zpos p)) k) as [Hlt|[Heq|Hgt]]; [|exact Heq|].
  - assert (2 ^ Zdigits2 (Zpos p) <= 2 ^ (k - 1)) by (apply Z.pow_le_mono_r; lia). lia.
  - assert (2 ^ k <= 2 ^ (Zdigits2 (Zpos p) - 1)) by (apply Z.pow_le_mono_r; lia). lia.
Qed.

Lemma shr_1_half (mrs : shr_record) :
  0 <= shr_m mrs -> shr_m (shr_1 mrs) = shr_m mrs / 2.
Proof.
  destruct mrs as [m r s]. simpl. intros Hm.
  destruct m as [|[p|p|]|p]; simpl; try lia; try reflexivity.
  - apply (Z.div_unique (Zpos p~1) 2 (Zpos p) 1); lia.
  - apply (Z.div_unique (Zpos p~0) 2 (Zpos p) 0); lia.
Qed.

Lemma shr_iter_div (n : nat) (mrs : shr_record) :
  0 <= shr_m mrs ->
  shr_m (Nat.iter n shr_1 mrs) = shr_m mrs / 2 ^ Z.of_nat n.
Proof.
  intros Hm. induction n as [|n IH].
  - simpl. now rewrite Z.div_1_r.
  - simpl Nat.iter. rewrite shr_1_half, IH.
    + rewrite Z.div_div by (try apply Z.pow_pos_nonneg; lia).
      f_equal. rewrite Nat2Z.inj_succ, Z.pow_succ_r by lia. lia.
    + rewrite IH. apply Z.div_pos; [lia|]. apply Z.pow_pos_nonneg; lia.
Qed.

(** The shift drops the low digits of the significand. *)
Lemma shr_div (mrs : shr_record) (e n : Z) :
  0 <= shr_m mrs -> 0 <= n ->
  exists mrs', shr mrs e n = (mrs', e + n) /\
               shr_m mrs' = shr_m mrs / 2 ^ n /\
               (n = 0 -> mrs' = mrs).
Proof.
  intros Hm Hn. unfold shr. destruct n as [|p|p]; [| |lia].
  - exists mrs. rewrite Z.add_0_r, Z.div_1_r. auto.
  - rewrite iter_pos_nat. eexists. split; [reflexivity|]. split; [|discriminate].
    rewrite shr_iter_div by exact Hm. now rewrite positive_nat_Z.
Qed.

Lemma loc_of_shr_record_of_loc (m : Z) (l : location) :
  loc_of_shr_record (shr_record_of_loc m l) = l.
Proof. destruct l as [|[ | | ]]; reflexivity. Qed.

Lemma shr_m_of_loc (m : Z) (l : location) : shr_m (shr_record_of_loc m l) = m.
Proof. destruct l as [|[ | | ]]; reflexivity. Qed.

(** Rounding a significand of at least 53 digits in the normal range: the
    result is a normal float within one unit in the last place, and the
    very number when nothing has to be dropped. *)
Lemma binary_round_aux_value (sign : bool) (m e : Z) (l : location) :
  0 < m ->
  53 <= Zdigits2 m ->
  -1074 <= Zdigits2 m + e - 53 ->
  Zdigits2 m + e <= 1023 ->
  exists (m' : positive) (e' : Z),
    binary_round_aux Float.prec Float.emax sign m e l = S754_finite sign m' e' /\
    e <= e' <= Zdigits2 m + e - 52 /\
    2 ^ 52 <= Zpos m' < 2 ^ 53 /\
    Z.abs (Zpos m' * 2 ^ (e' - e) - m) <= 2 ^ (e' - e) /\
    (Zdigits2 m = 53 -> l = loc_Exact -> Zpos m' = m /\ e' = e).
Proof.
  intros Hm Hd Hlow Hhigh.
  set (d := Zdigits2 m) in *.
  set (n := d - 53).
  assert (Hbounds : 2 ^ (d - 1) <= m < 2 ^ d).
  { destruct m as [|p|p]; try lia. apply Zdigits2_bounds. }
  assert (Hpown : 0 < 2 ^ n) by (apply Z.pow_pos_nonneg; lia).
  assert (Hsplit : 2 ^ (d - 1) = 2 ^ 52 * 2 ^ n /\ 2 ^ d = 2 ^ 53 * 2 ^ n).
  { unfold n. rewrite <- !Z.pow_add_r by lia. split; f_equal; lia. }
  destruct Hsplit as [Hsplit1 Hsplit2].
  unfold binary_round_aux, shr_fexp. rewrite fexp_eq. fold d.
  replace (fexp64 (d + e) - e) with n by (unfold fexp64, n; lia).
  destruct (shr_div (shr_record_of_loc m l) e n) as (mrs1 & Hshr & Hm1 & Hsame);
    [rewrite shr_m_of_loc; lia | unfold n; lia |].
  rewrite Hshr. rewrite shr_m_of_loc in Hm1.
  set (m1 := shr_m mrs1) in *.
  assert (Hm1' : 2 ^ 52 <= m1 < 2 ^ 53 /\ m1 * 2 ^ n <= m < (m1 + 1) * 2 ^ n).
  { rewrite Hm1.
    pose proof (Z.mul_div_le m (2 ^ n) Hpown).
    pose proof (Z.mul_succ_div_gt m (2 ^ n) Hpown).
    assert (2 ^ 52 <= m / 2 ^ n) by (apply Z.div_le_lower_bound; lia).
    assert (m / 2 ^ n < 2 ^ 53) by (apply Z.div_lt_upper_bound; lia).
    lia. }
  destruct Hm1' as [Hrange1 Hvalue1].
  set (m2 := round_nearest_even m1 (loc_of_shr_record mrs1)).
  pose proof (round_nearest_even_bounds m1 (loc_of_shr_record mrs1) ltac:(lia)) as Hm2.
  fold m2 in Hm2.
  assert (Hexact : d = 53 -> l = loc_Exact -> m2 = m /\ n = 0).
  { intros Hd53 Hl. assert (Hn : n = 0) by (unfold n; lia).
    split; [|exact Hn]. unfold m2, m1. rewrite (Hsame Hn), Hl. reflexivity. }
  rewrite fexp_eq.
  destruct (Z.eq_dec m2 (2 ^ 53)) as [Hcarry|Hnocarry].
  - (* the significand was all ones and went up *)
    assert (Hd2 : Zdigits2 m2 = 54) by (apply Zdigits2_unique; [rewrite Hcarry; simpl|]; lia).
    rewrite Hd2.
    replace (fexp64 (54 + (e + n)) - (e + n)) with 1 by (unfold fexp64, n; lia).
    destruct (shr_div (shr_record_of_loc m2 loc_Exact) (e + n) 1) as (mrs3 & Hshr3 & Hm3 & _);
      [simpl; lia | lia |].
    rewrite Hshr3. simpl shr_m in Hm3. rewrite Hm3, Hcarry.
    change (2 ^ 53 / 2 ^ 1) with (Zpos (2 ^ 52)%positive).
    change (Float.emax - Float.prec) with 971.
    destruct (Z.leb_spec (e + n + 1) 971) as [_|?]; [|unfold n in *; lia].
    exists (2 ^ 52)%positive, (e + n + 1).
    split; [reflexivity|]. split; [unfold n; lia|]. split; [simpl; lia|].
    split.
    + replace (e + n + 1 - e) with (n + 1) by lia.
      rewrite Z.pow_add_r, Z.pow_1_r by (unfold n; lia).
      change (Zpos (2 ^ 52)) with (2 ^ 52). rewrite Hcarry in Hm2.
      assert (m1 = 2 ^ 53 - 1) by lia. subst m1. nia.
    + intros Hd53 Hl. destruct (Hexact Hd53 Hl) as [Hm2m _].
      rewrite Hm2m in Hcarry. rewrite Hcarry in Hbounds. rewrite Hd53 in Hbounds. lia.
  - assert (Hd2 : Zdigits2 m2 = 53) by (apply Zdigits2_unique; simpl; lia).
    rewrite Hd2.
    replace (fexp64 (53 + (e + n)) - (e + n)) with 0 by (unfold fexp64, n; lia).
    destruct (shr_div (shr_record_of_loc m2 loc_Exact) (e + n) 0) as (mrs3 & Hshr3 & Hm3 & _);
      [simpl; lia | lia |].
    rewrite Hshr3. simpl shr_m in Hm3. rewrite Hm3, Z.div_1_r, Z.add_0_r.
    destruct m2 as [|p2|p2] eqn:Hp2; try lia.
    change (Float.emax - Float.prec) with 971.
    destruct (Z.leb_spec (e + n) 971) as [_|?]; [|unfold n in *; lia].
    exists p2, (e + n).
    split; [reflexivity|]. split; [unfold n; lia|]. split; [lia|].
    split.
    + replace (e + n - e) with n by lia. nia.
    + intros Hd53 Hl. destruct (Hexact Hd53 Hl) as [Hm2m Hn]. split; lia.
Qed.

Lemma Zpos_iter_xO (p d : positive) : Zpos (Pos.iter xO p d) = Zpos p * 2 ^ Zpos d.
Proof.
  induction d as [|d IH] using Pos.peano_ind.
  - simpl. lia.
  - rewrite Pos.iter_succ, Pos2Z.inj_xO, IH, Pos2Z.inj_succ, Z.pow_succ_r by lia. lia.
Qed.

(** [float(z)] is [z] itself for a positive integer below [2 ^ 53]. *)
Lemma of_int_exact (p : positive) :
  Zpos p < 2 ^ 53 ->
  exists (m : positive) (k : Z),
    Float.of_int (Zpos p) = Ok (S754_finite false m (- k)) /\
    k = 53 - Zdigits2 (Zpos p) /\ 0 <= k <= 52 /\
    Zpos m = Zpos p * 2 ^ k /\ 2 ^ 52 <= Zpos m < 2 ^ 53.
Proof.
  intros Hp. unfold Float.of_int, binary_normalize, binary_round.
  rewrite fexp_eq, Z.add_0_r.
  pose proof (Zdigits2_bounds p) as Hbounds.
  assert (Hd : 1 <= Zdigits2 (Zpos p) <= 53).
  { split; [simpl; lia|]. apply Zdigits2_le_pow; lia. }
  set (d := Zdigits2 (Zpos p)) in *.
  change (Zpos (digits2_pos p)) with d.
  set (k := 53 - d).
  assert (Hk : 2 ^ (d - 1) * 2 ^ k = 2 ^ 52 /\ 2 ^ d * 2 ^ k = 2 ^ 53).
  { unfold k. rewrite <- !Z.pow_add_r by lia. split; f_equal; lia. }
  assert (Hpowk : 0 < 2 ^ k) by (apply Z.pow_pos_nonneg; unfold k; lia).
  assert (Halign : exists m, shl_align p 0 (fexp64 d) = (m, - k) /\ Zpos m = Zpos p * 2 ^ k).
  { unfold shl_align, fexp64.
    replace (Z.max (d - 53) (-1074) - 0) with (- k) by (unfold k; lia).
    destruct k as [|pk|pk] eqn:Hpk; try lia.
    - exists p. simpl. split; [reflexivity | lia].
    - exists (Pos.iter xO p pk). simpl Z.opp. cbv iota beta.
      split; [|apply Zpos_iter_xO].
      f_equal. unfold k in Hpk. lia. }
  destruct Halign as (m & Halign & Hm). rewrite Halign.
  assert (Hrange : 2 ^ 52 <= Zpos m < 2 ^ 53) by nia.
  assert (Hdm : Zdigits2 (Zpos m) = 53) by (apply Zdigits2_unique; simpl; lia).
  destruct (binary_round_aux_value false (Zpos m) (- k) loc_Exact)
    as (m' & e' & Hround & _ & _ & _ & Hexact); try (rewrite Hdm; unfold k; lia); [lia|].
  destruct (Hexact Hdm eq_refl) as [Hm' He']. inversion Hm'; subst m' e'.
  rewrite Hround. exists m, k. unfold k. repeat split; try lia. exact Hm.
Qed.

(** The quotient of two positive integers: a normal float [mx * 2 ^ ex]
    with [mx * 2 ^ ex * b] within two units in the last place of [a]. *)
Lemma div_value (sa sb : bool) (a b : positive) :
  Zdigits2 (Zpos a) <= 1001 -> Zdigits2 (Zpos b) <= 64 ->
  exists (mx : positive) (ex s : Z),
    SFdiv Float.prec Float.emax (S754_finite sa a 0) (S754_finite sb b 0)
    = S754_finite (xorb sa sb) mx ex /\
    0 <= s <= 117 /\
    - s <= ex <= Zdigits2 (Zpos a) - Zdigits2 (Zpos b) - 51 /\
    2 ^ 52 <= Zpos mx < 2 ^ 53 /\
    Z.abs (Zpos mx * 2 ^ (ex + s) * Zpos b - Zpos a * 2 ^ s)
    <= 2 * 2 ^ (ex + s) * Zpos b.
Proof.
  intros Hda Hdb. unfold SFdiv, SFdiv_core_binary.
  pose proof (Zdigits2_bounds a) as Ha. pose proof (Zdigits2_bounds b) as Hb.
  set (d1 := Zdigits2 (Zpos a)) in *. set (d2 := Zdigits2 (Zpos b)) in *.
  assert (Hd1 : 1 <= d1) by (unfold d1; simpl; lia).
  assert (Hd2 : 1 <= d2) by (unfold d2; simpl; lia).
  rewrite fexp_eq.
  set (s := Z.max (53 + d2 - d1) 0).
  replace (Z.min (fexp64 (d1 + 0 - (d2 + 0))) (0 - 0)) with (- s)
    by (unfold fexp64, s; lia).
  replace (0 - 0 - - s) with s by lia.
  set (m' := match s with
             | 0 => Zpos a
             | Zpos _ => Z.shiftl (Zpos a) s
             | Zneg _ => 0
             end).
  assert (Hsdef : s = Z.max (53 + d2 - d1) 0) by reflexivity.
  assert (Hs : 0 <= s) by lia.
  assert (Hm' : m' = Zpos a * 2 ^ s).
  { unfold m'. destruct s as [|ps|ps] eqn:Hps; [simpl; lia| |lia].
    now rewrite Z.shiftl_mul_pow2 by lia. }
  pose proof (Z.div_eucl_eq m' (Zpos b) ltac:(lia)) as Heucl.
  pose proof (Z.mod_pos_bound m' (Zpos b) ltac:(lia)) as Hmod.
  unfold Z.modulo in Hmod.
  destruct (Z.div_eucl m' (Zpos b)) as [q r].
  assert (Hpows : 0 < 2 ^ s) by (apply Z.pow_pos_nonneg; lia).
  (* the quotient has between 53 and [d1 + s - d2 + 1] digits *)
  assert (Hqlow : 2 ^ 52 <= q).
  { assert (Hexp : 2 ^ (d1 - 1) * 2 ^ s = 2 ^ 52 * 2 ^ (d1 - 1 + s - 52)).
    { rewrite <- !Z.pow_add_r by lia. f_equal. lia. }
    assert (Hb' : 2 ^ d2 <= 2 ^ (d1 - 1 + s - 52)) by (apply Z.pow_le_mono_r; lia).
    assert (0 < 2 ^ (d1 - 1 + s - 52)) by (apply Z.pow_pos_nonneg; lia).
    assert (0 < 2 ^ 52) by (apply Z.pow_pos_nonneg; lia).
    nia. }
  assert (Hqhigh : q < 2 ^ (d1 + s - d2 + 1)).
  { assert (Hexp : 2 ^ d1 * 2 ^ s = 2 ^ (d1 + s - d2 + 1) * 2 ^ (d2 - 1)).
    { rewrite <- !Z.pow_add_r by lia. f_equal. lia. }
    assert (0 < 2 ^ (d1 + s - d2 + 1)) by (apply Z.pow_pos_nonneg; lia).
    nia. }
  assert (Hdq : 53 <= Zdigits2 q <= d1 + s - d2 + 1).
  { split.
    - destruct (Z.le_gt_cases 53 (Zdigits2 q)) as [Hle|Hgt]; [exact Hle|].
      destruct q as [|pq|pq]; try lia.
      pose proof (Zdigits2_bounds pq) as [_ Hq].
      pose proof (Zdigits2_nonneg (Zpos pq)).
      assert (2 ^ Zdigits2 (Zpos pq) <= 2 ^ 52) by (apply Z.pow_le_mono_r; lia). lia.
    - apply Zdigits2_le_pow; lia. }
  destruct (binary_round_aux_value (xorb sa sb) q (- s)
              (new_location (Zpos b) r))
    as (mx & ex & Hround & Hex & Hmx & Hvalue & _); try lia.
  rewrite Hround. exists mx, ex, s.
  split; [reflexivity|]. split; [lia|]. split; [lia|].
  split; [exact Hmx|].
  replace (ex - - s) with (ex + s) in Hvalue by lia.
  assert (0 < 2 ^ (ex + s)) by (apply Z.pow_pos_nonneg; lia).
  nia.
Qed.

(** The product of two normal floats: a normal float within one unit in
    the last place of the exact product. *)
Lemma mul_value (sx sy : bool) (mx my : positive) (ex ey : Z) :
  2 ^ 52 <= Zpos mx < 2 ^ 53 -> 2 ^ 52 <= Zpos my < 2 ^ 53 ->
  -1126 <= ex + ey <= 917 ->
  exists (mz : positive) (ez : Z),
    Float.mul (S754_finite sx mx ex) (S754_finite sy my ey)
    = S754_finite (xorb sx sy) mz ez /\
    ex + ey <= ez /\
    2 ^ 52 <= Zpos mz < 2 ^ 53 /\
    Z.abs (Zpos mz * 2 ^ (ez - (ex + ey)) - Zpos mx * Zpos my) <= 2 ^ (ez - (ex + ey)).
Proof.
  intros Hmx Hmy He. unfold Float.mul, SFmul.
  assert (Hprod : 2 ^ 104 <= Zpos (mx * my) < 2 ^ 106).
  { rewrite Pos2Z.inj_mul.
    change (2 ^ 104) with (2 ^ 52 * 2 ^ 52). change (2 ^ 106) with (2 ^ 53 * 2 ^ 53).
    nia. }
  assert (Hd : 105 <= Zdigits2 (Zpos (mx * my)) <= 106).
  { split.
    - destruct (Z.le_gt_cases 105 (Zdigits2 (Zpos (mx * my)))) as [Hle|Hgt]; [exact Hle|].
      pose proof (Zdigits2_bounds (mx * my)) as [_ Hq].
      pose proof (Zdigits2_nonneg (Zpos (mx * my))).
      assert (2 ^ Zdigits2 (Zpos (mx * my)) <= 2 ^ 104) by (apply Z.pow_le_mono_r; lia).
      lia.
    - apply Zdigits2_le_pow; lia. }
  destruct (binary_round_aux_value (xorb sx sy) (Zpos (mx * my)) (ex + ey) loc_Exact)
    as (mz & ez & Hround & Hez & Hmz & Hvalue & _); try lia.
  rewrite Hround. exists mz, ez. rewrite Pos2Z.inj_mul in Hvalue.
  repeat split; lia || exact Hvalue.
Qed.

(** A finite binary64 float as a multiple of [2 ^ -1074], the smallest
    positive one. *)
Definition quanta (x : spec_float) : Z :=
  match x with
  | S754_finite s m e => cond_Zopp s (Z.shiftl (Zpos m) (e + 1074))
  | _ => 0
  end.

(** Two relative errors of [2 ^ -52] and [2 ^ -51] in a row stay below
    [2 ^ -50]. *)
Lemma relative_error_chain (Y P A V W : Z) :
  Z.abs (Y - P) <= V -> 2 ^ 52 * V <= Y ->
  Z.abs (P - A) <= 2 * W -> 2 ^ 52 * W <= P ->
  Z.abs (Y - A) * 2 ^ 50 <= A.
Proof.
  change (2 ^ 52) with 4503599627370496.
  change (2 ^ 50) with 1125899906842624.
  lia.
Qed.

(** Dividing by a length and multiplying by it again gives the number back
    up to a relative error of [2 ^ -50]. *)
Lemma truediv_mul_error (a : Z) (b : positive) :
  Z.abs a < 2 ^ 1001 -> Zpos b < 2 ^ 53 ->
  exists x y,
    Float.int_truediv a (Zpos b) = Ok x /\
    Number.mul (Float x) (Int (Zpos b)) = Ok (Float y) /\
    Z.abs (quanta y - a * 2 ^ 1074) * 2 ^ 50 <= Z.abs a * 2 ^ 1074.
Proof.
  intros Ha Hb.
  destruct (of_int_exact b Hb) as (ml & k & Hfloat & Hkdef & Hk & Hml & Hmlrange).
  assert (Hmulb : forall x : spec_float,
            Number.mul (Float x) (Int (Zpos b))
            = Ok (Float (Float.mul x (S754_finite false ml (- k))))).
  { intros x. unfold Number.mul, Number.arith, Number.to_float. now rewrite Hfloat. }
  unfold Float.int_truediv.
  destruct (decide (Zpos b = 0)) as [?|_]; [lia|].
  assert (Hcase : forall (sa : bool) (pa : positive),
            Zpos pa < 2 ^ 1001 ->
            exists mx ex my ey,
              SFdiv Float.prec Float.emax (S754_finite sa pa 0) (S754_finite false b 0)
              = S754_finite sa mx ex /\
              Float.mul (S754_finite sa mx ex) (S754_finite false ml (- k))
              = S754_finite sa my ey /\
              0 <= ey + 1074 /\
              Z.abs (Zpos my * 2 ^ (ey + 1074) - Zpos pa * 2 ^ 1074) * 2 ^ 50
              <= Zpos pa * 2 ^ 1074).
  { intros sa pa Hpa.
    destruct (div_value sa false pa b) as (mx & ex & s & Hdiv & Hs & Hex & Hmx & Hvalue).
    { apply Zdigits2_le_pow; lia. }
    { assert (Zdigits2 (Zpos b) <= 53) by (apply Zdigits2_le_pow; lia). lia. }
    rewrite xorb_false_r in Hdiv.
    assert (Hda : Zdigits2 (Zpos pa) <= 1001) by (apply Zdigits2_le_pow; lia).
    destruct (mul_value sa false mx ml ex (- k) Hmx Hmlrange) as (my & ey & Hmul & Hey & Hmy & Hprod);
      [lia|].
    rewrite xorb_false_r in Hmul.
    exists mx, ex, my, ey. split; [exact Hdiv|]. split; [exact Hmul|].
    split; [lia|].
    (* everything on the scale [2 ^ -(s + k)] *)
    set (t := ey - (ex + - k)) in *.
    set (U := 2 ^ (ex + s)) in *.
    assert (HU : 0 < U) by (apply Z.pow_pos_nonneg; lia).
    assert (Ht : 0 < 2 ^ t) by (apply Z.pow_pos_nonneg; unfold t; lia).
    assert (Hscale : 2 ^ (ey + 1074) = 2 ^ t * U * 2 ^ (1074 - s - k) /\
                     2 ^ 1074 = 2 ^ s * 2 ^ k * 2 ^ (1074 - s - k)).
    { unfold U, t. rewrite <- !Z.pow_add_r by lia. split; f_equal; lia. }
    destruct Hscale as [Hscale1 Hscale2]. rewrite Hscale1, Hscale2.
    set (G := 2 ^ (1074 - s - k)).
    assert (HG : 0 < G) by (apply Z.pow_pos_nonneg; lia).
    set (Y := Zpos my * (2 ^ t * U)).
    set (P := Zpos mx * U * Zpos ml).
    set (A := Zpos pa * (2 ^ s * 2 ^ k)).
    assert (HYP : Z.abs (Y - P) <= 2 ^ t * U /\ 2 ^ 52 * (2 ^ t * U) <= Y).
    { unfold Y, P. split.
      - replace (Zpos my * (2 ^ t * U) - Zpos mx * U * Zpos ml)
          with ((Zpos my * 2 ^ t - Zpos mx * Zpos ml) * U) by ring.
        rewrite Z.abs_mul, (Z.abs_eq U) by lia.
        apply Z.mul_le_mono_nonneg_r; [lia | exact Hprod].
      - apply Z.mul_le_mono_nonneg_r; [|lia].
        apply Z.mul_nonneg_nonneg; lia. }
    assert (HPA : Z.abs (P - A) <= 2 * (U * Zpos ml) /\ 2 ^ 52 * (U * Zpos ml) <= P).
    { unfold P, A. split.
      - rewrite Hml.
        replace (Zpos mx * U * (Zpos b * 2 ^ k) - Zpos pa * (2 ^ s * 2 ^ k))
          with ((Zpos mx * U * Zpos b - Zpos pa * 2 ^ s) * 2 ^ k) by ring.
        assert (0 < 2 ^ k) by (apply Z.pow_pos_nonneg; lia).
        rewrite Z.abs_mul, (Z.abs_eq (2 ^ k)) by lia.
        replace (2 * (U * (Zpos b * 2 ^ k))) with (2 * U * Zpos b * 2 ^ k) by ring.
        apply Z.mul_le_mono_nonneg_r; [lia | exact Hvalue].
      - replace (Zpos mx * U * Zpos ml) with (Zpos mx * (U * Zpos ml)) by ring.
        apply Z.mul_le_mono_nonneg_r; [|lia].
        apply Z.mul_nonneg_nonneg; lia. }
    assert (HYA : Z.abs (Y - A) * 2 ^ 50 <= A).
    { destruct HYP as [HYP1 HYP2], HPA as [HPA1 HPA2].
      exact (relative_error_chain Y P A _ _ HYP1 HYP2 HPA1 HPA2). }
    replace (Zpos my * (2 ^ t * U * G) - Zpos pa * (2 ^ s * 2 ^ k * G))
      with ((Y - A) * G) by (unfold Y, A; ring).
    rewrite Z.abs_mul, (Z.abs_eq G) by lia.
    replace (Zpos pa * (2 ^ s * 2 ^ k * G)) with (A * G) by (unfold A; ring).
    replace (Z.abs (Y - A) * G * 2 ^ 50) with (Z.abs (Y - A) * 2 ^ 50 * G) by ring.
    apply Z.mul_le_mono_nonneg_r; lia. }
  destruct a as [|pa|pa].
  - exists (S754_zero false), (S754_zero false).
    split; [reflexivity|]. split; [now rewrite Hmulb|]. simpl. lia.
  - destruct (Hcase false pa ltac:(lia)) as (mx & ex & my & ey & Hdiv & Hmul & Hey & Hbound).
    exists (S754_finite false mx ex), (S754_finite false my ey).
    simpl Float.exact. rewrite Hdiv, Hmulb, Hmul.
    split; [reflexivity|]. split; [reflexivity|].
    unfold quanta, cond_Zopp. rewrite Z.shiftl_mul_pow2 by lia. exact Hbound.
  - destruct (Hcase true pa ltac:(lia)) as (mx & ex & my & ey & Hdiv & Hmul & Hey & Hbound).
    exists (S754_finite true mx ex), (S754_finite true my ey).
    simpl Float.exact. rewrite Hdiv, Hmulb, Hmul.
    split; [reflexivity|]. split; [reflexivity|].
    unfold quanta, cond_Zopp. rewrite Z.shiftl_mul_pow2 by lia.
    replace (- (Zpos my * 2 ^ (ey + 1074)) - Zneg pa * 2 ^ 1074)
      with (- (Zpos my * 2 ^ (ey + 1074) - Zpos pa * 2 ^ 1074)) by lia.
    rewrite Z.abs_opp. exact Hbound.
Qed.

(** ** The scale factor *)

Lemma max_from_spec {A} (key : A -> Z) (l : list A) :
  forall best,
    (max_from key best l = best \/ max_from key best l ∈ l) /\
    key best <= key (max_from key best l) /\
    (forall x, x ∈ l -> key x <= key (max_from key best l)).
Proof.
  induction l as [|y l IH]; intros best; simpl.
  - split; [now left|split]; [lia|]. intros x Hx. inversion Hx.
  - destruct (IH (if key best <? key y then y else best)) as (Hin & Hbest & Hall).
    destruct (Z.ltb_spec (key best) (key y)) as [Hlt|Hge].
    + split; [right|split]; [|lia|].
      * destruct Hin as [->|Hin]; [left | now right].
      * intros x Hx. apply elem_of_cons in Hx as [->|Hx]; [exact Hbest | now apply Hall].
    + split; [|split]; [|lia|].
      * destruct Hin as [Hin|Hin]; [now left | right; now right].
      * intros x Hx. apply elem_of_cons in Hx as [->|Hx]; [lia | now apply Hall].
Qed.

(** [max] on a list that is not empty returns an element of the largest
    key. *)
Lemma py_max_spec {A} (key : A -> Z) (l : list A) :
  l <> [] ->
  exists largest,
    py_max key l = Ok largest /\ largest ∈ l /\
    (forall x, x ∈ l -> key x <= key largest).
Proof.
  destruct l as [|x l]; [contradiction|]. intros _.
  destruct (max_from_spec key l x) as (Hin & Hbest & Hall).
  exists (max_from key x l). split; [reflexivity|split].
  - destruct Hin as [->|Hin]; [left | now right].
  - intros y Hy. apply elem_of_cons in Hy as [->|Hy]; [exact Hbest | now apply Hall].
Qed.

Lemma sequence_length_pos (s : Synthase.t) :
  Synthase.sequence s <> "" -> 0 < Synthase.sequence_length s.
Proof.
  unfold Synthase.sequence_length, len.
  destruct (Synthase.sequence s); [contradiction | simpl; lia].
Qed.

(** C3, as the code has it. For a positive width and a figure that is not
    empty and whose entities all have sequences, [calculate_scale_factor]
    is the binary64 quotient of [width - 2] by the largest sequence length.
    For a width up to [2 ^ 1000] and lengths below [2 ^ 53] it returns, and
    its product with the largest length differs from [width - 2] by at most
    the [2 ^ 50]-th part of [width - 2]. *)
Theorem scale_factor_is_quotient (f : Figure) (width : Z) :
  0 < width ->
  synthases f <> [] ->
  Forall (fun s => Synthase.sequence s <> "") (synthases f) ->
  exists largest,
    largest ∈ synthases f /\
    (forall s, s ∈ synthases f ->
       Synthase.sequence_length s <= Synthase.sequence_length largest) /\
    0 < Synthase.sequence_length largest /\
    calculate_scale_factor f width
    = Float.int_truediv (width - 2) (Synthase.sequence_length largest) /\
    (width <= 2 ^ 1000 -> Synthase.sequence_length largest < 2 ^ 53 ->
     exists x y,
       calculate_scale_factor f width = Ok x /\
       Number.mul (Float x) (Int (Synthase.sequence_length largest)) = Ok (Float y) /\
       Z.abs (quanta y - (width - 2) * 2 ^ 1074) * 2 ^ 50
       <= Z.abs (width - 2) * 2 ^ 1074).
Proof.
  intros Hwidth Hnonempty Hall.
  destruct (py_max_spec Synthase.sequence_length (synthases f) Hnonempty)
    as (largest & Hmax & Hin & Hlargest).
  assert (Hpos : 0 < Synthase.sequence_length largest).
  { apply sequence_length_pos. rewrite Forall_forall in Hall. now apply Hall. }
  assert (Hscale : calculate_scale_factor f width
                   = Float.int_truediv (width - 2) (Synthase.sequence_length largest)).
  { unfold calculate_scale_factor.
    apply existsb_no_sequence_false in Hall. rewrite Hall.
    destruct (Z.ltb_spec width 0) as [?|_]; [lia|].
    now rewrite Hmax. }
  exists largest. repeat split; try assumption.
  intros Hbound Hlength. rewrite Hscale.
  destruct (Synthase.sequence_length largest) as [|b|b] eqn:Hb; try lia.
  apply truediv_mul_error; [|exact Hlength].
  assert (2 ^ 1000 < 2 ^ 1001) by (apply Z.pow_lt_mono_r; lia). lia.
Qed.

(** Width 102 and a hundred residues: the scale factor is 1.0, and its
    product with the length is 100.0. *)
Lemma scale_factor_is_quotient_witness :
  (exists largest,
     largest ∈ synthases (figure_of [synthase_A]) /\
     calculate_scale_factor (figure_of [synthase_A]) 102
     = Float.int_truediv 100 (Synthase.sequence_length largest)) /\
  calculate_scale_factor (figure_of [synthase_A]) 102 = Ok one /\
  Number.mul (Float one) (Int 100) = Ok (Float hundred) /\
  quanta hundred = 100 * 2 ^ 1074.
Proof.
  split; [|repeat split; reflexivity].
  destruct (scale_factor_is_quotient (figure_of [synthase_A]) 102)
    as (largest & Hin & _ & _ & Hscale & _).
  - lia.
  - discriminate.
  - repeat constructor. discriminate.
  - exists largest. split; assumption.
Defined.

(** C3 as stated fails: width 3 and 49 residues give the scale factor
    [1 / 49], and [1 / 49 * 49] is 0.9999999999999999, not 1. *)
Lemma scale_factor_product_not_exact :
  let f := figure_of [Synthase.mk "C" (repeat_char "M" 49) []] in
  0 < 3 /\
  calculate_scale_factor f 3 = Ok (S754_finite false 5882252574524729 (-58)) /\
  Number.mul (Float (S754_finite false 5882252574524729 (-58))) (Int 49)
  = Ok (Float (S754_finite false 9007199254740991 (-53))) /\
  Float.of_int (3 - 2) = Ok one /\
  SFeqb (S754_finite false 9007199254740991 (-53)) one = false /\
  quanta (S754_finite false 9007199254740991 (-53)) <> (3 - 2) * 2 ^ 1074.
Proof. vm_compute. repeat split; reflexivity || discriminate. Qed.

(** ** Sorting *)

Section list_sort_properties.
Context {A K : Type} (le : K -> K -> bool) (key : A -> K).

(** The order of the keys, on the elements. *)
Definition key_le (a b : A) : Prop := le (key a) (key b) = true.

Lemma sort_insert_perm (x : A) (l : list A) : sort_insert le key x l ≡ₚ x :: l.
Proof.
  induction l as [|y l IH]; simpl; [reflexivity|].
  destruct (le (key x) (key y)); [reflexivity|].
  rewrite IH. apply Permutation_swap.
Qed.

Lemma list_sort_perm (l : list A) : list_sort le key l ≡ₚ l.
Proof.
  induction l as [|x l IH]; simpl; [reflexivity|].
  now rewrite sort_insert_perm, IH.
Qed.

Lemma list_sort_elem_of (l : list A) (x : A) : x ∈ list_sort le key l <-> x ∈ l.
Proof. now rewrite list_sort_perm. Qed.

Section sorted.
Hypothesis le_total : forall a b, le a b = true \/ le b a = true.
Hypothesis le_trans : forall a b c, le a b = true -> le b c = true -> le a c = true.

Lemma sort_insert_sorted (x : A) (l : list A) :
  StronglySorted key_le l -> StronglySorted key_le (sort_insert le key x l).
Proof.
  induction 1 as [|y l Hsorted IH Hy]; simpl; [repeat constructor|].
  destruct (le (key x) (key y)) eqn:Hxy.
  - constructor; [now constructor|]. constructor; [exact Hxy|].
    eapply Forall_impl; [exact Hy|]. intros z Hyz. unfold key_le in *. eauto.
  - constructor; [exact IH|].
    rewrite sort_insert_perm. constructor; [|exact Hy].
    unfold key_le. destruct (le_total (key x) (key y)); congruence.
Qed.

Lemma list_sort_sorted (l : list A) : StronglySorted key_le (list_sort le key l).
Proof.
  induction l as [|x l IH]; simpl; [constructor | now apply sort_insert_sorted].
Qed.
End sorted.

Section stable.
Context (P : A -> Prop) `{!forall a, Decision (P a)}.

(** Insertion does not move an element past another one unless the key of
    the latter is strictly smaller. *)
Lemma sort_insert_filter (x : A) (l : list A) :
  (forall y, y ∈ l -> P x -> P y -> le (key x) (key y) = true) ->
  filter P (sort_insert le key x l) = filter P (x :: l).
Proof.
  induction l as [|y l IH]; intros Hle; simpl; [reflexivity|].
  destruct (le (key x) (key y)) eqn:Hxy; [reflexivity|].
  rewrite (filter_cons P y), IH by (intros z Hz; apply Hle; now right).
  rewrite !filter_cons.
  destruct (decide (P x)) as [Hx|Hx], (decide (P y)) as [Hy|Hy]; try reflexivity.
  rewrite Hle in Hxy by (trivial; now left). discriminate.
Qed.

(** The elements that satisfy [P] keep their order when, among them, an
    earlier one is never strictly above a later one. *)
Lemma list_sort_filter (l : list A) :
  (forall x y, x ∈ l -> y ∈ l -> P x -> P y -> le (key x) (key y) = true) ->
  filter P (list_sort le key l) = filter P l.
Proof.
  induction l as [|x l IH]; intros Hle; simpl; [reflexivity|].
  rewrite sort_insert_filter.
  - rewrite !filter_cons, IH; [reflexivity|].
    intros y z Hy Hz. apply Hle; now right.
  - intros y Hy. apply Hle; [now left|]. right. now apply list_sort_elem_of.
Qed.
End stable.

(** The sort is stable: the elements of one key keep their order. *)
Lemma list_sort_stable `{!EqDecision K} (l : list A) (k : K) :
  (forall k', le k' k' = true) ->
  filter (fun a => key a = k) (list_sort le key l) = filter (fun a => key a = k) l.
Proof.
  intros Hrefl. apply list_sort_filter.
  intros x y _ _ Hx Hy. rewrite Hx, Hy. apply Hrefl.
Qed.
End list_sort_properties.

Lemma StronglySorted_filter {A} (R : relation A) (P : A -> Prop)
    `{!forall a, Decision (P a)} (l : list A) :
  StronglySorted R l -> StronglySorted R (filter P l).
Proof.
  induction 1 as [|x l Hsorted IH Hx]; [constructor|].
  rewrite filter_cons. destruct (decide (P x)); [|exact IH].
  constructor; [exact IH|].
  apply Forall_forall. intros y Hy. apply list_elem_of_filter in Hy as [_ Hy].
  rewrite Forall_forall in Hx. now apply Hx.
Qed.

(** ** The order on pairs of strings *)

Lemma string_leb_refl (s : string) : String.leb s s = true.
Proof.
  destruct (String.leb_total s s); assumption.
Qed.

Lemma string_leb_trans (a b c : string) :
  String.leb a b = true -> String.leb b c = true -> String.leb a c = true.
Proof.
  intros Hab Hbc. apply Is_true_true.
  change (String.le a c). transitivity b; apply Is_true_true; assumption.
Qed.

Lemma tuple_leb_refl (a : string * string) : tuple_leb a a = true.
Proof.
  unfold tuple_leb. destruct (decide (a.1 = a.1)); [|congruence].
  apply string_leb_refl.
Qed.

Lemma tuple_leb_total (a b : string * string) :
  tuple_leb a b = true \/ tuple_leb b a = true.
Proof.
  unfold tuple_leb.
  destruct (decide (a.1 = b.1)), (decide (b.1 = a.1)); try congruence;
    apply String.leb_total.
Qed.

Lemma tuple_leb_antisym (a b : string * string) :
  tuple_leb a b = true -> tuple_leb b a = true -> a = b.
Proof.
  unfold tuple_leb. destruct a as [a1 a2], b as [b1 b2]. simpl.
  destruct (decide (a1 = b1)) as [Heq|Hne], (decide (b1 = a1)) as [Heq'|Hne'];
    try congruence; intros Hab Hba.
  - f_equal; [exact Heq | now apply String.leb_antisym].
  - exfalso. apply Hne. now apply String.leb_antisym.
Qed.

Lemma tuple_leb_trans (a b c : string * string) :
  tuple_leb a b = true -> tuple_leb b c = true -> tuple_leb a c = true.
Proof.
  unfold tuple_leb. destruct a as [a1 a2], b as [b1 b2], c as [c1 c2]. simpl.
  destruct (decide (a1 = b1)) as [Hab|Hab], (decide (b1 = c1)) as [Hbc|Hbc],
    (decide (a1 = c1)) as [Hac|Hac]; try congruence; intros H1 H2.
  - eapply string_leb_trans; eauto.
  - subst. exfalso. apply Hab. now apply String.leb_antisym.
  - eapply string_leb_trans; eauto.
Qed.

(** ** Grouping *)

Section groupby_properties.
Context {A : Type} (key : A -> string).

Lemma groupby_concat (l : list A) : concat (map snd (groupby key l)) = l.
Proof.
  induction l as [|x l IH]; simpl; [reflexivity|].
  destruct (groupby key l) as [|[k g] rest]; simpl in *.
  - now subst l.
  - destruct (decide (key x = k)); simpl; now rewrite IH.
Qed.

(** Every group has members, and they all have the key of the group. *)
Lemma groupby_members (l : list A) :
  Forall (fun group => group.2 <> [] /\ Forall (fun a => key a = group.1) group.2)
    (groupby key l).
Proof.
  induction l as [|x l IH]; simpl; [constructor|].
  destruct (groupby key l) as [|[k g] rest].
  - repeat constructor. discriminate.
  - inversion IH as [|? ? [Hne Hall] Hrest]; subst.
    destruct (decide (key x = k)) as [Hk|Hk].
    + constructor; [|exact Hrest]. split; [discriminate|]. now constructor.
    + constructor; [|exact IH]. split; [discriminate|]. now repeat constructor.
Qed.

(** The first group starts with the first element. *)
Lemma groupby_head (l : list A) (k : string) (g : list A)
    (rest : list (string * list A)) :
  groupby key l = (k, g) :: rest -> exists x l', l = x :: l' /\ key x = k.
Proof.
  destruct l as [|x l]; simpl; [discriminate|].
  destruct (groupby key l) as [|[k' g'] rest'].
  - intros Heq. inversion Heq. eauto.
  - destruct (decide (key x = k')); intros Heq; inversion Heq; subst; eauto.
Qed.

Lemma groupby_keys (l : list A) (k : string) :
  k ∈ map fst (groupby key l) -> exists a, a ∈ l /\ key a = k.
Proof.
  intros Hk. apply list_elem_of_fmap in Hk as ([k' g] & -> & Hin).
  pose proof (groupby_members l) as Hall. rewrite Forall_forall in Hall.
  destruct (Hall _ Hin) as [Hne Hg]. simpl in *.
  destruct g as [|a g]; [contradiction|].
  exists a. split; [|now inversion Hg].
  rewrite <- (groupby_concat l). apply list_elem_of_In, in_concat.
  exists (a :: g). split; [|now left].
  apply in_map_iff. exists (k', a :: g). split; [reflexivity|].
  now apply list_elem_of_In.
Qed.

(** Two groups in a row have different keys. *)
Lemma groupby_adjacent (l : list A) (i : nat) (k1 k2 : string) :
  map fst (groupby key l) !! i = Some k1 ->
  map fst (groupby key l) !! S i = Some k2 ->
  k1 <> k2.
Proof.
  revert i. induction l as [|x l IH]; intros i; simpl; [discriminate|].
  destruct (groupby key l) as [|[k g] rest] eqn:Hgroups.
  - destruct i; discriminate.
  - destruct (decide (key x = k)) as [Hk|Hk].
    + apply IH.
    + destruct i as [|i]; simpl.
      * intros H1 H2. inversion H1; inversion H2; subst. exact Hk.
      * apply (IH i).
Qed.

(** A list in which the elements of equal key lie together. *)
Definition contiguous (l : list A) : Prop :=
  forall l1 x y l2,
    l = l1 ++ x :: y :: l2 -> key x <> key y ->
    forall z, z ∈ y :: l2 -> key z <> key x.

Lemma contiguous_tail (x : A) (l : list A) : contiguous (x :: l) -> contiguous l.
Proof.
  intros Hc l1 a b l2 Hl. apply (Hc (x :: l1)). now rewrite Hl.
Qed.

Lemma groupby_NoDup (l : list A) :
  contiguous l -> NoDup (map fst (groupby key l)).
Proof.
  induction l as [|x l IH]; intros Hc; simpl; [constructor|].
  specialize (IH (contiguous_tail _ _ Hc)).
  destruct (groupby key l) as [|[k g] rest] eqn:Hgroups.
  - simpl. repeat constructor. intros Hin. inversion Hin.
  - destruct (decide (key x = k)) as [Hk|Hk]; [exact IH|].
    simpl. apply NoDup_cons. split; [|exact IH].
    intros Hin.
    destruct (groupby_head _ _ _ _ Hgroups) as (y & l2 & -> & Hy).
    assert (Hin' : key x ∈ map fst (groupby key (y :: l2))) by now rewrite Hgroups.
    apply groupby_keys in Hin' as (z & Hz & Hkey).
    apply (Hc [] x y l2 eq_refl ltac:(congruence) z Hz Hkey).
Qed.

Lemma filter_key_all (k : string) (g : list A) :
  Forall (fun a => key a = k) g -> filter (fun a => key a = k) g = g.
Proof.
  induction 1 as [|a g Ha _ IH]; [reflexivity|].
  rewrite filter_cons_True by exact Ha. now rewrite IH.
Qed.

Lemma filter_key_none (k k' : string) (g : list A) :
  Forall (fun a => key a = k) g -> k' <> k -> filter (fun a => key a = k') g = [].
Proof.
  intros Hg Hk. induction Hg as [|a g Ha _ IH]; [reflexivity|].
  rewrite filter_cons_False by congruence. exact IH.
Qed.

Lemma filter_key_fresh (k : string) (groups : list (string * list A)) :
  Forall (fun group => Forall (fun a => key a = group.1) group.2) groups ->
  k ∉ map fst groups ->
  filter (fun a => key a = k) (concat (map snd groups)) = [].
Proof.
  induction 1 as [|[k' g'] groups Hg' _ IH]; intros Hfresh; [reflexivity|].
  simpl in *. apply not_elem_of_cons in Hfresh as [Hne Hfresh].
  now rewrite filter_app, IH, (filter_key_none k' k g').
Qed.

(** With distinct keys, a group is the sublist of the elements of its key. *)
Lemma groups_filter (groups : list (string * list A)) :
  Forall (fun group => Forall (fun a => key a = group.1) group.2) groups ->
  NoDup (map fst groups) ->
  Forall (fun group =>
            group.2 = filter (fun a => key a = group.1) (concat (map snd groups)))
    groups.
Proof.
  induction 1 as [|[k g] groups Hg Hrest IH]; intros Hnodup; [constructor|].
  simpl in Hg, Hnodup. apply NoDup_cons in Hnodup as [Hfresh Hnodup].
  specialize (IH Hnodup). constructor; simpl.
  - now rewrite filter_app, filter_key_all, filter_key_fresh, app_nil_r.
  - rewrite Forall_forall in IH |- *. intros [k' g'] Hin. simpl.
    pose proof (IH _ Hin) as Hg'. simpl in Hg'.
    rewrite filter_app, (filter_key_none k k' g), <- Hg'; [reflexivity|exact Hg|].
    intros ->. apply Hfresh. apply list_elem_of_fmap. now exists (k, g').
Qed.
End groupby_properties.

(** ** The groups of [iterate_synthase_types] *)

Lemma StronglySorted_impl {A} (R1 R2 : relation A) (l : list A) :
  (forall a b, R1 a b -> R2 a b) -> StronglySorted R1 l -> StronglySorted R2 l.
Proof.
  intros Himpl. induction 1 as [|x l Hsorted IH Hx]; constructor; [exact IH|].
  eapply Forall_impl; [exact Hx | auto].
Qed.

(** The length sort leaves the synthases in descending order of the key. *)
Lemma sort_synthases_by_length_sorted (f : Figure) :
  synthases (sort_synthases_by_length f) ≡ₚ synthases f /\
  StronglySorted (fun a b => length_key f b <= length_key f a)
    (synthases (sort_synthases_by_length f)).
Proof.
  simpl. split; [apply list_sort_perm|].
  eapply StronglySorted_impl; [|apply list_sort_sorted].
  - intros a b Hab. unfold key_le in Hab. now apply Z.leb_le.
  - intros a b. destruct (Z.leb_spec b a), (Z.leb_spec a b); auto; lia.
  - intros a b c Hab Hbc. apply Z.leb_le in Hab, Hbc. apply Z.leb_le. lia.
Qed.

Section groups.
Context `{Classification}.

(** The key of the second sort. *)
Definition tuple_key (s : Synthase.t) : string * string := (type s, subtype s).

(** Entities of one subtype are of one type. *)
Definition subtype_determines_type (l : list Synthase.t) : Prop :=
  forall a b, a ∈ l -> b ∈ l -> subtype a = subtype b -> type a = type b.

Lemma sorted_contiguous (l : list Synthase.t) :
  subtype_determines_type l ->
  StronglySorted (key_le tuple_leb tuple_key) l ->
  contiguous subtype l.
Proof.
  intros Hdet Hsorted l1 x y l2 -> Hxy z Hz Hzx.
  apply StronglySorted_app_1_r in Hsorted.
  inversion Hsorted as [|? ? Htail Hx]; subst.
  inversion Htail as [|? ? _ Hy]; subst.
  assert (Hxz : tuple_key z = tuple_key x).
  { unfold tuple_key. f_equal; [|exact Hzx].
    apply Hdet; [| |exact Hzx]; rewrite elem_of_app; right.
    - right. exact Hz.
    - now left. }
  assert (Hxy' : key_le tuple_leb tuple_key x y) by now inversion Hx.
  assert (Hyx : key_le tuple_leb tuple_key y x).
  { unfold key_le. rewrite <- Hxz.
    apply elem_of_cons in Hz as [->|Hz]; [apply tuple_leb_refl|].
    rewrite Forall_forall in Hy. now apply Hy. }
  apply Hxy. symmetry.
  pose proof (tuple_leb_antisym _ _ Hxy' Hyx) as Heq.
  unfold tuple_key in Heq. now inversion Heq.
Qed.

(** C1, as the code has it. The groups put end to end are the synthases of
    the figure after the call, a permutation of the synthases before it,
    sorted by type and subtype; every group has members, all of the subtype
    that keys it; two groups in a row have different subtypes; and the
    length sort that comes first leaves the synthases in descending order of
    length. When entities of one subtype are of one type, no two groups
    have the same subtype, and every group holds the entities of its
    subtype in the order of the length sort, longest first. *)
Theorem iterate_synthase_types_groups (f : Figure) :
  let groups := (iterate_synthase_types f).2 in
  let by_length := synthases (sort_synthases_by_length f) in
  let longer_first := fun a b => length_key f b <= length_key f a in
  concat (map snd groups) ≡ₚ synthases f /\
  concat (map snd groups) = synthases (iterate_synthase_types f).1 /\
  Forall (fun group =>
            group.2 <> [] /\ Forall (fun s => subtype s = group.1) group.2) groups /\
  (forall i k1 k2,
     map fst groups !! i = Some k1 -> map fst groups !! S i = Some k2 -> k1 <> k2) /\
  StronglySorted (key_le tuple_leb tuple_key) (concat (map snd groups)) /\
  by_length ≡ₚ synthases f /\
  StronglySorted longer_first by_length /\
  (subtype_determines_type (synthases f) ->
   NoDup (map fst groups) /\
   Forall (fun group =>
             group.2 = filter (fun s => subtype s = group.1) by_length /\
             StronglySorted longer_first group.2) groups).
Proof.
  intros groups by_length longer_first.
  destruct (sort_synthases_by_length_sorted f) as [Hperm Hlength].
  fold by_length in Hperm, Hlength. fold longer_first in Hlength.
  set (sorted := list_sort tuple_leb tuple_key by_length).
  assert (Hgroups : groups = groupby subtype sorted) by reflexivity.
  assert (Hconcat : concat (map snd groups) = sorted).
  { rewrite Hgroups. apply groupby_concat. }
  assert (Hsorted : StronglySorted (key_le tuple_leb tuple_key) sorted).
  { apply list_sort_sorted; [apply tuple_leb_total | apply tuple_leb_trans]. }
  assert (Hperm' : sorted ≡ₚ synthases f).
  { unfold sorted. now rewrite list_sort_perm. }
  rewrite Hconcat.
  split; [exact Hperm'|]. split; [reflexivity|].
  split; [rewrite Hgroups; apply groupby_members|].
  split; [rewrite Hgroups; apply groupby_adjacent|].
  split; [exact Hsorted|]. split; [exact Hperm|]. split; [exact Hlength|].
  intros Hdet.
  assert (Hdet' : subtype_determines_type sorted).
  { intros a b Ha Hb. apply Hdet; now rewrite <- Hperm'. }
  assert (Hnodup : NoDup (map fst groups)).
  { rewrite Hgroups. apply groupby_NoDup. now apply sorted_contiguous. }
  split; [exact Hnodup|].
  pose proof (groups_filter subtype groups) as Hfilter.
  rewrite Hconcat in Hfilter.
  assert (Hmembers : Forall (fun group => Forall (fun a => subtype a = group.1) group.2)
                       groups).
  { rewrite Hgroups. eapply Forall_impl; [apply groupby_members|].
    intros group [_ Hall]. exact Hall. }
  specialize (Hfilter Hmembers Hnodup).
  eapply Forall_impl; [exact Hfilter|].
  intros [k g] Hg. simpl in *.
  assert (Hstable : filter (fun s => subtype s = k) sorted
                    = filter (fun s => subtype s = k) by_length).
  { apply list_sort_filter. intros x y Hx Hy Hkx Hky.
    assert (Heq : tuple_key x = tuple_key y).
    { unfold tuple_key. f_equal; [|congruence].
      apply Hdet; [now rewrite <- Hperm | now rewrite <- Hperm | congruence]. }
    rewrite Heq. apply tuple_leb_refl. }
  rewrite Hg, Hstable. split; [reflexivity|].
  now apply StronglySorted_filter.
Qed.
End groups.

(** Four entities: two of subtype [TE] and of types [A] and [C], one of
    subtype [R], and one more of subtype [TE] and of type [SAT]. *)
Definition synthase_a : Synthase.t :=
  Synthase.mk "a" (repeat_char "M" 1) [Domain.mk "A" 0 1; Domain.mk "TE" 0 1].
Definition synthase_b : Synthase.t :=
  Synthase.mk "b" (repeat_char "M" 3) [Domain.mk "C" 0 1; Domain.mk "TE" 0 1].
Definition synthase_c : Synthase.t :=
  Synthase.mk "c" (repeat_char "M" 2) [Domain.mk "KS" 0 1; Domain.mk "R" 0 1].
Definition synthase_d : Synthase.t :=
  Synthase.mk "d" (repeat_char "M" 2) [Domain.mk "SAT" 0 1; Domain.mk "TE" 0 1].

(** C1 as stated fails when a subtype occurs under two types: the subtype
    [TE] keys two groups, and its first group holds the entity of length 1
    before the entity of length 3. *)
Lemma groups_by_subtype_repeat :
  let groups := (@iterate_synthase_types terminal_classification
                   (figure_of [synthase_a; synthase_b; synthase_c; synthase_d])).2 in
  groups = [ ("TE", [synthase_a; synthase_b]); ("R", [synthase_c]);
             ("TE", [synthase_d]) ] /\
  ~ NoDup (map fst groups) /\
  Synthase.sequence_length synthase_a < Synthase.sequence_length synthase_b.
Proof.
  split; [reflexivity|split]; [|reflexivity].
  intros Hnodup. apply NoDup_cons in Hnodup as [Hfresh _].
  apply Hfresh. right. left.
Qed.

(** Entities of one subtype and one type each. *)
Lemma iterate_synthase_types_groups_witness :
  let f := figure_of [synthase_A; synthase_c; synthase_B] in
  let groups := (@iterate_synthase_types terminal_classification f).2 in
  groups = [ ("AT", [synthase_B]); ("KS", [synthase_A]); ("R", [synthase_c]) ] /\
  NoDup (map fst groups).
Proof.
  intros f groups. split; [reflexivity|].
  destruct (@iterate_synthase_types_groups terminal_classification f)
    as (_ & _ & _ & _ & _ & _ & _ & Hdistinct).
  apply Hdistinct.
  intros a b Ha Hb.
  repeat (apply elem_of_cons in Ha as [->|Ha]);
    repeat (apply elem_of_cons in Hb as [->|Hb]);
    try (inversion Ha); try (inversion Hb); try reflexivity; discriminate.
Defined.

(** * The rest of the figure: lookup, sequences, layout and failures *)

(** ** Lookup by header and query sequences *)

(** The headers of the synthases of a figure. *)
Definition headers (l : list Synthase.t) : list string := map Synthase.header l.

Lemma getitem_loop_spec (l : list Synthase.t) (key : string) :
  (exists before synthase after,
     l = before ++ synthase :: after /\
     Forall (fun s => Synthase.header s <> key) before /\
     Synthase.header synthase = key /\
     getitem_loop l key = Ok synthase) \/
  (Forall (fun s => Synthase.header s <> key) l /\
   getitem_loop l key = Raise (KeyError ("No synthase with header '" +:+ key +:+ "'"))).
Proof.
  induction l as [|s l IH]; simpl.
  - right. split; [constructor | reflexivity].
  - destruct (decide (Synthase.header s = key)) as [Hs|Hs].
    + left. exists [], s, l. repeat split; [constructor | exact Hs].
    + destruct IH as [(before & synthase & after & -> & Hbefore & Hkey & Hget)|[Hall Hget]].
      * left. exists (s :: before), synthase, after.
        repeat split; [now constructor | exact Hkey | exact Hget].
      * right. split; [now constructor | exact Hget].
Qed.

(** X1. [figure[key]] returns the first synthase whose header is [key]: the
    synthases before it have other headers, and a later synthase with the
    same header is never returned. When no synthase has that header it
    raises [KeyError] with the message [No synthase with header 'key']. *)
Theorem getitem_first_match (f : Figure) (key : string) :
  (exists before synthase after,
     synthases f = before ++ synthase :: after /\
     Forall (fun s => Synthase.header s <> key) before /\
     Synthase.header synthase = key /\
     Figure_getitem f key = Ok synthase) \/
  ((key ∉ headers (synthases f)) /\
   Figure_getitem f key
   = Raise (KeyError ("No synthase with header '" +:+ key +:+ "'"))).
Proof.
  unfold Figure_getitem.
  destruct (getitem_loop_spec (synthases f) key) as [Hfound|[Hall Hget]];
    [left; exact Hfound | right].
  split; [|exact Hget].
  intros Hin. apply list_elem_of_fmap in Hin as (s & Hs & Hin).
  rewrite Forall_forall in Hall. now apply (Hall s).
Qed.

Lemma getitem_loop_found (l : list Synthase.t) (key : string) :
  key ∈ headers l -> exists synthase, getitem_loop l key = Ok synthase.
Proof.
  intros Hin.
  destruct (getitem_loop_spec l key) as [(b & s & a & _ & _ & _ & Hget)|[Hall _]]; [eauto|].
  apply list_elem_of_fmap in Hin as (s & Hs & Hin).
  rewrite Forall_forall in Hall. now destruct (Hall s Hin).
Qed.

Lemma getitem_loop_missing (l : list Synthase.t) (key : string) :
  key ∉ headers l ->
  getitem_loop l key = Raise (KeyError ("No synthase with header '" +:+ key +:+ "'")).
Proof.
  intros Hin.
  destruct (getitem_loop_spec l key) as [(b & s & a & -> & _ & Hs & _)|[_ Hget]];
    [|exact Hget].
  exfalso. apply Hin. unfold headers. rewrite map_app. simpl. rewrite Hs.
  apply elem_of_app. right. left.
Qed.

Lemma setitem_sequence_headers (l : list Synthase.t) (key sequence : string) :
  headers (setitem_sequence l key sequence) = headers l.
Proof.
  induction l as [|s l IH]; simpl; [reflexivity|].
  destruct (decide (Synthase.header s = key)); simpl; [reflexivity | now rewrite IH].
Qed.

Lemma setitem_sequence_domains (l : list Synthase.t) (key sequence : string) :
  map Synthase.domains (setitem_sequence l key sequence) = map Synthase.domains l.
Proof.
  induction l as [|s l IH]; simpl; [reflexivity|].
  destruct (decide (Synthase.header s = key)); simpl; [reflexivity | now rewrite IH].
Qed.

(** The list with the sequences of [items] assigned in order. *)
Definition assign_sequences (l : list Synthase.t) (items : list (string * string))
    : list Synthase.t :=
  foldl (fun l item => setitem_sequence l item.1 item.2) l items.

Lemma assign_sequences_headers (items : list (string * string)) :
  forall l, headers (assign_sequences l items) = headers l.
Proof.
  induction items as [|[k v] items IH]; intros l; [reflexivity|].
  unfold assign_sequences. simpl. fold (assign_sequences (setitem_sequence l k v) items).
  now rewrite IH, setitem_sequence_headers.
Qed.

Lemma assign_sequences_domains (items : list (string * string)) :
  forall l, map Synthase.domains (assign_sequences l items) = map Synthase.domains l.
Proof.
  induction items as [|[k v] items IH]; intros l; [reflexivity|].
  unfold assign_sequences. simpl. fold (assign_sequences (setitem_sequence l k v) items).
  now rewrite IH, setitem_sequence_domains.
Qed.

(** Matched items followed by anything: the loop assigns the matched ones
    and goes on with the rest. *)
Lemma add_query_sequences_loop_app (matched rest : list (string * string)) :
  forall l,
    Forall (fun item => item.1 ∈ headers l) matched ->
    add_query_sequences_loop l (matched ++ rest)
    = add_query_sequences_loop (assign_sequences l matched) rest.
Proof.
  induction matched as [|[k v] matched IH]; intros l Hall; [reflexivity|].
  inversion Hall as [|? ? Hk Hmatched]; subst. simpl in Hk.
  destruct (getitem_loop_found l k Hk) as (s & Hs).
  simpl. rewrite Hs.
  unfold assign_sequences. simpl. fold (assign_sequences (setitem_sequence l k v) matched).
  apply IH. now rewrite setitem_sequence_headers.
Qed.

Lemma add_query_sequences_loop_matched (items : list (string * string))
    (l : list Synthase.t) :
  Forall (fun item => item.1 ∈ headers l) items ->
  add_query_sequences_loop l items = (assign_sequences l items, Ok tt).
Proof.
  intros Hall. rewrite <- (app_nil_r items) at 1.
  now rewrite add_query_sequences_loop_app.
Qed.

(** A list splits at its first element that fails a decidable test. *)
Lemma split_at_first_failure {A} (P : A -> Prop) `{!forall a, Decision (P a)}
    (l : list A) :
  Forall P l \/
  exists passed x rest, l = passed ++ x :: rest /\ Forall P passed /\ ~ P x.
Proof.
  induction l as [|a l IH]; [left; constructor|].
  destruct (decide (P a)) as [Ha|Ha].
  - destruct IH as [Hall|(passed & x & rest & -> & Hpassed & Hx)].
    + left. now constructor.
    + right. exists (a :: passed), x, rest. repeat split; [now constructor | exact Hx].
  - right. exists [], a, l. repeat split; [constructor | exact Ha].
Qed.

Section add_query_sequences_properties.
Context {handle : Type} (parse_fasta : handle -> list (string * string)).

(** A call is given the dictionary [items]: as [sequences], or in the file
    when [sequences] is missing or empty. A dictionary that is not empty
    takes precedence over the file. *)
Definition given_sequences (query_handle : option handle)
    (sequences : option (list (string * string)))
    (items : list (string * string)) : Prop :=
  (sequences = Some items /\ (query_handle = None \/ items <> [])) \/
  (exists h, query_handle = Some h /\
             (sequences = None \/ sequences = Some []) /\
             items = parse_fasta h).

Lemma query_sequences_given (query_handle : option handle)
    (sequences : option (list (string * string))) (items : list (string * string)) :
  query_sequences parse_fasta query_handle sequences = Some items <->
  given_sequences query_handle sequences items.
Proof.
  unfold given_sequences. split.
  - destruct query_handle as [h|], sequences as [[|item given]|]; simpl;
      intros Hsome; inversion Hsome; subst; eauto 7.
  - intros [[-> Hgiven]|(h & -> & Hmissing & ->)].
    + destruct query_handle as [h|], items as [|item items]; try reflexivity.
      destruct Hgiven; congruence.
    + destruct Hmissing as [->| ->]; reflexivity.
Qed.

Lemma query_sequences_missing (query_handle : option handle)
    (sequences : option (list (string * string))) :
  query_sequences parse_fasta query_handle sequences = None <->
  query_handle = None /\ sequences = None.
Proof.
  split.
  - destruct query_handle as [h|], sequences as [[|item given]|]; simpl;
      intros Hnone; try discriminate. auto.
  - now intros [-> ->].
Qed.

(** X2. [add_query_sequences] keeps the headers, the domains and the order
    of the synthases, and the colours, whether it returns or raises. Called
    with neither a file nor a dictionary it raises [AttributeError] and
    leaves the figure as it was. Otherwise it runs over the dictionary it is
    given: it returns when every header of the dictionary is the header of a
    synthase, and then every sequence has been assigned, in the order of the
    dictionary; if not it raises [KeyError] naming the first header without
    a synthase, and the sequences of the items before that one stay
    assigned: the call is not undone. *)
Theorem add_query_sequences_outcome (f : Figure) (query_handle : option handle)
    (sequences : option (list (string * string))) :
  let after := add_query_sequences parse_fasta f query_handle sequences in
  headers (synthases after.1) = headers (synthases f) /\
  map Synthase.domains (synthases after.1) = map Synthase.domains (synthases f) /\
  colours after.1 = colours f /\
  ((query_handle = None /\ sequences = None /\
    after = (f, Raise (AttributeError "'NoneType' object has no attribute 'items'"))) \/
   (exists items,
      given_sequences query_handle sequences items /\
      ((Forall (fun item => item.1 ∈ headers (synthases f)) items /\
        after.2 = Ok tt /\
        synthases after.1 = assign_sequences (synthases f) items) \/
       (exists matched header sequence rest,
          items = matched ++ (header, sequence) :: rest /\
          Forall (fun item => item.1 ∈ headers (synthases f)) matched /\
          (header ∉ headers (synthases f)) /\
          after.2 = Raise (KeyError ("Could not match '" +:+ header +:+
                                     "' to synthase in results")) /\
          synthases after.1 = assign_sequences (synthases f) matched)))).
Proof.
  intros after. unfold after, add_query_sequences.
  destruct (query_sequences parse_fasta query_handle sequences) as [items|] eqn:Hquery.
  - apply query_sequences_given in Hquery.
    destruct (split_at_first_failure (fun item => item.1 ∈ headers (synthases f)) items)
      as [Hall|(matched & [header sequence] & rest & Hitems & Hmatched & Hheader)].
    + rewrite add_query_sequences_loop_matched by exact Hall. simpl.
      rewrite assign_sequences_headers, assign_sequences_domains.
      repeat split. right. exists items. split; [exact Hquery|].
      left. repeat split. exact Hall.
    + rewrite Hitems, add_query_sequences_loop_app by exact Hmatched. simpl in *.
      rewrite getitem_loop_missing by now rewrite assign_sequences_headers.
      simpl. rewrite assign_sequences_headers, assign_sequences_domains.
      repeat split. right. exists items. split; [exact Hquery|].
      right. exists matched, header, sequence, rest. repeat split; assumption.
  - apply query_sequences_missing in Hquery as [-> ->]. simpl.
    repeat split. left. repeat split.
Qed.
End add_query_sequences_properties.

(** What a dictionary of sequences does to one synthase: the sequence
    under its header replaces its own. *)
Definition with_sequence (items : list (string * string)) (s : Synthase.t)
    : Synthase.t :=
  match (list_to_map items : gmap string string) !! Synthase.header s with
  | Some sequence => Synthase.mk (Synthase.header s) sequence (Synthase.domains s)
  | None => s
  end.

Lemma setitem_sequence_missing (l : list Synthase.t) (key sequence : string) :
  key ∉ headers l -> setitem_sequence l key sequence = l.
Proof.
  induction l as [|s l IH]; simpl; [reflexivity|]. intros Hkey.
  apply not_elem_of_cons in Hkey as [Hne Hkey].
  destruct (decide (Synthase.header s = key)); [congruence|].
  now rewrite IH.
Qed.

Lemma with_sequence_fresh (items : list (string * string)) (s : Synthase.t) :
  Synthase.header s ∉ map fst items -> with_sequence items s = s.
Proof.
  intros Hfresh. unfold with_sequence.
  now rewrite (not_elem_of_list_to_map_1 (M := gmap string)) by exact Hfresh.
Qed.

Lemma assign_sequences_unique (items : list (string * string)) :
  forall l,
    NoDup (headers l) -> NoDup (map fst items) ->
    assign_sequences l items = map (with_sequence items) l.
Proof.
  induction items as [|[k v] items IH]; intros l Hl Hitems.
  - simpl. induction l as [|s l IHl]; [reflexivity|].
    simpl. rewrite <- IHl by now inversion Hl. reflexivity.
  - simpl in Hitems. apply NoDup_cons in Hitems as [Hk Hitems].
    unfold assign_sequences. simpl. fold (assign_sequences (setitem_sequence l k v) items).
    rewrite IH by (try rewrite setitem_sequence_headers; assumption).
    clear IH. induction l as [|s l IHl]; [reflexivity|].
    simpl in Hl. apply NoDup_cons in Hl as [Hs Hl]. simpl.
    destruct (decide (Synthase.header s = k)) as [Heq|Hne].
    + simpl. f_equal.
      * subst k. unfold with_sequence at 2. simpl. rewrite lookup_insert_eq.
        now apply with_sequence_fresh.
      * subst k. rewrite <- IHl by exact Hl.
        now rewrite setitem_sequence_missing.
    + simpl. f_equal; [|now apply IHl].
      unfold with_sequence. simpl. now rewrite lookup_insert_ne by congruence.
Qed.

(** With distinct headers and distinct keys the loop gives every synthase
    the sequence under its header. *)
Lemma add_query_sequences_loop_unique (items : list (string * string))
    (l : list Synthase.t) :
  NoDup (headers l) -> NoDup (map fst items) ->
  Forall (fun item => item.1 ∈ headers l) items ->
  add_query_sequences_loop l items = (map (with_sequence items) l, Ok tt).
Proof.
  intros Hheaders Hkeys Hmatched.
  rewrite add_query_sequences_loop_matched by exact Hmatched.
  now rewrite assign_sequences_unique.
Qed.

Section add_query_sequences_effect.
Context {handle : Type} (parse_fasta : handle -> list (string * string)).

(** X3. When the synthases have distinct headers, a call of
    [add_query_sequences] that is given a dictionary, as [sequences] or in
    the file, whose headers all occur in the figure returns; every synthase
    whose header is in the dictionary then has the sequence under that
    header, with its header and domains kept, and every other synthase is as
    it was. *)
Theorem add_query_sequences_unique_headers (f : Figure)
    (query_handle : option handle) (sequences : option (list (string * string)))
    (items : list (string * string)) :
  given_sequences parse_fasta query_handle sequences items ->
  NoDup (headers (synthases f)) ->
  NoDup (map fst items) ->
  Forall (fun item => item.1 ∈ headers (synthases f)) items ->
  add_query_sequences parse_fasta f query_handle sequences
  = ({| synthases := map (with_sequence items) (synthases f); colours := colours f |},
     Ok tt).
Proof.
  intros Hgiven Hheaders Hkeys Hmatched. unfold add_query_sequences.
  apply query_sequences_given in Hgiven. rewrite Hgiven.
  now rewrite add_query_sequences_loop_unique.
Qed.

(** X4. Sequences added, scale factor computed: when the synthases have
    distinct headers and each of them has a sequence already or gets one
    that is not empty from the dictionary, no synthase is without a sequence
    after [add_query_sequences], and [calculate_scale_factor] passes its
    sequence check and divides [width - 2] by the largest sequence length.
    The items are those of the dictionary the call is given; a call with
    neither a file nor a dictionary has none, raises and leaves the figure
    as it was. *)
Theorem add_query_sequences_then_scale (f : Figure)
    (query_handle : option handle) (sequences : option (list (string * string)))
    (width : Z) :
  let items := default [] (query_sequences parse_fasta query_handle sequences) in
  let f' := (add_query_sequences parse_fasta f query_handle sequences).1 in
  NoDup (headers (synthases f)) ->
  NoDup (map fst items) ->
  Forall (fun item => item.1 ∈ headers (synthases f) /\ item.2 <> "") items ->
  Forall (fun s => Synthase.sequence s <> "" \/ Synthase.header s ∈ map fst items)
    (synthases f) ->
  synthases f <> [] ->
  0 <= width ->
  Forall (fun s => Synthase.sequence s <> "") (synthases f') /\
  exists largest,
    largest ∈ synthases f' /\
    (forall s, s ∈ synthases f' ->
       Synthase.sequence_length s <= Synthase.sequence_length largest) /\
    calculate_scale_factor f' width
    = Float.int_truediv (width - 2) (Synthase.sequence_length largest).
Proof.
  intros items f' Hheaders Hkeys Hitems Hcover Hnonempty Hwidth.
  assert (Hf' : synthases f' = map (with_sequence items) (synthases f)).
  { unfold f', add_query_sequences. clear f'. revert Hkeys Hitems Hcover. unfold items.
    destruct (query_sequences parse_fasta query_handle sequences) as [given|]; simpl;
      intros Hkeys Hitems Hcover.
    - rewrite add_query_sequences_loop_unique; [reflexivity|assumption..|].
      eapply Forall_impl; [exact Hitems|]. now intros item [Hin _].
    - rewrite <- (map_id (synthases f)) at 1. apply map_ext. intros s.
      symmetry. apply with_sequence_fresh. apply not_elem_of_nil. }
  assert (Hall : Forall (fun s => Synthase.sequence s <> "") (synthases f')).
  { rewrite Hf'. apply Forall_fmap. eapply Forall_impl; [exact Hcover|].
    intros s Hs. simpl. unfold with_sequence.
    destruct (list_to_map items !! Synthase.header s) as [sequence|] eqn:Hlookup.
    - simpl. apply (elem_of_list_to_map_2 (M := gmap string)) in Hlookup.
      rewrite Forall_forall in Hitems. now destruct (Hitems _ Hlookup).
    - destruct Hs as [Hs|Hs]; [exact Hs|].
      apply (not_elem_of_list_to_map_2 (M := gmap string)) in Hlookup. contradiction. }
  split; [exact Hall|].
  destruct (py_max_spec Synthase.sequence_length (synthases f'))
    as (largest & Hmax & Hin & Hlargest).
  { rewrite Hf'. destruct (synthases f); [contradiction | discriminate]. }
  exists largest. split; [exact Hin|]. split; [exact Hlargest|].
  unfold calculate_scale_factor.
  apply existsb_no_sequence_false in Hall. rewrite Hall.
  destruct (Z.ltb_spec width 0) as [?|_]; [lia|].
  now rewrite Hmax.
Qed.
End add_query_sequences_effect.

(** The sequence of [B] read from a file, no dictionary being passed. *)
Lemma add_query_sequences_unique_headers_witness :
  let f := figure_of [synthase_A; synthase_B] in
  let parse_fasta := fun _ : unit => [("B", "MKV")] in
  (add_query_sequences parse_fasta f (Some tt) None).2 = Ok tt /\
  map Synthase.sequence (synthases (add_query_sequences parse_fasta f (Some tt) None).1)
  = [repeat_char "M" 100; "MKV"].
Proof.
  intros f parse_fasta.
  rewrite (add_query_sequences_unique_headers parse_fasta f (Some tt) None
             [("B", "MKV")]).
  - split; reflexivity.
  - right. exists tt. auto.
  - compute_done.
  - compute_done.
  - compute_done.
Defined.

Lemma add_query_sequences_then_scale_witness :
  let f := figure_of [synthase_B] in
  let f' :=
    (add_query_sequences no_records f None (Some [("B", repeat_char "M" 100)])).1 in
  Forall (fun s => Synthase.sequence s <> "") (synthases f') /\
  calculate_scale_factor f 102 = Raise EmptySequenceError_figure /\
  calculate_scale_factor f' 102 = Ok one.
Proof.
  intros f f'.
  destruct (add_query_sequences_then_scale no_records f None
              (Some [("B", repeat_char "M" 100)]) 102) as [Hall _].
  - compute_done.
  - compute_done.
  - repeat constructor; discriminate.
  - constructor; [right; compute_done | constructor].
  - discriminate.
  - lia.
  - split; [exact Hall|]. split; reflexivity.
Defined.

(** ** The outcome of [set_colours] and of the validation *)

(** X5. [set_colours] either finds every override valid, returns, and has
    written them all; or it stops at the first override that is not valid,
    with the overrides before that one written and the ones after it
    ignored: a call that raises is not undone. The exception is [KeyError]
    when the key is not a domain type, and [ValueError] when the key is one
    but the colour fails the validation. *)
Theorem set_colours_outcome (f : Figure) (overrides : list (string * string)) :
  (Forall (valid_override (colours f)) overrides /\
   set_colours f overrides
   = ({| synthases := synthases f; colours := overwrite (colours f) overrides |},
      Ok tt)) \/
  (exists valid key value rest,
     overrides = valid ++ (key, value) :: rest /\
     Forall (valid_override (colours f)) valid /\
     ~ valid_override (colours f) (key, value) /\
     set_colours f overrides
     = ({| synthases := synthases f; colours := overwrite (colours f) valid |},
        Raise (if decide (key ∈ dom (colours f))
               then ValueError ("'" +:+ key +:+ "' is not a valid hex code")
               else KeyError ("Invalid domain '" +:+ key +:+ "'")))).
Proof.
  assert (Hdec : forall item, Decision (valid_override (colours f) item)).
  { intros item. unfold valid_override. apply _. }
  destruct (split_at_first_failure (valid_override (colours f)) overrides)
    as [Hall|(valid & [key value] & rest & -> & Hvalid & Hitem)].
  - left. split; [exact Hall | now apply set_colours_valid].
  - right. exists valid, key, value, rest. repeat split; try assumption.
    unfold set_colours. rewrite set_colours_loop_app by exact Hvalid. simpl.
    pose proof (overwrite_dom valid (colours f) Hvalid) as Hdom.
    destruct (decide (key ∈ dom (colours f))) as [Hkey|Hkey].
    + assert (Hvalue : _validate_colour value = false).
      { destruct (_validate_colour value) eqn:Hv; [|reflexivity].
        exfalso. apply Hitem. now split. }
      rewrite <- Hdom in Hkey. apply elem_of_dom in Hkey as [old Hold].
      now rewrite Hold, Hvalue.
    + rewrite <- Hdom in Hkey. apply not_elem_of_dom in Hkey. now rewrite Hkey.
Qed.

(** X6. [_validate_colour] accepts exactly the strings made of a hash sign
    and three or six hexadecimal digits, and those strings followed by one
    line feed. *)
Theorem validate_colour_exactly (colour : string) :
  _validate_colour colour = true <->
  hex_colour colour \/
  exists colour', hex_colour colour' /\ colour = colour' +:+ newline.
Proof.
  split; [apply validate_colour_sound|].
  intros [Hhex|(colour' & Hhex & ->)].
  - now apply validate_colour_complete.
  - now apply validate_colour_trailing_newline.
Qed.

(** ** Sorting again *)

Section list_sort_again.
Context {A K : Type} (le : K -> K -> bool) (key : A -> K).

(** A sorted list is left as it is. *)
Lemma list_sort_sorted_id (l : list A) :
  StronglySorted (key_le le key) l -> list_sort le key l = l.
Proof.
  induction 1 as [|x l Hsorted IH Hx]; [reflexivity|].
  simpl. rewrite IH. destruct l as [|y l]; [reflexivity|].
  simpl. inversion Hx as [|? ? Hxy _]; subst. unfold key_le in Hxy. now rewrite Hxy.
Qed.

(** The elements that satisfy [P] keep their order when they are in order
    already. *)
Lemma list_sort_filter_sorted (P : A -> Prop) `{!forall a, Decision (P a)}
    (l : list A) :
  StronglySorted (key_le le key) (filter P l) ->
  filter P (list_sort le key l) = filter P l.
Proof.
  induction l as [|x l IH]; intros Hsorted; simpl; [reflexivity|].
  rewrite filter_cons in Hsorted.
  rewrite sort_insert_filter.
  - rewrite !filter_cons, IH; [reflexivity|].
    destruct (decide (P x)); [now inversion Hsorted | exact Hsorted].
  - intros y Hy Hx HPy. apply list_sort_elem_of in Hy.
    destruct (decide (P x)); [|contradiction].
    inversion Hsorted as [|? ? _ Hall]; subst.
    rewrite Forall_forall in Hall. apply Hall.
    now apply list_elem_of_filter.
Qed.

(** Two lists in the order of the keys that hold the same elements of every
    key, in the same order, are the same list. *)
Lemma sorted_unique `{!EqDecision K} (l1 l2 : list A) :
  (forall a b, le a b = true -> le b a = true -> a = b) ->
  StronglySorted (key_le le key) l1 ->
  StronglySorted (key_le le key) l2 ->
  (forall k, filter (fun a => key a = k) l1 = filter (fun a => key a = k) l2) ->
  l1 = l2.
Proof.
  intros Hantisym Hs1. revert l2.
  induction Hs1 as [|x l1 Hs1 IH Hx]; intros l2 Hs2 Hfilter.
  - destruct l2 as [|y l2]; [reflexivity|].
    specialize (Hfilter (key y)). rewrite filter_cons_True in Hfilter by reflexivity.
    discriminate.
  - destruct Hs2 as [|y l2 Hs2 Hy].
    + specialize (Hfilter (key x)). rewrite filter_cons_True in Hfilter by reflexivity.
      discriminate.
    + assert (Hxy : key x = key y).
      { assert (Hiny : y ∈ x :: l1).
        { pose proof (Hfilter (key y)) as Hf.
          assert (Hy' : y ∈ filter (fun a => key a = key y) (y :: l2)).
          { apply list_elem_of_filter. split; [reflexivity | left]. }
          rewrite <- Hf in Hy'. now apply list_elem_of_filter in Hy' as [_ Hy']. }
        assert (Hinx : x ∈ y :: l2).
        { pose proof (Hfilter (key x)) as Hf.
          assert (Hx' : x ∈ filter (fun a => key a = key x) (x :: l1)).
          { apply list_elem_of_filter. split; [reflexivity | left]. }
          rewrite Hf in Hx'. now apply list_elem_of_filter in Hx' as [_ Hx']. }
        apply elem_of_cons in Hiny as [Heq|Hiny]; [now rewrite Heq|].
        apply elem_of_cons in Hinx as [Heq|Hinx]; [now rewrite Heq|].
        rewrite Forall_forall in Hx, Hy.
        apply Hantisym; [now apply Hx | now apply Hy]. }
      pose proof (Hfilter (key x)) as Hhead.
      rewrite filter_cons_True in Hhead by reflexivity.
      rewrite filter_cons_True in Hhead by (now symmetry).
      inversion Hhead as [[Heq Htail]]. subst y. f_equal.
      apply IH; [exact Hs2|]. intros k.
      destruct (decide (key x = k)) as [<-|Hk]; [exact Htail|].
      specialize (Hfilter k). now rewrite !filter_cons_False in Hfilter by exact Hk.
Qed.
End list_sort_again.

Lemma existsb_no_sequence_perm (l l' : list Synthase.t) :
  l ≡ₚ l' -> existsb no_sequence l = existsb no_sequence l'.
Proof.
  intros Hperm. apply eq_true_iff_eq.
  rewrite !existsb_no_sequence, !Exists_exists.
  split; intros (s & Hin & Hs); exists s; split; trivial;
    [now rewrite <- Hperm | now rewrite Hperm].
Qed.

Lemma length_key_perm (f g : Figure) :
  synthases f ≡ₚ synthases g -> length_key f = length_key g.
Proof.
  intros Hperm. unfold length_key. now rewrite (existsb_no_sequence_perm _ _ Hperm).
Qed.

Lemma longer_first_total (a b : Z) : (b <=? a) = true \/ (a <=? b) = true.
Proof. destruct (Z.leb_spec b a), (Z.leb_spec a b); auto; lia. Qed.

Lemma longer_first_trans (a b c : Z) :
  (b <=? a) = true -> (c <=? b) = true -> (c <=? a) = true.
Proof. intros Hab Hbc. apply Z.leb_le in Hab, Hbc. apply Z.leb_le. lia. Qed.

(** A figure in descending order of the key is left as it is. *)
Lemma sort_synthases_by_length_id (f : Figure) :
  StronglySorted (fun a b => length_key f b <= length_key f a) (synthases f) ->
  sort_synthases_by_length f = f.
Proof.
  intros Hsorted. unfold sort_synthases_by_length.
  rewrite list_sort_sorted_id; [now destruct f|].
  eapply StronglySorted_impl; [|exact Hsorted].
  intros a b Hab. now apply Z.leb_le.
Qed.

Lemma sort_synthases_by_length_idem (f : Figure) :
  sort_synthases_by_length (sort_synthases_by_length f) = sort_synthases_by_length f.
Proof.
  apply sort_synthases_by_length_id.
  destruct (sort_synthases_by_length_sorted f) as [Hperm Hsorted].
  now rewrite (length_key_perm _ f Hperm).
Qed.

(** X7. The length sort is a stable sort in descending order of the key:
    the result holds the synthases of the figure, each as often as before,
    no synthase comes before one of a larger key, and the synthases of one
    key keep their order. Sorting twice is sorting once, and a figure already
    in descending order of the key is left as it is. The key is the sequence
    length when every synthase has a sequence, and the length of the
    architecture string as soon as one synthase has none. *)
Theorem sort_synthases_by_length_stable (f : Figure) :
  let sorted := synthases (sort_synthases_by_length f) in
  sorted ≡ₚ synthases f /\
  StronglySorted (fun a b => length_key f b <= length_key f a) sorted /\
  colours (sort_synthases_by_length f) = colours f /\
  (forall n, filter (fun s => length_key f s = n) sorted
             = filter (fun s => length_key f s = n) (synthases f)) /\
  sort_synthases_by_length (sort_synthases_by_length f) = sort_synthases_by_length f /\
  (StronglySorted (fun a b => length_key f b <= length_key f a) (synthases f) ->
   sort_synthases_by_length f = f) /\
  (Forall (fun s => Synthase.sequence s <> "") (synthases f) ->
   length_key f = Synthase.sequence_length) /\
  (Exists (fun s => Synthase.sequence s = "") (synthases f) ->
   length_key f = fun s => len (Synthase.architecture s)).
Proof.
  intros sorted.
  destruct (sort_synthases_by_length_sorted f) as [Hperm Hsorted].
  split; [exact Hperm|]. split; [exact Hsorted|]. split; [reflexivity|].
  split; [|split; [|split; [|split]]].
  - intros n. apply list_sort_stable. intros k. apply Z.leb_refl.
  - apply sort_synthases_by_length_idem.
  - apply sort_synthases_by_length_id.
  - intros Hall. apply existsb_no_sequence_false in Hall.
    unfold length_key. now rewrite Hall.
  - intros Hex. apply existsb_no_sequence in Hex.
    unfold length_key. now rewrite Hex.
Qed.

Lemma sort_synthases_by_length_stable_witness :
  sort_synthases_by_length (figure_of [synthase_A; synthase_c])
  = figure_of [synthase_A; synthase_c] /\
  synthases (sort_synthases_by_length (figure_of [synthase_c; synthase_A; synthase_d]))
  = [synthase_A; synthase_c; synthase_d].
Proof.
  split; [|reflexivity].
  destruct (sort_synthases_by_length_stable (figure_of [synthase_A; synthase_c]))
    as (_ & _ & _ & _ & _ & Hid & _).
  apply Hid. repeat constructor. vm_compute. discriminate.
Defined.

Section fixed_point.
Context `{Classification}.

(** A second run of the generator finds the synthases in its order. *)
Lemma iterate_synthase_types_fixed (f : Figure) :
  iterate_synthase_types (iterate_synthase_types f).1 = iterate_synthase_types f.
Proof.
  unfold iterate_synthase_types. cbn [fst].
  set (by_length := synthases (sort_synthases_by_length f)).
  set (sorted := list_sort tuple_leb (fun s => (type s, subtype s)) by_length).
  set (f' := {| synthases := sorted; colours := colours (sort_synthases_by_length f) |}).
  assert (Hperm : synthases f' ≡ₚ synthases f).
  { simpl. unfold sorted, by_length. simpl. now rewrite !list_sort_perm. }
  assert (Hkey : length_key f' = length_key f) by now apply length_key_perm.
  assert (Hsame : list_sort tuple_leb (fun s => (type s, subtype s))
                    (synthases (sort_synthases_by_length f')) = sorted).
  { apply (sorted_unique tuple_leb (fun s => (type s, subtype s))).
    - apply tuple_leb_antisym.
    - apply list_sort_sorted; [apply tuple_leb_total | apply tuple_leb_trans].
    - apply list_sort_sorted; [apply tuple_leb_total | apply tuple_leb_trans].
    - intros k.
      rewrite list_sort_stable by apply tuple_leb_refl.
      simpl. rewrite Hkey.
      apply list_sort_filter_sorted.
      unfold sorted. rewrite list_sort_stable by apply tuple_leb_refl.
      apply StronglySorted_filter.
      apply list_sort_sorted; [apply longer_first_total | apply longer_first_trans]. }
  rewrite Hsame. reflexivity.
Qed.
End fixed_point.

(** ** Rendering again *)

(** The largest key does not depend on the order of the list. *)
Lemma py_max_perm {A} (key : A -> Z) (l l' : list A) :
  l ≡ₚ l' -> key <$> py_max key l = key <$> py_max key l'.
Proof.
  intros Hperm. destruct l as [|x l].
  - apply Permutation_nil_l in Hperm. now subst l'.
  - destruct l' as [|x' l'].
    { symmetry in Hperm. apply Permutation_nil_l in Hperm. discriminate. }
    destruct (py_max_spec key (x :: l)) as (a & Ha & Hina & Hmaxa); [discriminate|].
    destruct (py_max_spec key (x' :: l')) as (b & Hb & Hinb & Hmaxb); [discriminate|].
    rewrite Ha, Hb. simpl. f_equal.
    apply Z.le_antisymm.
    + apply Hmaxb. now rewrite <- Hperm.
    + apply Hmaxa. now rewrite Hperm.
Qed.

(** The scale factor does not depend on the order of the synthases. *)
Lemma calculate_scale_factor_perm (f g : Figure) (width : Z) :
  synthases f ≡ₚ synthases g ->
  calculate_scale_factor f width = calculate_scale_factor g width.
Proof.
  intros Hperm. unfold calculate_scale_factor.
  rewrite (existsb_no_sequence_perm _ _ Hperm).
  destruct (existsb no_sequence (synthases g)); [reflexivity|].
  destruct (width <? 0); [reflexivity|].
  pose proof (py_max_perm Synthase.sequence_length _ _ Hperm) as Hmax.
  destruct (py_max Synthase.sequence_length (synthases f)) as [a|e],
           (py_max Synthase.sequence_length (synthases g)) as [b|e'];
    simpl in *; inversion Hmax; congruence.
Qed.

Section repeated.
Context `{Classification}.

Lemma iterate_synthase_types_perm (f : Figure) :
  synthases (iterate_synthase_types f).1 ≡ₚ synthases f.
Proof. simpl. now rewrite !list_sort_perm. Qed.

(** X8. Running the generator again gives the same groups and leaves the
    synthases in the same order: the order the first run leaves behind is a
    fixed point of the two sorts. A length sort in between does not change
    the groups of the next run. *)
Theorem iterate_synthase_types_again (f : Figure) :
  let first := iterate_synthase_types f in
  iterate_synthase_types first.1 = first /\
  (iterate_synthase_types (sort_synthases_by_length first.1)).2 = first.2.
Proof.
  intros first. split; [apply iterate_synthase_types_fixed|].
  unfold first.
  rewrite <- (iterate_synthase_types_fixed f) at 2.
  unfold iterate_synthase_types. cbn [fst snd].
  now rewrite sort_synthases_by_length_idem.
Qed.

(** X9. Rendering is repeatable: a second call of [visualise] with the
    same parameters, on the figure the first call left behind, has the same
    outcome, document or exception, and leaves the same figure. *)
Theorem visualise_again (f : Figure)
    (arrow_height arrow_spacing block_spacing header_fsize info_fsize width : Z) :
  let first := visualise f arrow_height arrow_spacing block_spacing header_fsize
                 info_fsize width in
  visualise first.1 arrow_height arrow_spacing block_spacing header_fsize
    info_fsize width = first.
Proof.
  intros first. unfold first, visualise.
  destruct (calculate_scale_factor f width) as [scale_factor|e] eqn:Hscale.
  - pose proof (iterate_synthase_types_fixed f) as Hfixed.
    pose proof (iterate_synthase_types_perm f) as Hperm.
    destruct (iterate_synthase_types f) as [f' groups]. cbn [fst] in *.
    rewrite (calculate_scale_factor_perm f' f width Hperm), Hscale, Hfixed.
    reflexivity.
  - cbn [fst]. now rewrite Hscale.
Qed.
End repeated.

(** ** The edges of [wrap_fasta] *)

(** X14. The edges of [wrap_fasta]: a limit of 0 raises the [ValueError]
    of [range]; a negative limit gives the empty string whatever the
    sequence; and a sequence no longer than a positive limit comes back
    unchanged, with no line feed added. *)
Theorem wrap_fasta_edges (sequence : string) (limit : Z) :
  wrap_fasta sequence 0 = Raise (ValueError "range() arg 3 must not be zero") /\
  (limit < 0 -> wrap_fasta sequence limit = Ok "") /\
  (0 < limit -> len sequence <= limit -> wrap_fasta sequence limit = Ok sequence).
Proof.
  split; [reflexivity|split].
  - intros Hlimit. unfold wrap_fasta, py_range.
    destruct (decide (limit = 0)) as [?|_]; [lia|].
    destruct (Z.ltb_spec 0 limit) as [?|_]; [lia|].
    assert (Hcount : (0 - len sequence - limit - 1) / - limit <= 0).
    { apply Z.lt_succ_r. apply Z.div_lt_upper_bound; unfold len; lia. }
    replace (Z.to_nat ((0 - len sequence - limit - 1) / - limit)) with 0%nat by lia.
    reflexivity.
  - intros Hlimit Hlen. unfold wrap_fasta, py_range.
    destruct (decide (limit = 0)) as [?|_]; [lia|].
    destruct (Z.ltb_spec 0 limit) as [_|?]; [|lia].
    destruct sequence as [|c sequence].
    + replace ((len "" - 0 + limit - 1) / limit) with 0
        by (symmetry; apply Z.div_small; unfold len; simpl; lia).
      reflexivity.
    + set (s := String c sequence) in *.
      assert (Hpos : 0 < len s) by (unfold len, s; simpl; lia).
      replace ((len s - 0 + limit - 1) / limit) with 1.
      2:{ apply (Z.div_unique _ _ 1 (len s - 1)); lia. }
      simpl. f_equal.
      replace (0 + Z.of_nat 0 * limit) with 0 by lia.
      rewrite (slice_chunk s 0 limit) by lia.
      rewrite drop_0, take_ge.
      * apply string_of_list_ascii_of_string.
      * rewrite list_ascii_of_string_length. unfold len in Hlen. lia.
Qed.

Lemma wrap_fasta_edges_witness :
  wrap_fasta (repeat_char "A" 85) (-80) = Ok "" /\
  wrap_fasta (repeat_char "A" 80) 80 = Ok (repeat_char "A" 80).
Proof.
  destruct (wrap_fasta_edges (repeat_char "A" 85) (-80)) as (_ & Hnegative & _).
  destruct (wrap_fasta_edges (repeat_char "A" 80) 80) as (_ & _ & Hshort).
  split; [apply Hnegative; lia | apply Hshort; [lia | vm_compute; discriminate]].
Defined.

(** ** Blocks and the document *)

Lemma pow_1023_large (z : Z) : Z.abs z <= 2 ^ 63 -> Z.abs z < 2 ^ 1023.
Proof.
  intros Hz. assert (2 ^ 63 < 2 ^ 1023) by (apply Z.pow_lt_mono_r; lia). lia.
Qed.

(** The polygon generator returns for a synthase with a sequence and
    numbers that convert to [float]. *)
Lemma generate_synthase_polygon_returns (synthase : Synthase.t)
    (scale_factor info_fsize arrow_height : number) :
  Synthase.sequence synthase <> "" ->
  len (Synthase.sequence synthase) <= sys_maxsize ->
  convertible info_fsize -> convertible arrow_height ->
  exists drawn,
    generate_synthase_polygon synthase scale_factor info_fsize arrow_height = Ok drawn.
Proof.
  intros Hsequence Hlen Hinfo Harrow.
  unfold generate_synthase_polygon, no_sequence.
  destruct (decide (Synthase.sequence synthase = "")); [contradiction|].
  assert (Hlen' : Z.abs (len (Synthase.sequence synthase)) < 2 ^ 1023).
  { apply pow_1023_large. unfold sys_maxsize, len in *. lia. }
  destruct (arith_int_r Z.mul Float.mul scale_factor _ Hlen') as (scaled_length & Hscaled).
  destruct (arith_float_r Z.mul Float.mul info_fsize Float.lit_0_9 Hinfo) as (top & Htop).
  destruct (arith_float_l Z.add Float.add top arrow_height Harrow) as (bottom & Hbottom).
  destruct (truediv_two arrow_height Harrow) as (half & Hhalf).
  destruct (arith_float_l Z.add Float.add top (Float half) I) as (middle & Hmiddle).
  destruct (arith_int_r Z.sub Float.sub scaled_length 10) as (right & Hright).
  { apply pow_1023_large. simpl. lia. }
  change (Number.arith Z.mul Float.mul) with Number.mul in *.
  change (Number.arith Z.add Float.add) with Number.add in *.
  change (Number.arith Z.sub Float.sub) with Number.sub in *.
  rewrite Hscaled, Htop. cbn [mbind result_bind].
  repeat (progress (try rewrite Hbottom; try rewrite Hhalf; try rewrite Hmiddle;
                    try rewrite Hright; cbn [mbind result_bind])).
  eexists. reflexivity.
Qed.

(** A synthase that can be drawn as a polygon: it has a sequence, of a
    length a string can have. *)
Definition has_sequence (s : Synthase.t) : Prop :=
  Synthase.sequence s <> "" /\ len (Synthase.sequence s) <= sys_maxsize.

Section blocks.
Context (scale_factor : spec_float).
Context (arrow_height arrow_spacing block_spacing header_fsize info_fsize : Z).
Context (Hinfo : Z.abs info_fsize < 2 ^ 1023) (Harrow : Z.abs arrow_height < 2 ^ 1023).

(** The height a polygon takes in its block. *)
Definition row_height : Z := info_fsize + arrow_height + 4 + arrow_spacing.

Definition polygon_of (s : Synthase.t) (p : polygon) : Prop :=
  generate_synthase_polygon s (Float scale_factor) (Int info_fsize) (Int arrow_height)
  = Ok p.

Lemma polygon_block_loop_app (group : list Synthase.t) :
  Forall has_sequence group ->
  exists polygons,
    Forall2 polygon_of group polygons /\
    forall rest drawn offset,
      polygon_block_loop (group ++ rest) scale_factor arrow_spacing arrow_height
        info_fsize drawn offset
      = polygon_block_loop rest scale_factor arrow_spacing arrow_height info_fsize
          (drawn ++ imap (fun k p => (offset + Z.of_nat k * row_height, p)) polygons)
          (offset + Z.of_nat (length group) * row_height).
Proof.
  induction 1 as [|s group [Hs Hlen] _ IH].
  - exists []. split; [constructor|]. intros rest drawn offset. simpl.
    rewrite app_nil_r. f_equal. lia.
  - destruct (generate_synthase_polygon_returns s (Float scale_factor)
                (Int info_fsize) (Int arrow_height) Hs Hlen Hinfo Harrow) as (p & Hp).
    destruct IH as (polygons & Hall & Hloop).
    exists (p :: polygons). split; [now constructor|].
    intros rest drawn offset.
    simpl. rewrite Hp. cbn [mbind result_bind].
    fold row_height. rewrite Hloop. f_equal.
    + rewrite <- app_assoc. simpl. f_equal. f_equal.
      * f_equal. lia.
      * apply imap_ext. intros k q _. simpl. f_equal. lia.
    + lia.
Qed.

Lemma polygon_block_loop_returns (group : list Synthase.t) :
  Forall has_sequence group ->
  forall drawn offset,
    exists polygons,
      Forall2 polygon_of group polygons /\
      polygon_block_loop group scale_factor arrow_spacing arrow_height info_fsize
        drawn offset
      = Ok (drawn ++ imap (fun k p => (offset + Z.of_nat k * row_height, p)) polygons,
            offset + Z.of_nat (length group) * row_height).
Proof.
  intros Hgroup drawn offset.
  destruct (polygon_block_loop_app group Hgroup) as (polygons & Hall & Hloop).
  exists polygons. split; [exact Hall|].
  rewrite <- (app_nil_r group) at 1. now rewrite Hloop.
Qed.

Lemma build_polygon_block_no_sequence (subtype : string)
    (group rest : list Synthase.t) (s : Synthase.t) :
  Forall has_sequence group -> Synthase.sequence s = "" ->
  build_polygon_block subtype (group ++ s :: rest) scale_factor arrow_spacing
    arrow_height info_fsize header_fsize
  = Raise EmptySequenceError_synthase.
Proof.
  intros Hgroup Hs. unfold build_polygon_block.
  destruct (polygon_block_loop_app group Hgroup) as (polygons & _ & Hloop).
  rewrite Hloop. simpl. unfold generate_synthase_polygon, no_sequence.
  destruct (decide (Synthase.sequence s = "")); [reflexivity | contradiction].
Qed.

Lemma build_polygon_block_returns (subtype : string) (group : list Synthase.t) :
  Forall has_sequence group ->
  exists polygons,
    Forall2 polygon_of group polygons /\
    build_polygon_block subtype group scale_factor arrow_spacing arrow_height
      info_fsize header_fsize
    = Ok ({| block_font_size := header_fsize; block_subtype := subtype;
             block_polygons :=
               imap (fun k p => (header_fsize + Z.of_nat k * row_height, p)) polygons |},
          header_fsize + Z.of_nat (length group) * row_height).
Proof.
  intros Hgroup. unfold build_polygon_block.
  destruct (polygon_block_loop_returns group Hgroup [] header_fsize)
    as (polygons & Hall & Hloop).
  exists polygons. split; [exact Hall|]. now rewrite Hloop.
Qed.

Lemma map_snd_imap {A B} (g : nat -> B) (l : list A) :
  map snd (imap (fun k p => (g k, p)) l) = l.
Proof.
  revert g. induction l as [|x l IH]; intros g; [reflexivity|].
  simpl. f_equal. apply (IH (g ∘ S)).
Qed.

(** A block drawn for a group: it carries the subtype of the group and the
    polygons of its synthases, in their order. *)
Definition block_of (group : string * list Synthase.t) (b : Z * block) : Prop :=
  block_subtype b.2 = group.1 /\
  Forall2 polygon_of group.2 (map snd (block_polygons b.2)).

(** The members of the first [k] groups. *)
Definition members_before (groups : list (string * list Synthase.t)) (k : nat) : nat :=
  length (concat (map snd (take k groups))).

Lemma visualise_loop_returns (groups : list (string * list Synthase.t)) :
  Forall (fun group => Forall has_sequence group.2) groups ->
  forall blocks offset,
    exists blocks',
      Forall2 block_of groups blocks' /\
      (forall k b,
         blocks' !! k = Some b ->
         b.1 = offset + Z.of_nat k * (header_fsize + block_spacing)
               + Z.of_nat (members_before groups k) * row_height) /\
      visualise_loop groups scale_factor arrow_height arrow_spacing block_spacing
        header_fsize info_fsize blocks offset
      = Ok (blocks ++ blocks',
            offset + Z.of_nat (length groups) * (header_fsize + block_spacing)
            + Z.of_nat (length (concat (map snd groups))) * row_height).
Proof.
  induction 1 as [|[subtype group] groups Hgroup _ IH]; intros blocks offset.
  - exists []. split; [constructor|]. split; [intros k b Hk; destruct k; discriminate|].
    simpl. rewrite app_nil_r. do 2 f_equal. lia.
  - simpl in Hgroup.
    destruct (build_polygon_block_returns subtype group Hgroup)
      as (polygons & Hall & Hblock).
    cbn [visualise_loop]. rewrite Hblock. cbn [mbind result_bind].
    match goal with
    | |- context [visualise_loop groups _ _ _ _ _ _ (blocks ++ [?b]) ?o] =>
        destruct (IH (blocks ++ [b]) o) as (blocks' & Hblocks & Hoffsets & Hloop);
        exists (b :: blocks')
    end.
    split; [|split].
    + constructor; [|exact Hblocks]. split; [reflexivity|].
      simpl. now rewrite map_snd_imap.
    + intros [|k] b Hk.
      * inversion Hk. unfold members_before. simpl. lia.
      * simpl in Hk. rewrite (Hoffsets k b Hk).
        unfold members_before. simpl. rewrite length_app. lia.
    + rewrite Hloop, <- app_assoc. simpl. f_equal. f_equal.
      rewrite length_app. lia.
Qed.
End blocks.

(** X10. For a group whose synthases have sequences, [build_polygon_block]
    draws one polygon per synthase, in order, the polygon of index [k]
    (from 0) at the vertical offset
    [header_fsize + k * (info_fsize + arrow_height + 4 + arrow_spacing)],
    and returns the offset after the last polygon. A synthase without a
    sequence in the group makes it raise the empty sequence error of the
    polygon generator. *)
Theorem build_polygon_block_offsets (subtype : string) (group : list Synthase.t)
    (scale_factor : spec_float)
    (arrow_spacing arrow_height info_fsize header_fsize : Z) :
  Z.abs info_fsize < 2 ^ 1023 -> Z.abs arrow_height < 2 ^ 1023 ->
  let step := info_fsize + arrow_height + 4 + arrow_spacing in
  let build := fun members =>
    build_polygon_block subtype members scale_factor arrow_spacing arrow_height
      info_fsize header_fsize in
  (Forall has_sequence group ->
   exists polygons,
     Forall2 (polygon_of scale_factor arrow_height info_fsize) group polygons /\
     build group
     = Ok ({| block_font_size := header_fsize; block_subtype := subtype;
              block_polygons :=
                imap (fun k p => (header_fsize + Z.of_nat k * step, p)) polygons |},
           header_fsize + Z.of_nat (length group) * step)) /\
  (forall s rest,
     Forall has_sequence group -> Synthase.sequence s = "" ->
     build (group ++ s :: rest) = Raise EmptySequenceError_synthase).
Proof.
  intros Hinfo Harrow step build. split.
  - intros Hgroup.
    exact (build_polygon_block_returns scale_factor arrow_height arrow_spacing
             header_fsize info_fsize Hinfo Harrow subtype group Hgroup).
  - intros s rest Hgroup Hs.
    exact (build_polygon_block_no_sequence scale_factor arrow_height arrow_spacing
             header_fsize info_fsize Hinfo Harrow subtype group rest s Hgroup Hs).
Qed.

Lemma build_polygon_block_offsets_witness :
  exists drawn_A drawn_c,
    build_polygon_block "KS" [synthase_A; synthase_c] one 4 12 12 15
    = Ok ({| block_font_size := 15; block_subtype := "KS";
             block_polygons := [(15, drawn_A); (47, drawn_c)] |}, 79).
Proof.
  destruct (build_polygon_block_offsets "KS" [synthase_A; synthase_c] one 4 12 12 15)
    as [Hblock _].
  - reflexivity.
  - reflexivity.
  - destruct Hblock as (polygons & Hall & Hblock).
    + repeat constructor; try discriminate; vm_compute; discriminate.
    + inversion Hall as [|? drawn_A ? rest _ Hrest]; subst.
      inversion Hrest as [|? drawn_c ? rest' _ Hrest']; subst.
      inversion Hrest'; subst.
      exists drawn_A, drawn_c. exact Hblock.
Defined.

(** ** The document *)

Lemma comprehension_returns {A B} (g : A -> result B) (l : list A) :
  Forall (fun x => exists y, g x = Ok y) l ->
  exists ys, comprehension g l = Ok ys /\ Forall2 (fun x y => g x = Ok y) l ys.
Proof.
  induction 1 as [|x l [y Hy] _ (ys & Hys & Hall)]; simpl.
  - exists []. split; [reflexivity | constructor].
  - exists (y :: ys). rewrite Hy, Hys. simpl. split; [reflexivity | now constructor].
Qed.

Lemma generate_synthase_gradient_returns (f : Figure) (s : Synthase.t) :
  Synthase.sequence s <> "" ->
  Forall (valid_domain (colours f) (len (Synthase.sequence s))) (Synthase.domains s) ->
  exists markup, generate_synthase_gradient f s = Ok markup.
Proof.
  intros Hs Hvalid. unfold generate_synthase_gradient, gradient_stops, no_sequence.
  destruct (decide (Synthase.sequence s = "")); [contradiction|].
  destruct (gradient_loop_valid _ _ _ Hvalid []) as (entries & Hloop & _).
  rewrite Hloop. simpl. eexists. reflexivity.
Qed.

(** A synthase the figure can draw: it has a sequence and its domains are
    valid annotations. *)
Definition drawable (registry : gmap string string) (s : Synthase.t) : Prop :=
  has_sequence s /\
  Forall (valid_domain registry (len (Synthase.sequence s))) (Synthase.domains s).

Lemma Forall_concat_groups {A} (P : A -> Prop) (groups : list (string * list A)) :
  Forall P (concat (map snd groups)) -> Forall (fun group => Forall P group.2) groups.
Proof.
  induction groups as [|[k g] groups IH]; simpl; [constructor|].
  rewrite Forall_app. intros [Hg Hrest]. constructor; [exact Hg | now apply IH].
Qed.

Section document.
Context `{Classification}.

(** X11. [visualise] returns a document for a figure that is not empty,
    whose synthases have sequences and valid domain annotations, for a width
    from 0 to [2 ^ 1022]. The figure is left in the order of the groups. The
    document has the width asked for; for [G] groups and [N] synthases its
    height is [3 + G * (header_fsize + block_spacing) + N * (info_fsize +
    arrow_height + 4 + arrow_spacing) - block_spacing - arrow_spacing - 4];
    it holds the gradient of every synthase, in the order the figure is
    left in, and one block per group, in the order of the groups, with the
    subtype of the group and the polygons of its synthases; the block of
    index [k] is at the vertical offset 3 plus the heights of the blocks
    before it. *)
Theorem visualise_returns (f : Figure)
    (arrow_height arrow_spacing block_spacing header_fsize info_fsize width : Z) :
  synthases f <> [] ->
  Forall (drawable (colours f)) (synthases f) ->
  0 <= width <= 2 ^ 1022 ->
  Z.abs info_fsize < 2 ^ 1023 -> Z.abs arrow_height < 2 ^ 1023 ->
  let f' := (iterate_synthase_types f).1 in
  let groups := (iterate_synthase_types f).2 in
  exists scale_factor document,
    calculate_scale_factor f width = Ok scale_factor /\
    visualise f arrow_height arrow_spacing block_spacing header_fsize info_fsize width
    = (f', Ok document) /\
    svg_width document = width /\
    svg_height document
    = 3 + Z.of_nat (length groups) * (header_fsize + block_spacing)
      + Z.of_nat (length (synthases f))
        * (info_fsize + arrow_height + 4 + arrow_spacing)
      - block_spacing - arrow_spacing - 4 /\
    Forall2 (fun s gradient => generate_synthase_gradient f' s = Ok gradient)
      (synthases f') (svg_gradients document) /\
    Forall2 (block_of scale_factor arrow_height info_fsize) groups
      (svg_blocks document) /\
    (forall k b,
       svg_blocks document !! k = Some b ->
       b.1 = 3 + Z.of_nat k * (header_fsize + block_spacing)
             + Z.of_nat (members_before groups k)
               * (info_fsize + arrow_height + 4 + arrow_spacing)).
Proof.
  intros Hnonempty Hdrawable Hwidth Hinfo Harrow f0 groups.
  assert (Hall : Forall (fun s => Synthase.sequence s <> "") (synthases f)).
  { eapply Forall_impl; [exact Hdrawable|]. now intros s [[Hs _] _]. }
  (* the scale factor *)
  destruct (py_max_spec Synthase.sequence_length (synthases f) Hnonempty)
    as (largest & Hmax & Hin & _).
  assert (Hpos : 0 < Synthase.sequence_length largest).
  { apply sequence_length_pos. rewrite Forall_forall in Hall. now apply Hall. }
  destruct (int_truediv_finite (width - 2) (Synthase.sequence_length largest) 1022)
    as (scale_factor & Hscale & _); [lia | lia | |].
  { assert (0 < 2 ^ 1022) by (apply Z.pow_pos_nonneg; lia). nia. }
  assert (Hfactor : calculate_scale_factor f width = Ok scale_factor).
  { unfold calculate_scale_factor.
    apply existsb_no_sequence_false in Hall. rewrite Hall.
    destruct (Z.ltb_spec width 0) as [?|_]; [lia|].
    now rewrite Hmax. }
  exists scale_factor. unfold visualise. rewrite Hfactor.
  pose proof (iterate_synthase_types_perm f) as Hperm.
  pose proof (groupby_concat subtype (synthases (iterate_synthase_types f).1)) as Hconcat.
  change (groupby subtype (synthases (iterate_synthase_types f).1)) with groups in Hconcat.
  assert (Hcolours : colours f0 = colours f) by reflexivity.
  unfold f0, groups in *. clear f0 groups.
  destruct (iterate_synthase_types f) as [f' groups].
  cbn [fst snd] in *.
  assert (Hdrawable' : Forall (drawable (colours f)) (synthases f')).
  { now rewrite Hperm. }
  (* the blocks *)
  destruct (visualise_loop_returns scale_factor arrow_height arrow_spacing block_spacing
              header_fsize info_fsize Hinfo Harrow groups) with (blocks := @nil (Z * block))
              (offset := 3)
    as (blocks & Hblocks & Hoffsets & Hloop).
  { apply Forall_concat_groups. rewrite Hconcat.
    eapply Forall_impl; [exact Hdrawable'|]. now intros s [Hs _]. }
  rewrite Hloop. cbn [mbind result_bind].
  (* the gradients *)
  destruct (comprehension_returns (generate_synthase_gradient f') (synthases f'))
    as (gradients & Hgradients & Hforall).
  { eapply Forall_impl; [exact Hdrawable'|].
    intros s [[Hs _] Hvalid]. apply generate_synthase_gradient_returns; [exact Hs|].
    now rewrite Hcolours. }
  rewrite Hgradients. cbn [mbind result_bind].
  eexists. split; [reflexivity|]. split; [reflexivity|]. cbn.
  split; [reflexivity|]. split; [|split; [|split]].
  - rewrite Hconcat, Hperm. unfold row_height. lia.
  - exact Hforall.
  - exact Hblocks.
  - exact Hoffsets.
Qed.
End document.

(** Two entities of a subtype each, with the default parameters of
    [visualise]: the document is 105 pixels high. *)
Lemma visualise_returns_witness :
  exists document,
    @visualise_default terminal_classification (figure_of [synthase_c; synthase_A]) 600
    = (figure_of [synthase_A; synthase_c], Ok document) /\
    svg_height document = 105 /\
    length (svg_gradients document) = 2%nat /\
    map (fun b => block_subtype b.2) (svg_blocks document) = ["KS"; "R"].
Proof.
  destruct (@visualise_returns terminal_classification
              (figure_of [synthase_c; synthase_A]) 12 4 16 15 12 600)
    as (scale_factor & document & _ & Hdocument & _ & Hheight & Hgradients & Hblocks & _).
  - discriminate.
  - repeat constructor; try discriminate; try (vm_compute; discriminate);
      try (apply elem_of_dom; eexists; reflexivity); simpl; lia.
  - split; [lia | vm_compute; discriminate].
  - reflexivity.
  - reflexivity.
  - exists document. split; [exact Hdocument|]. split; [exact Hheight|]. split.
    + apply Forall2_length in Hgradients. now rewrite <- Hgradients.
    + change ((@iterate_synthase_types terminal_classification
                 (figure_of [synthase_c; synthase_A])).2)
        with [("KS", [synthase_A]); ("R", [synthase_c])]%string in Hblocks.
      inversion Hblocks as [|? b1 ? rest1 [Hfirst _] Hrest1]; subst.
      inversion Hrest1 as [|? b2 ? rest2 [Hsecond _] Hrest2]; subst.
      inversion Hrest2; subst. simpl in *. now rewrite Hfirst, Hsecond.
Defined.

(** ** The exceptions of the arithmetic *)

(** An [OverflowError], whatever its message. *)
Definition overflow (e : exn) : Prop := exists msg, e = OverflowError msg.

(** A float that is a number: zero or finite. *)
Definition is_number (x : spec_float) : Prop :=
  match x with
  | S754_zero _ | S754_finite _ _ _ => True
  | _ => False
  end.

(** Rounding never gives NaN. *)
Lemma binary_round_aux_not_nan (sign : bool) (m e : Z) (l : location) :
  0 <= m -> binary_round_aux Float.prec Float.emax sign m e l <> S754_nan.
Proof.
  intros Hm. unfold binary_round_aux, shr_fexp. rewrite fexp_eq.
  set (mrs := shr_record_of_loc m l).
  pose proof (shr_digits mrs e (fexp64 (Zdigits2 m + e) - e)) as Hshr.
  unfold mrs in Hshr at 1. rewrite shr_m_of_loc in Hshr. specialize (Hshr Hm).
  destruct (shr mrs e (fexp64 (Zdigits2 m + e) - e)) as [mrs1 e1].
  destruct Hshr as (Hm1 & _).
  set (m2 := round_nearest_even (shr_m mrs1) (loc_of_shr_record mrs1)).
  pose proof (round_nearest_even_bounds (shr_m mrs1) (loc_of_shr_record mrs1) Hm1) as Hm2.
  fold m2 in Hm2.
  pose proof (shr_digits (shr_record_of_loc m2 loc_Exact) e1
                (fexp64 (Zdigits2 m2 + e1) - e1)) as Hshr.
  rewrite shr_m_of_loc in Hshr. specialize (Hshr ltac:(lia)).
  rewrite fexp_eq.
  destruct (shr (shr_record_of_loc m2 loc_Exact) e1 (fexp64 (Zdigits2 m2 + e1) - e1))
    as [mrs3 e3].
  destruct Hshr as (Hm3 & _).
  destruct (shr_m mrs3) as [|p|p]; [discriminate| |lia].
  destruct (e3 <=? Float.emax - Float.prec); discriminate.
Qed.

Lemma SFdiv_finite_not_nan (sa sb : bool) (a b : positive) (ea eb : Z) :
  SFdiv Float.prec Float.emax (S754_finite sa a ea) (S754_finite sb b eb) <> S754_nan.
Proof.
  unfold SFdiv, SFdiv_core_binary.
  match goal with
  | |- context [Z.div_eucl ?m' (Zpos b)] =>
      assert (Hm' : 0 <= m');
      [|pose proof (Z.div_eucl_eq m' (Zpos b) ltac:(lia)) as Heucl;
        pose proof (Z.mod_pos_bound m' (Zpos b) ltac:(lia)) as Hmod;
        unfold Z.modulo in Hmod;
        destruct (Z.div_eucl m' (Zpos b)) as [q r]]
  end.
  - match goal with |- 0 <= match ?s with _ => _ end => destruct s as [|p|p] end;
      [lia | apply Z.shiftl_nonneg; lia | lia].
  - apply binary_round_aux_not_nan. nia.
Qed.

(** The quotient of two [int]s is a number, or the division raises
    [OverflowError]. *)
Lemma int_truediv_number (a b : Z) (x : spec_float) :
  Float.int_truediv a b = Ok x -> is_number x.
Proof.
  unfold Float.int_truediv. destruct (decide (b = 0)); [discriminate|].
  pose proof (SFdiv_finite_not_nan) as Hnan.
  destruct a as [|pa|pa], b as [|pb|pb]; try contradiction; simpl Float.exact;
    try (intros Heq; inversion Heq; exact I);
    match goal with
    | |- context [SFdiv _ _ ?u ?v] =>
        specialize (Hnan _ _ _ _ _ _ : SFdiv Float.prec Float.emax u v <> S754_nan);
        destruct (SFdiv Float.prec Float.emax u v); intros Heq; inversion Heq; subst;
        try exact I; try contradiction
    end.
Qed.

Lemma int_truediv_error (a b : Z) (e : exn) :
  b <> 0 -> Float.int_truediv a b = Raise e -> overflow e.
Proof.
  intros Hb. unfold Float.int_truediv. destruct (decide (b = 0)); [contradiction|].
  destruct (SFdiv Float.prec Float.emax (Float.exact a) (Float.exact b));
    intros Heq; inversion Heq. eexists. reflexivity.
Qed.

Lemma mul_number (x : spec_float) (sy : bool) (my : positive) (ey : Z) :
  is_number x -> Float.mul x (S754_finite sy my ey) <> S754_nan.
Proof.
  destruct x as [s|s| |s m e]; simpl; try contradiction; intros _; [discriminate|].
  apply binary_round_aux_not_nan. lia.
Qed.

Lemma to_float_error (n : number) (e : exn) :
  Number.to_float n = Raise e -> overflow e.
Proof.
  destruct n as [z|x]; simpl; [|discriminate]. unfold Float.of_int.
  destruct (binary_normalize Float.prec Float.emax z 0 false);
    intros Heq; inversion Heq. eexists. reflexivity.
Qed.

Lemma arith_error (fz : Z -> Z -> Z) (ff : spec_float -> spec_float -> spec_float)
    (a b : number) (e : exn) :
  Number.arith fz ff a b = Raise e -> overflow e.
Proof.
  unfold Number.arith.
  destruct a as [x|x], b as [y|y]; try discriminate;
    repeat match goal with
           | |- context [Number.to_float ?n] =>
               let H := fresh "H" in
               destruct (Number.to_float n) eqn:H;
               [cbn [mbind result_bind]
               |cbn [mbind result_bind]; intros Heq; inversion Heq; subst;
                eapply to_float_error; eassumption]
           end; discriminate.
Qed.

Lemma truediv_int_error (a : number) (z : Z) (e : exn) :
  z <> 0 -> Z.abs z < 2 ^ 53 -> Number.truediv a (Int z) = Raise e -> overflow e.
Proof.
  intros Hz Hsmall. destruct a as [x|x]; simpl.
  - destruct (Float.int_truediv x z) eqn:Hdiv; simpl; [discriminate|].
    intros Heq. inversion Heq; subst. eapply int_truediv_error; eauto.
  - destruct (Float.of_int z) as [y|e'] eqn:Hy; cbn [mbind result_bind].
    + assert (Hfinite : exists s m ex, y = S754_finite s m ex).
      { destruct z as [|p|p]; [contradiction| |].
        - destruct (of_int_exact p ltac:(lia)) as (m & k & Hof & _).
          rewrite Hof in Hy. inversion Hy. eauto.
        - unfold Float.of_int, binary_normalize in Hy.
          destruct (of_int_exact p ltac:(lia)) as (m & k & Hof & _).
          unfold Float.of_int, binary_normalize in Hof.
          unfold binary_round in *.
          destruct (shl_align p 0 _) as [mz ez].
          pose proof (binary_round_aux_not_nan true (Zpos mz) ez loc_Exact ltac:(lia)).
          destruct (binary_round_aux Float.prec Float.emax false (Zpos mz) ez loc_Exact)
            as [s|s| |s m' e'] eqn:Hpos; try discriminate.
          revert Hy Hpos. unfold binary_round_aux.
          destruct (shr_fexp _ _ _ _ _) as [mrs1 e1].
          destruct (shr_fexp _ _ _ _ _) as [mrs2 e2].
          destruct (shr_m mrs2); try discriminate.
          destruct (e2 <=? _); try discriminate.
          intros Hy _. inversion Hy. eauto. }
      destruct Hfinite as (s & m & ex & ->). discriminate.
    + intros Heq. inversion Heq; subst.
      apply (to_float_error (Int z)). exact Hy.
Qed.

(** With a sequence, the polygon generator raises nothing but
    [OverflowError]. *)
Lemma generate_synthase_polygon_error (synthase : Synthase.t)
    (scale_factor info_fsize arrow_height : number) (e : exn) :
  Synthase.sequence synthase <> "" ->
  generate_synthase_polygon synthase scale_factor info_fsize arrow_height = Raise e ->
  overflow e.
Proof.
  intros Hsequence. unfold generate_synthase_polygon, no_sequence.
  destruct (decide (Synthase.sequence synthase = "")); [contradiction|].
  unfold Number.mul, Number.add, Number.sub.
  repeat match goal with
         | |- context [mbind _ (Number.arith ?fz ?ff ?a ?b)] =>
             let H := fresh "H" in
             destruct (Number.arith fz ff a b) eqn:H;
             [cbn [mbind result_bind]
             |cbn [mbind result_bind]; intros Heq; inversion Heq; subst;
              eapply arith_error; eassumption]
         | |- context [mbind _ (Number.truediv ?a (Int 2))] =>
             let H := fresh "H" in
             destruct (Number.truediv a (Int 2)) eqn:H;
             [cbn [mbind result_bind]
             |cbn [mbind result_bind]; intros Heq; inversion Heq; subst;
              eapply (truediv_int_error a 2); [lia | simpl; lia | eassumption]]
         end.
  discriminate.
Qed.

Lemma polygon_block_loop_error (group : list Synthase.t) (scale_factor : spec_float)
    (arrow_spacing arrow_height info_fsize : Z) (e : exn) :
  Forall (fun s => Synthase.sequence s <> "") group ->
  forall drawn offset,
    polygon_block_loop group scale_factor arrow_spacing arrow_height info_fsize
      drawn offset = Raise e ->
    overflow e.
Proof.
  induction 1 as [|s group Hs _ IH]; intros drawn offset; simpl; [discriminate|].
  destruct (generate_synthase_polygon s _ _ _) as [p|e'] eqn:Hp; cbn [mbind result_bind].
  - apply IH.
  - intros Heq. inversion Heq; subst.
    eapply generate_synthase_polygon_error; eauto.
Qed.

Lemma visualise_loop_error (groups : list (string * list Synthase.t))
    (scale_factor : spec_float)
    (arrow_height arrow_spacing block_spacing header_fsize info_fsize : Z) (e : exn) :
  Forall (fun group => Forall (fun s => Synthase.sequence s <> "") group.2) groups ->
  forall blocks offset,
    visualise_loop groups scale_factor arrow_height arrow_spacing block_spacing
      header_fsize info_fsize blocks offset = Raise e ->
    overflow e.
Proof.
  induction 1 as [|[subtype group] groups Hgroup _ IH]; intros blocks offset;
    cbn [visualise_loop]; [discriminate|].
  unfold build_polygon_block.
  destruct (polygon_block_loop group _ _ _ _ _ _) as [[drawn height]|e'] eqn:Hloop;
    cbn [mbind result_bind].
  - apply IH.
  - intros Heq. inversion Heq; subst.
    eapply polygon_block_loop_error; eauto.
Qed.

(** For a sequence with residues the percentage raises nothing but
    [OverflowError]. *)
Lemma percentage_error (position sequence_length : Z) (e : exn) :
  sequence_length <> 0 ->
  percentage position sequence_length = Raise e -> overflow e.
Proof.
  intros Hlen. unfold percentage.
  destruct (Float.int_truediv position sequence_length) as [ratio|e'] eqn:Hratio;
    cbn [mbind result_bind].
  - rewrite of_int_100. cbn [mbind result_bind].
    pose proof (mul_number ratio false 7036874417766400 (-46)
                  (int_truediv_number _ _ _ Hratio)) as Hnan.
    fold hundred in Hnan.
    destruct (Float.mul ratio hundred); simpl; try discriminate; try contradiction.
    intros Heq. inversion Heq. eexists. reflexivity.
  - intros Heq. inversion Heq; subst. eapply int_truediv_error; eauto.
Qed.

(** A lookup of the colour of a domain type that is not in the registry. *)
Definition unknown_type (registry : gmap string string) (domains : list Domain.t)
    (e : exn) : Prop :=
  exists d,
    d ∈ domains /\ (Domain.type d ∉ dom registry) /\ e = KeyError (Domain.type d).

Lemma domain_stops_error (registry : gmap string string) (sequence_length : Z)
    (domain : Domain.t) (e : exn) :
  sequence_length <> 0 ->
  domain_stops registry sequence_length domain = Raise e ->
  overflow e \/
  ((Domain.type domain ∉ dom registry) /\ e = KeyError (Domain.type domain)).
Proof.
  intros Hlen. unfold domain_stops.
  destruct (percentage (Domain.start domain) sequence_length) as [sp|e'] eqn:Hs;
    cbn [mbind result_bind].
  2:{ intros Heq. inversion Heq; subst. left. eapply percentage_error; eauto. }
  destruct (percentage (Domain.end_ domain) sequence_length) as [ep|e'] eqn:He;
    cbn [mbind result_bind].
  2:{ intros Heq. inversion Heq; subst. left. eapply percentage_error; eauto. }
  unfold colour_of.
  destruct (registry !! Domain.type domain) as [colour|] eqn:Hcolour;
    cbn [mbind result_bind]; [discriminate|].
  intros Heq. inversion Heq; subst. right. split; [|reflexivity].
  now apply not_elem_of_dom.
Qed.

Lemma gradient_loop_error (registry : gmap string string) (sequence_length : Z)
    (domains : list Domain.t) (e : exn) :
  sequence_length <> 0 ->
  forall stops,
    gradient_loop registry sequence_length domains stops = Raise e ->
    overflow e \/ unknown_type registry domains e.
Proof.
  intros Hlen. induction domains as [|d domains IH]; intros stops; simpl; [discriminate|].
  destruct (domain_stops registry sequence_length d) as [entry|e'] eqn:Hentry;
    cbn [mbind result_bind].
  - intros Hloop. destruct (IH _ Hloop) as [Hover|(d' & Hin & Hd')]; [now left|].
    right. exists d'. split; [now right | exact Hd'].
  - intros Heq. inversion Heq; subst.
    destruct (domain_stops_error _ _ _ _ Hlen Hentry) as [Hover|Hkey]; [now left|].
    right. exists d. split; [left | exact Hkey].
Qed.

Lemma generate_synthase_gradient_error (f : Figure) (s : Synthase.t) (e : exn) :
  Synthase.sequence s <> "" ->
  generate_synthase_gradient f s = Raise e ->
  overflow e \/ unknown_type (colours f) (Synthase.domains s) e.
Proof.
  intros Hs. unfold generate_synthase_gradient, gradient_stops, no_sequence.
  destruct (decide (Synthase.sequence s = "")); [contradiction|].
  destruct (gradient_loop _ _ _ _) as [stops|e'] eqn:Hloop; cbn [mbind result_bind];
    [discriminate|].
  intros Heq. inversion Heq; subst.
  eapply gradient_loop_error; [|exact Hloop].
  pose proof (sequence_length_pos s Hs) as Hpos.
  unfold Synthase.sequence_length in Hpos. lia.
Qed.

Lemma comprehension_error {A B} (g : A -> result B) (l : list A) (e : exn) :
  comprehension g l = Raise e -> exists x, x ∈ l /\ g x = Raise e.
Proof.
  induction l as [|x l IH]; simpl; [discriminate|].
  destruct (g x) as [y|e'] eqn:Hx; cbn [mbind result_bind].
  - destruct (comprehension g l) as [ys|e'] eqn:Hl; cbn [mbind result_bind];
      [discriminate|].
    intros Heq. inversion Heq; subst.
    destruct (IH eq_refl) as (x' & Hin & Hx'). exists x'. split; [now right | exact Hx'].
  - intros Heq. inversion Heq; subst. exists x. split; [left | exact Hx].
Qed.

(** What [calculate_scale_factor] can raise. *)
Lemma calculate_scale_factor_error (f : Figure) (width : Z) (e : exn) :
  calculate_scale_factor f width = Raise e ->
  (Exists (fun s => Synthase.sequence s = "") (synthases f) /\
   e = EmptySequenceError_figure) \/
  (width < 0 /\ e = InvalidWidthError) \/
  (synthases f = [] /\ e = ValueError "max() arg is an empty sequence") \/
  overflow e.
Proof.
  unfold calculate_scale_factor.
  destruct (existsb no_sequence (synthases f)) eqn:Hempty.
  { intros Heq. inversion Heq. left. split; [|reflexivity].
    now apply existsb_no_sequence. }
  destruct (Z.ltb_spec width 0) as [Hneg|_].
  { intros Heq. inversion Heq. right. left. now split. }
  destruct (synthases f) as [|x l] eqn:Hl.
  { simpl. intros Heq. inversion Heq. right. right. left. now split. }
  destruct (py_max_spec Synthase.sequence_length (x :: l)) as (largest & Hmax & Hin & _);
    [discriminate|].
  rewrite Hmax. cbn [mbind result_bind].
  intros Hdiv. right. right. right.
  eapply int_truediv_error; [|exact Hdiv].
  apply existsb_no_sequence_false in Hempty. rewrite Forall_forall in Hempty.
  pose proof (sequence_length_pos largest (Hempty _ Hin)). lia.
Qed.

Section failures.
Context `{Classification}.

(** X12. What [visualise] can raise: the empty sequence error of the
    figure, when a synthase has no sequence; the width error, when the
    width is negative; the [ValueError] of [max], when the figure is empty;
    [OverflowError], from the arithmetic on numbers too large for a float;
    and [KeyError] with a domain type that has no colour in the registry.
    It raises nothing else: in particular no division by zero and not the
    empty sequence error of the gradient or polygon generator. *)
Theorem visualise_failures (f : Figure)
    (arrow_height arrow_spacing block_spacing header_fsize info_fsize width : Z)
    (e : exn) :
  (visualise f arrow_height arrow_spacing block_spacing header_fsize info_fsize
     width).2 = Raise e ->
  (Exists (fun s => Synthase.sequence s = "") (synthases f) /\
   e = EmptySequenceError_figure) \/
  (width < 0 /\ e = InvalidWidthError) \/
  (synthases f = [] /\ e = ValueError "max() arg is an empty sequence") \/
  (exists msg, e = OverflowError msg) \/
  (exists s d,
     s ∈ synthases f /\ d ∈ Synthase.domains s /\
     (Domain.type d ∉ dom (colours f)) /\ e = KeyError (Domain.type d)).
Proof.
  unfold visualise.
  destruct (calculate_scale_factor f width) as [scale_factor|e'] eqn:Hscale.
  2:{ cbn [snd]. intros Heq. inversion Heq; subst.
      destruct (calculate_scale_factor_error _ _ _ Hscale) as [?|[?|[?|?]]]; auto. }
  assert (Hall : Forall (fun s => Synthase.sequence s <> "") (synthases f)).
  { apply existsb_no_sequence_false. unfold calculate_scale_factor in Hscale.
    destruct (existsb no_sequence (synthases f)); [discriminate | reflexivity]. }
  pose proof (iterate_synthase_types_perm f) as Hperm.
  pose proof (groupby_concat subtype (synthases (iterate_synthase_types f).1)) as Hconcat.
  change (groupby subtype (synthases (iterate_synthase_types f).1))
    with (iterate_synthase_types f).2 in Hconcat.
  assert (Hcolours : colours (iterate_synthase_types f).1 = colours f) by reflexivity.
  destruct (iterate_synthase_types f) as [f' groups]. cbn [fst snd] in *.
  assert (Hall' : Forall (fun s => Synthase.sequence s <> "") (synthases f')).
  { now rewrite Hperm. }
  destruct (visualise_loop groups _ _ _ _ _ _ _ _) as [[blocks offset]|e'] eqn:Hloop;
    cbn [mbind result_bind].
  2:{ intros Heq. inversion Heq; subst. right. right. right. left.
      eapply visualise_loop_error; [|exact Hloop].
      apply Forall_concat_groups. now rewrite Hconcat. }
  destruct (comprehension _ _) as [gradients|e'] eqn:Hgradients;
    cbn [mbind result_bind]; [discriminate|].
  intros Heq. inversion Heq; subst.
  apply comprehension_error in Hgradients as (s & Hin & Hs).
  rewrite Forall_forall in Hall'.
  destruct (generate_synthase_gradient_error _ _ _ (Hall' _ Hin) Hs)
    as [Hover|(d & Hd & Htype & ->)].
  - right. right. right. left. exact Hover.
  - right. right. right. right. exists s, d.
    rewrite Hcolours in Htype. rewrite Hperm in Hin. auto.
Qed.
End failures.

Lemma visualise_failures_witness :
  (@visualise_default terminal_classification (figure_of [synthase_X]) 600).2
  = Raise (KeyError "XX") /\
  exists s d,
    s ∈ [synthase_X] /\ d ∈ Synthase.domains s /\
    (Domain.type d ∉ dom default_colours) /\
    KeyError "XX" = KeyError (Domain.type d).
Proof.
  assert (Hraise : (@visualise_default terminal_classification
                      (figure_of [synthase_X]) 600).2 = Raise (KeyError "XX"))
    by (vm_compute; reflexivity).
  split; [exact Hraise|].
  destruct (@visualise_failures terminal_classification (figure_of [synthase_X])
              12 4 16 15 12 600 (KeyError "XX") Hraise)
    as [[_ He]|[[_ He]|[[_ He]|[[msg He]|Hkey]]]]; try discriminate.
  exact Hkey.
Defined.

(** ** The sign of the scale factor *)

Lemma has_sequence_digits (s : Synthase.t) :
  has_sequence s ->
  exists b, Synthase.sequence_length s = Zpos b /\ Zdigits2 (Zpos b) <= 64.
Proof.
  intros [Hs Hlen]. pose proof (sequence_length_pos s Hs) as Hpos.
  unfold Synthase.sequence_length in *.
  destruct (len (Synthase.sequence s)) as [|b|b]; try lia.
  exists b. split; [reflexivity|].
  apply Zdigits2_le_pow; [lia|]. unfold sys_maxsize in Hlen.
  assert (2 ^ 63 < 2 ^ 64) by (apply Z.pow_lt_mono_r; lia). lia.
Qed.

(** X13. Only a negative width is refused. For a figure that is not empty
    and whose synthases have sequences, [calculate_scale_factor] returns for
    every width from 0 on: a negative float for the widths 0 and 1, zero
    for the width 2, and a positive float for a larger width. *)
Theorem scale_factor_sign (f : Figure) (width : Z) :
  synthases f <> [] ->
  Forall has_sequence (synthases f) ->
  0 <= width < 2 ^ 1000 ->
  exists x,
    calculate_scale_factor f width = Ok x /\
    match width ?= 2 with
    | Lt => exists m e, x = S754_finite true m e
    | Eq => x = S754_zero false
    | Gt => exists m e, x = S754_finite false m e
    end.
Proof.
  intros Hnonempty Hall Hwidth.
  destruct (py_max_spec Synthase.sequence_length (synthases f) Hnonempty)
    as (largest & Hmax & Hin & _).
  rewrite Forall_forall in Hall.
  destruct (has_sequence_digits largest (Hall _ Hin)) as (b & Hb & Hdigits).
  assert (Hscale : calculate_scale_factor f width = Float.int_truediv (width - 2) (Zpos b)).
  { unfold calculate_scale_factor.
    assert (Hseq : existsb no_sequence (synthases f) = false).
    { apply existsb_no_sequence_false, Forall_forall. intros s Hs. now apply Hall. }
    rewrite Hseq. destruct (Z.ltb_spec width 0) as [?|_]; [lia|].
    rewrite Hmax. cbn [mbind result_bind]. now rewrite Hb. }
  rewrite Hscale. unfold Float.int_truediv.
  destruct (decide (Zpos b = 0)) as [?|_]; [lia|].
  assert (Hpow : 2 ^ 1000 < 2 ^ 1001) by (apply Z.pow_lt_mono_r; lia).
  destruct (width - 2) as [|a|a] eqn:Ha; simpl Float.exact.
  - exists (S754_zero false). split; [reflexivity|].
    replace width with 2 by lia. reflexivity.
  - destruct (div_value false false a b) as (mx & ex & s & Hdiv & _); [|exact Hdigits|].
    { apply Zdigits2_le_pow; lia. }
    rewrite Hdiv. simpl. eexists. split; [reflexivity|].
    destruct (Z.compare_spec width 2); try lia. eauto.
  - destruct (div_value true false a b) as (mx & ex & s & Hdiv & _); [|exact Hdigits|].
    { apply Zdigits2_le_pow; lia. }
    rewrite Hdiv. simpl. eexists. split; [reflexivity|].
    destruct (Z.compare_spec width 2); try lia. eauto.
Qed.

Lemma scale_factor_sign_witness :
  (exists m e, calculate_scale_factor (figure_of [synthase_A]) 0 = Ok (S754_finite true m e)) /\
  calculate_scale_factor (figure_of [synthase_A]) 2 = Ok (S754_zero false).
Proof.
  split; [|reflexivity].
  destruct (scale_factor_sign (figure_of [synthase_A]) 0) as (x & Hx & m & e & ->).
  - discriminate.
  - repeat constructor; [discriminate | vm_compute; discriminate].
  - split; [lia|]. apply Z.pow_pos_nonneg; lia.
  - exists m, e. exact Hx.
Defined.

(** ** The accuracy of the percentages *)

(** A quotient multiplied by a third number: the product is within the
    [2 ^ 50]-th part of the exact one. *)
Lemma div_mul_value (a b c : positive) :
  Zdigits2 (Zpos a) <= 900 -> Zdigits2 (Zpos b) <= 64 -> Zpos c < 2 ^ 53 ->
  exists mx ex ml k my ey,
    SFdiv Float.prec Float.emax (S754_finite false a 0) (S754_finite false b 0)
    = S754_finite false mx ex /\
    Float.of_int (Zpos c) = Ok (S754_finite false ml (- k)) /\
    Float.mul (S754_finite false mx ex) (S754_finite false ml (- k))
    = S754_finite false my ey /\
    0 <= ey + 1074 /\
    Z.abs (Zpos my * 2 ^ (ey + 1074) * Zpos b - Zpos a * Zpos c * 2 ^ 1074) * 2 ^ 50
    <= Zpos a * Zpos c * 2 ^ 1074.
Proof.
  intros Hda Hdb Hc.
  destruct (div_value false false a b) as (mx & ex & s & Hdiv & Hs & Hex & Hmx & Hvalue);
    [lia | exact Hdb |].
  destruct (of_int_exact c Hc) as (ml & k & Hfloat & Hkdef & Hk & Hml & Hmlrange).
  assert (Hd1 : 1 <= Zdigits2 (Zpos a)) by (simpl; lia).
  assert (Hd2 : 1 <= Zdigits2 (Zpos b)) by (simpl; lia).
  destruct (mul_value false false mx ml ex (- k) Hmx Hmlrange)
    as (my & ey & Hmul & Hey & Hmy & Hprod); [lia|].
  exists mx, ex, ml, k, my, ey.
  split; [exact Hdiv|]. split; [exact Hfloat|]. split; [exact Hmul|].
  split; [lia|].
  set (t := ey - (ex + - k)) in *.
  set (U := 2 ^ (ex + s)) in *.
  assert (HU : 0 < U) by (apply Z.pow_pos_nonneg; lia).
  assert (Ht : 0 < 2 ^ t) by (apply Z.pow_pos_nonneg; unfold t; lia).
  assert (Hscale : 2 ^ (ey + 1074) = 2 ^ t * U * 2 ^ (1074 - s - k) /\
                   2 ^ 1074 = 2 ^ s * 2 ^ k * 2 ^ (1074 - s - k)).
  { unfold U, t. rewrite <- !Z.pow_add_r by lia. split; f_equal; lia. }
  destruct Hscale as [Hscale1 Hscale2]. rewrite Hscale1, Hscale2.
  set (G := 2 ^ (1074 - s - k)).
  assert (HG : 0 < G) by (apply Z.pow_pos_nonneg; lia).
  assert (Hpk : 0 < 2 ^ k) by (apply Z.pow_pos_nonneg; lia).
  assert (Hps : 0 < 2 ^ s) by (apply Z.pow_pos_nonneg; lia).
  set (Y := Zpos my * (2 ^ t * U) * Zpos b).
  set (P := Zpos mx * U * Zpos ml * Zpos b).
  set (A := Zpos a * 2 ^ s * Zpos ml).
  assert (HYP : Z.abs (Y - P) <= 2 ^ t * U * Zpos b /\ 2 ^ 52 * (2 ^ t * U * Zpos b) <= Y).
  { unfold Y, P. split.
    - replace (Zpos my * (2 ^ t * U) * Zpos b - Zpos mx * U * Zpos ml * Zpos b)
        with ((Zpos my * 2 ^ t - Zpos mx * Zpos ml) * (U * Zpos b)) by ring.
      rewrite Z.abs_mul, (Z.abs_eq (U * Zpos b)) by lia.
      replace (2 ^ t * U * Zpos b) with (2 ^ t * (U * Zpos b)) by ring.
      apply Z.mul_le_mono_nonneg_r; [lia | exact Hprod].
    - replace (Zpos my * (2 ^ t * U) * Zpos b) with (Zpos my * (2 ^ t * U * Zpos b)) by ring.
      apply Z.mul_le_mono_nonneg_r; [|lia].
      apply Z.mul_nonneg_nonneg; [apply Z.mul_nonneg_nonneg|]; lia. }
  assert (HPA : Z.abs (P - A) <= 2 * (U * Zpos b * Zpos ml) /\
                2 ^ 52 * (U * Zpos b * Zpos ml) <= P).
  { unfold P, A. split.
    - replace (Zpos mx * U * Zpos ml * Zpos b - Zpos a * 2 ^ s * Zpos ml)
        with ((Zpos mx * U * Zpos b - Zpos a * 2 ^ s) * Zpos ml) by ring.
      rewrite Z.abs_mul, (Z.abs_eq (Zpos ml)) by lia.
      replace (2 * (U * Zpos b * Zpos ml)) with (2 * U * Zpos b * Zpos ml) by ring.
      apply Z.mul_le_mono_nonneg_r; [lia | exact Hvalue].
    - replace (Zpos mx * U * Zpos ml * Zpos b) with (Zpos mx * (U * Zpos b * Zpos ml)) by ring.
      apply Z.mul_le_mono_nonneg_r; [|lia].
      apply Z.mul_nonneg_nonneg; [apply Z.mul_nonneg_nonneg|]; lia. }
  assert (HYA : Z.abs (Y - A) * 2 ^ 50 <= A).
  { destruct HYP as [HYP1 HYP2], HPA as [HPA1 HPA2].
    exact (relative_error_chain Y P A _ _ HYP1 HYP2 HPA1 HPA2). }
  replace (Zpos my * (2 ^ t * U * G) * Zpos b - Zpos a * Zpos c * (2 ^ s * 2 ^ k * G))
    with ((Y - A) * G) by (unfold Y, A; rewrite Hml; ring).
  rewrite Z.abs_mul, (Z.abs_eq G) by lia.
  replace (Zpos a * Zpos c * (2 ^ s * 2 ^ k * G)) with (A * G)
    by (unfold A; rewrite Hml; ring).
  replace (Z.abs (Y - A) * G * 2 ^ 50) with (Z.abs (Y - A) * 2 ^ 50 * G) by ring.
  apply Z.mul_le_mono_nonneg_r; lia.
Qed.

(** [int] of a positive float, from its multiple of [2 ^ -1074]. *)
Lemma shiftl_quanta (m : positive) (e : Z) :
  0 <= e + 1074 ->
  Z.shiftl (Zpos m) e = (Zpos m * 2 ^ (e + 1074)) / 2 ^ 1074.
Proof.
  intros He. destruct (Z.le_gt_cases 0 e) as [Hpos|Hneg].
  - rewrite Z.shiftl_mul_pow2 by lia.
    rewrite Z.pow_add_r by lia. rewrite Z.mul_assoc.
    rewrite Z.div_mul; [reflexivity|]. apply Z.pow_nonzero; lia.
  - rewrite <- (Z.opp_involutive e) at 1. rewrite Z.shiftl_opp_r.
    rewrite Z.shiftr_div_pow2 by lia.
    replace (2 ^ 1074) with (2 ^ (- e) * 2 ^ (e + 1074))
      by (rewrite <- Z.pow_add_r by lia; f_equal; lia).
    rewrite Z.div_mul_cancel_r; [reflexivity| |]; apply Z.pow_nonzero; lia.
Qed.

(** A number within less than one [L]-th of [N / L] has the floor of
    [N / L], or one less when [L] divides [N]. *)
Lemma floor_near (Q D L N F q : Z) :
  0 < D -> 0 < L ->
  F * D <= Q < (F + 1) * D ->
  q * L <= N < (q + 1) * L ->
  Z.abs (Q * L - N * D) < D ->
  q - 1 <= F <= q /\ (q * L < N -> F = q).
Proof.
  intros HD HL [HF1 HF2] [Hq1 Hq2] Hnear.
  assert (Hup : F <= q).
  { destruct (Z.le_gt_cases F q) as [?|Hgt]; [assumption|exfalso].
    assert (H1 : (q + 1) * D <= F * D) by (apply Z.mul_le_mono_nonneg_r; lia).
    assert (H2 : (q + 1) * D * L <= Q * L) by (apply Z.mul_le_mono_nonneg_r; lia).
    assert (H3 : (N + 1) * D <= (q + 1) * L * D) by (apply Z.mul_le_mono_nonneg_r; lia).
    lia. }
  split; [split; [|exact Hup]|].
  - destruct (Z.le_gt_cases (q - 1) F) as [?|Hlt]; [assumption|exfalso].
    assert (H1 : (F + 1) * D <= (q - 1) * D) by (apply Z.mul_le_mono_nonneg_r; lia).
    assert (H2 : (Q + 1) * L <= (q - 1) * D * L) by (apply Z.mul_le_mono_nonneg_r; lia).
    assert (H3 : q * L * D <= N * D) by (apply Z.mul_le_mono_nonneg_r; lia).
    assert (H4 : 1 * D <= L * D) by (apply Z.mul_le_mono_nonneg_r; lia).
    lia.
  - intros Hrem. destruct (Z.eq_dec F q) as [?|Hne]; [assumption|exfalso].
    assert (H1 : (F + 1) * D <= q * D) by (apply Z.mul_le_mono_nonneg_r; lia).
    assert (H2 : (Q + 1) * L <= q * D * L) by (apply Z.mul_le_mono_nonneg_r; lia).
    assert (H3 : (q * L + 1) * D <= N * D) by (apply Z.mul_le_mono_nonneg_r; lia).
    lia.
Qed.

(** A number divided by itself is [1.0]. *)
Lemma int_truediv_self (p : positive) : Float.int_truediv (Zpos p) (Zpos p) = Ok one.
Proof.
  unfold Float.int_truediv. destruct (decide (Zpos p = 0)) as [?|_]; [lia|].
  simpl Float.exact. unfold SFdiv, SFdiv_core_binary.
  replace (Zdigits2 (Zpos p) + 0 - (Zdigits2 (Zpos p) + 0)) with 0 by lia.
  change (Z.min (fexp Float.prec Float.emax 0) (0 - 0)) with (-53).
  change (0 - 0 - -53) with 53. cbv iota.
  rewrite Z.shiftl_mul_pow2 by lia.
  assert (Hdiv : Z.div_eucl (Zpos p * 2 ^ 53) (Zpos p) = (2 ^ 53, 0)).
  { pose proof (Z.div_mul (2 ^ 53) (Zpos p) ltac:(lia)) as Hq.
    pose proof (Z.mod_mul (2 ^ 53) (Zpos p) ltac:(lia)) as Hr.
    rewrite (Z.mul_comm (2 ^ 53)) in Hq, Hr.
    unfold Z.div, Z.modulo in Hq, Hr.
    destruct (Z.div_eucl (Zpos p * 2 ^ 53) (Zpos p)) as [q r]. simpl in Hq, Hr.
    now subst. }
  rewrite Hdiv.
  assert (Hloc : new_location (Zpos p) 0 = loc_Exact).
  { unfold new_location, new_location_even, new_location_odd.
    destruct (Z.even (Zpos p)); reflexivity. }
  rewrite Hloc. reflexivity.
Qed.

(** The percentage of a position inside a sequence of fewer than [2 ^ 43]
    residues. *)
Lemma percentage_bounds (position sequence_length : Z) :
  0 <= position <= sequence_length -> 0 < sequence_length < 2 ^ 43 ->
  exists pct,
    percentage position sequence_length = Ok pct /\
    100 * position / sequence_length - 1 <= pct <= 100 * position / sequence_length /\
    ((100 * position) mod sequence_length <> 0 ->
     pct = 100 * position / sequence_length) /\
    0 <= pct <= 100.
Proof.
  intros Hposition Hlength.
  assert (Hq100 : 100 * position / sequence_length <= 100).
  { apply Z.div_le_upper_bound; lia. }
  destruct sequence_length as [|b|b]; try lia.
  destruct position as [|a|a]; try lia.
  - exists 0. split; [reflexivity|].
    rewrite Z.mul_0_r, Z.div_0_l, Z.mod_0_l by lia.
    repeat split; lia || congruence.
  - assert (Hpow : 2 ^ 43 < 2 ^ 64 /\ 2 ^ 43 < 2 ^ 900).
    { split; apply Z.pow_lt_mono_r; lia. }
    destruct (div_mul_value a b 100)
      as (mx & ex & ml & k & my & ey & Hdiv & Hfloat & Hmul & Hey & Herr).
    { apply Zdigits2_le_pow; lia. }
    { apply Zdigits2_le_pow; lia. }
    { simpl. lia. }
    rewrite of_int_100 in Hfloat. inversion Hfloat as [[Hml Hk]].
    rewrite <- Hml, <- Hk in Hmul. fold hundred in Hmul.
    unfold percentage, Float.int_truediv.
    destruct (decide (Zpos b = 0)) as [?|_]; [lia|].
    simpl Float.exact. rewrite Hdiv, of_int_100. cbn [mbind result_bind].
    rewrite Hmul. simpl Float.to_int.
    eexists. split; [reflexivity|].
    rewrite shiftl_quanta by exact Hey.
    set (D := 2 ^ 1074) in *.
    assert (HD : 0 < D) by (apply Z.pow_pos_nonneg; lia).
    set (Q := Zpos my * 2 ^ (ey + 1074)) in *.
    set (N := 100 * Zpos a).
    assert (HN : N < 2 ^ 50).
    { unfold N. change (2 ^ 50) with (128 * 2 ^ 43). lia. }
    assert (Hnear : Z.abs (Q * Zpos b - N * D) < D).
    { replace (Zpos a * 100 * D) with (N * D) in Herr by (unfold N; ring).
      assert (Hlt : N * D < 2 ^ 50 * D) by (apply Z.mul_lt_mono_pos_r; lia).
      assert (H50 : 0 < 2 ^ 50) by (apply Z.pow_pos_nonneg; lia).
      destruct (Z.lt_ge_cases (Z.abs (Q * Zpos b - N * D)) D) as [?|Hge]; [assumption|].
      assert (D * 2 ^ 50 <= Z.abs (Q * Zpos b - N * D) * 2 ^ 50)
        by (apply Z.mul_le_mono_nonneg_r; lia).
      lia. }
    pose proof (Z.mul_div_le Q D HD) as HF1.
    pose proof (Z.mul_succ_div_gt Q D HD) as HF2.
    pose proof (Z.mul_div_le N (Zpos b) ltac:(lia)) as Hq1.
    pose proof (Z.mul_succ_div_gt N (Zpos b) ltac:(lia)) as Hq2.
    destruct (floor_near Q D (Zpos b) N (Q / D) (N / Zpos b)) as [Hbounds Hexact];
      try lia.
    fold N in Hq100 |- *.
    split; [exact Hbounds|]. split.
    + intros Hrem. apply Hexact.
      pose proof (Z.div_mod N (Zpos b) ltac:(lia)) as Hdm.
      pose proof (Z.mod_pos_bound N (Zpos b) ltac:(lia)). lia.
    + split; [|lia]. apply Z.div_pos; [|lia]. unfold Q.
      apply Z.mul_nonneg_nonneg; [lia|]. apply Z.pow_nonneg. lia.
Qed.

(** The ends of the sequence are at 0 and at 100 percent. *)
Lemma percentage_ends (sequence_length : Z) :
  0 < sequence_length ->
  percentage 0 sequence_length = Ok 0 /\
  percentage sequence_length sequence_length = Ok 100.
Proof.
  intros Hlength. destruct sequence_length as [|b|b]; try lia. split.
  - reflexivity.
  - unfold percentage. rewrite int_truediv_self, of_int_100. reflexivity.
Qed.

(** A later position has no smaller percentage. *)
Lemma percentage_monotone (p1 p2 sequence_length pct1 pct2 : Z) :
  0 <= p1 <= p2 -> p2 <= sequence_length -> 0 < sequence_length < 2 ^ 43 ->
  percentage p1 sequence_length = Ok pct1 ->
  percentage p2 sequence_length = Ok pct2 ->
  pct1 <= pct2.
Proof.
  intros Hp1 Hp2 Hlength H1 H2.
  destruct (percentage_bounds p1 sequence_length) as (x1 & Hx1 & Hb1 & _); [lia..|].
  destruct (percentage_bounds p2 sequence_length) as (x2 & Hx2 & Hb2 & He2 & _); [lia..|].
  rewrite H1 in Hx1. rewrite H2 in Hx2. inversion Hx1; inversion Hx2; subst x1 x2.
  assert (Hq : 100 * p1 / sequence_length <= 100 * p2 / sequence_length).
  { apply Z.div_le_mono; lia. }
  destruct (Z.eq_dec (100 * p1 / sequence_length) (100 * p2 / sequence_length))
    as [Heq|Hne]; [|lia].
  destruct (Z.eq_dec ((100 * p2) mod sequence_length) 0) as [Hzero|Hrem].
  - assert (Hsame : p1 = p2).
    { pose proof (Z.div_mod (100 * p2) sequence_length ltac:(lia)) as Hdm2.
      pose proof (Z.div_mod (100 * p1) sequence_length ltac:(lia)) as Hdm1.
      pose proof (Z.mod_pos_bound (100 * p1) sequence_length ltac:(lia)).
      rewrite Heq in Hdm1. lia. }
    subst p2. rewrite H1 in H2. inversion H2. lia.
  - specialize (He2 Hrem). lia.
Qed.

(** X15. For a position inside a sequence of fewer than [2 ^ 43] residues
    the percentage [int(position / length * 100)] is the exact integer
    percentage [100 * position // length] or one less, and it is the exact
    one whenever [length] does not divide [100 * position]; it is 0 at
    position 0 and 100 at the end of the sequence. *)
Theorem percentage_accuracy (position sequence_length : Z) :
  0 <= position <= sequence_length -> 0 < sequence_length < 2 ^ 43 ->
  exists pct,
    percentage position sequence_length = Ok pct /\
    100 * position / sequence_length - 1 <= pct <= 100 * position / sequence_length /\
    ((100 * position) mod sequence_length <> 0 ->
     pct = 100 * position / sequence_length) /\
    (position = 0 -> pct = 0) /\
    (position = sequence_length -> pct = 100).
Proof.
  intros Hposition Hlength.
  destruct (percentage_bounds position sequence_length Hposition Hlength)
    as (pct & Hpct & Hbounds & Hexact & _).
  destruct (percentage_ends sequence_length ltac:(lia)) as [Hfirst Hlast].
  exists pct. repeat split; try assumption; try apply Hbounds.
  - intros ->. rewrite Hfirst in Hpct. now inversion Hpct.
  - intros ->. rewrite Hlast in Hpct. now inversion Hpct.
Qed.

Lemma percentage_accuracy_witness :
  exists pct, percentage 29 100 = Ok pct /\ 28 <= pct <= 29.
Proof.
  destruct (percentage_accuracy 29 100) as (pct & Hpct & Hbounds & _).
  - lia.
  - split; [lia|]. reflexivity.
  - exists pct. split; [exact Hpct|]. exact Hbounds.
Defined.

(** X16. For a synthase with a sequence of fewer than [2 ^ 43] residues
    and valid domain annotations, the stops of every domain lie between 0
    and 100 percent, the start offset is not after the end offset, a domain
    that starts at position 0 starts at 0 percent and a domain that ends at
    the end of the sequence ends at 100 percent. *)
Theorem gradient_offsets_ordered (f : Figure) (synthase : Synthase.t) :
  Synthase.sequence synthase <> "" ->
  len (Synthase.sequence synthase) < 2 ^ 43 ->
  Forall (valid_domain (colours f) (len (Synthase.sequence synthase)))
    (Synthase.domains synthase) ->
  exists entries,
    gradient_stops f synthase = Ok entries /\
    Forall2 (fun domain entry =>
               exists start_pct end_pct colour,
                 entry = [ {| offset := start_pct; stop_color := "white" |};
                           {| offset := start_pct; stop_color := colour |};
                           {| offset := end_pct; stop_color := colour |};
                           {| offset := end_pct; stop_color := "white" |} ] /\
                 0 <= start_pct <= end_pct /\ end_pct <= 100 /\
                 (Domain.start domain = 0 -> start_pct = 0) /\
                 (Domain.end_ domain = len (Synthase.sequence synthase) ->
                  end_pct = 100))
      (Synthase.domains synthase) entries.
Proof.
  intros Hsequence Hlength Hvalid.
  pose proof (sequence_length_pos synthase Hsequence) as Hpos.
  unfold Synthase.sequence_length in Hpos.
  unfold gradient_stops, no_sequence.
  destruct (decide (Synthase.sequence synthase = "")); [contradiction|].
  set (L := len (Synthase.sequence synthase)) in *.
  destruct (gradient_loop_valid _ _ _ Hvalid []) as (entries & Hloop & Hall).
  exists entries. split; [exact Hloop|].
  clear Hloop. induction Hall as [|domain entry domains entries Hentry Hall IH];
    [constructor|].
  inversion Hvalid as [|? ? (Htype & Hstart & Hend) Hvalid']; subst.
  constructor; [|now apply IH].
  destruct (percentage_bounds (Domain.start domain) L) as (sp & Hsp & _ & _ & Hsp');
    [lia..|].
  destruct (percentage_bounds (Domain.end_ domain) L) as (ep & Hep & _ & _ & Hep');
    [lia..|].
  destruct Hentry as (a & b & colour & Ha & Hb & _ & ->).
  rewrite Hsp in Ha. rewrite Hep in Hb. inversion Ha; inversion Hb; subst a b.
  exists sp, ep, colour. split; [reflexivity|].
  destruct (percentage_ends L Hpos) as [Hfirst Hlast].
  repeat split; try lia.
  - eapply (percentage_monotone (Domain.start domain) (Domain.end_ domain) L); eauto; lia.
  - intros H0. rewrite H0, Hfirst in Hsp. now inversion Hsp.
  - intros HL. rewrite HL, Hlast in Hep. now inversion Hep.
Qed.

Lemma gradient_offsets_ordered_witness :
  exists start_pct end_pct colour,
    gradient_stops (figure_of [synthase_A]) synthase_A
    = Ok [[ {| offset := start_pct; stop_color := "white" |};
            {| offset := start_pct; stop_color := colour |};
            {| offset := end_pct; stop_color := colour |};
            {| offset := end_pct; stop_color := "white" |} ]] /\
    0 <= start_pct <= end_pct /\ end_pct <= 100.
Proof.
  destruct (gradient_offsets_ordered (figure_of [synthase_A]) synthase_A)
    as (entries & Hentries & Hall).
  - discriminate.
  - reflexivity.
  - constructor; [|constructor]. split; [|split].
    + apply elem_of_dom. eexists. reflexivity.
    + simpl. lia.
    + vm_compute. discriminate.
  - inversion Hall as [|? entry ? rest (sp & ep & colour & -> & Horder & Hend & _) Hrest];
      subst.
    inversion Hrest; subst.
    exists sp, ep, colour. split; [exact Hentries|]. split; assumption.
Defined.

(** ** The gradient against the percentages of the spec *)

(** How far an offset of the gradient is from the percentage of the spec: it
    is that percentage or one less, and it is that percentage when the
    division of [100 * position] by the length leaves a remainder. *)
Definition near_floor (position sequence_length pct : Z) : Prop :=
  floor_percentage position sequence_length - 1 <= pct
  <= floor_percentage position sequence_length /\
  ((100 * position) mod sequence_length <> 0 ->
   pct = floor_percentage position sequence_length).

(** The four stops of a domain, their offsets measured against the spec. *)
Definition stops_near_floor (registry : gmap string string) (sequence_length : Z)
    (domain : Domain.t) (entry : list stop) : Prop :=
  exists start_pct end_pct colour,
    near_floor (Domain.start domain) sequence_length start_pct /\
    near_floor (Domain.end_ domain) sequence_length end_pct /\
    registry !! Domain.type domain = Some colour /\
    entry = [ {| offset := start_pct; stop_color := "white" |};
              {| offset := start_pct; stop_color := colour |};
              {| offset := end_pct; stop_color := colour |};
              {| offset := end_pct; stop_color := "white" |} ].

(** The [linearGradient] element of the synthase [header]: the opening tag,
    the stop elements one per line, the closing tag. *)
Definition linear_gradient (header : string) (stops : list stop) : string :=
  join newline
    [ "<linearGradient id=" +:+ dquote +:+ header +:+ "_doms" +:+ dquote +:+
      " x1=" +:+ dquote +:+ "0%" +:+ dquote +:+ " y1=" +:+ dquote +:+ "0%" +:+ dquote +:+
      " x2=" +:+ dquote +:+ "100%" +:+ dquote +:+ " y2=" +:+ dquote +:+ "0%" +:+ dquote +:+
      ">";
      join newline (map render_stop stops);
      "</linearGradient>" ].

Lemma append_assoc (a b c : string) : (a +:+ b) +:+ c = a +:+ (b +:+ c).
Proof.
  induction a as [|x a IH]; [reflexivity|].
  change (String x ((a +:+ b) +:+ c) = String x (a +:+ (b +:+ c))).
  now rewrite IH.
Qed.

Lemma join_cons (sep x : string) (parts : list string) :
  parts <> [] -> join sep (x :: parts) = x +:+ sep +:+ join sep parts.
Proof. destruct parts; [contradiction | reflexivity]. Qed.

Lemma join_app (sep : string) (l1 l2 : list string) :
  l1 <> [] -> l2 <> [] ->
  join sep (l1 ++ l2) = join sep l1 +:+ sep +:+ join sep l2.
Proof.
  intros H1 H2. induction l1 as [|x l1 IH]; [contradiction|].
  destruct l1 as [|y l1].
  - simpl app. now rewrite join_cons.
  - rewrite <- app_comm_cons, join_cons by discriminate.
    rewrite IH by discriminate. rewrite (join_cons sep x (y :: l1)) by discriminate.
    now rewrite !append_assoc.
Qed.

(** Joining the entries, each of them joined, is joining all their stops. *)
Lemma join_entries (entries : list (list stop)) :
  Forall (fun entry => entry <> []) entries ->
  join newline (map (fun entry => join newline (map render_stop entry)) entries)
  = join newline (map render_stop (concat entries)).
Proof.
  induction 1 as [|entry entries Hentry Hall IH]; [reflexivity|].
  destruct entries as [|entry' entries].
  - simpl. now rewrite app_nil_r.
  - rewrite concat_cons, map_app.
    rewrite map_cons, join_cons, IH by (simpl; discriminate).
    inversion Hall as [|? ? Hentry' _]; subst.
    symmetry. apply join_app; [now destruct entry|].
    destruct entry'; [contradiction | discriminate].
Qed.

Lemma gradient_markup (f : Figure) (synthase : Synthase.t) (entries : list (list stop)) :
  gradient_stops f synthase = Ok entries ->
  Forall (fun entry => entry <> []) entries ->
  generate_synthase_gradient f synthase
  = Ok (linear_gradient (Synthase.header synthase) (concat entries)).
Proof.
  intros Hstops Hall. unfold generate_synthase_gradient, linear_gradient.
  rewrite Hstops. cbn [mbind result_bind]. rewrite join_entries by exact Hall.
  f_equal. unfold join. cbn [String.concat].
  now rewrite !append_assoc.
Qed.

Lemma stops_of_near_floor (registry : gmap string string) (sequence_length : Z)
    (domains : list Domain.t) (entries : list (list stop)) :
  0 < sequence_length < 2 ^ 43 ->
  Forall (valid_domain registry sequence_length) domains ->
  Forall2 (stops_of registry sequence_length) domains entries ->
  Forall2 (stops_near_floor registry sequence_length) domains entries.
Proof.
  intros Hlength Hvalid Hall.
  induction Hall as [|domain entry domains entries Hentry Hall IH]; [constructor|].
  inversion Hvalid as [|? ? (Htype & Hstart & Hend) Hvalid']; subst.
  constructor; [|now apply IH].
  destruct Hentry as (sp & ep & colour & Hsp & Hep & Hcolour & ->).
  destruct (percentage_bounds (Domain.start domain) sequence_length)
    as (sp' & Hsp' & Hsb & Hse & _); [lia..|].
  destruct (percentage_bounds (Domain.end_ domain) sequence_length)
    as (ep' & Hep' & Heb & Hee & _); [lia..|].
  rewrite Hsp in Hsp'. rewrite Hep in Hep'. inversion Hsp'; inversion Hep'; subst sp' ep'.
  exists sp, ep, colour. unfold near_floor, floor_percentage. auto.
Qed.

Lemma stops_of_nonempty (registry : gmap string string) (sequence_length : Z)
    (domains : list Domain.t) (entries : list (list stop)) :
  Forall2 (stops_of registry sequence_length) domains entries ->
  Forall (fun entry => entry <> []) entries.
Proof.
  induction 1 as [|domain entry domains entries Hentry _ IH]; constructor; [|exact IH].
  destruct Hentry as (sp & ep & colour & _ & _ & _ & ->). discriminate.
Qed.

(** C4. For an entity without a sequence the gradient builder raises the
    empty sequence error. For an entity with a sequence whose domains are
    valid annotations it returns the [linearGradient] element of the entity
    with one entry of four stops per domain, in the order of the domains,
    [4 * n] stops in all: a white stop and a stop of the colour of the domain
    at the start percentage, then a stop of the colour of the domain and a
    white stop at the end percentage. The percentages are
    [int(position / length * 100)] in binary64 arithmetic, not the
    [floor(position / length * 100)] of the spec: for a sequence of fewer
    than [2 ^ 43] residues each is that floor or one less, and is that floor
    when [length] does not divide [100 * position]. *)
Theorem gradient_stops_per_domain (f : Figure) (synthase : Synthase.t) :
  let sequence_length := len (Synthase.sequence synthase) in
  (Synthase.sequence synthase = "" ->
   gradient_stops f synthase = Raise EmptySequenceError_synthase /\
   generate_synthase_gradient f synthase = Raise EmptySequenceError_synthase) /\
  (Synthase.sequence synthase <> "" ->
   Forall (valid_domain (colours f) sequence_length) (Synthase.domains synthase) ->
   exists entries,
     gradient_stops f synthase = Ok entries /\
     generate_synthase_gradient f synthase
     = Ok (linear_gradient (Synthase.header synthase) (concat entries)) /\
     length (concat entries) = (4 * length (Synthase.domains synthase))%nat /\
     Forall2 (stops_of (colours f) sequence_length) (Synthase.domains synthase) entries /\
     (sequence_length < 2 ^ 43 ->
      Forall2 (stops_near_floor (colours f) sequence_length)
        (Synthase.domains synthase) entries)).
Proof.
  intros sequence_length. split.
  - intros Hempty. unfold generate_synthase_gradient, gradient_stops, no_sequence.
    destruct (decide (Synthase.sequence synthase = "")); [|contradiction].
    split; reflexivity.
  - intros Hsequence Hvalid.
    assert (Hstops : exists entries,
               gradient_stops f synthase = Ok entries /\
               Forall2 (stops_of (colours f) sequence_length)
                 (Synthase.domains synthase) entries).
    { unfold gradient_stops, no_sequence.
      destruct (decide (Synthase.sequence synthase = "")); [contradiction|].
      destruct (gradient_loop_valid _ _ _ Hvalid []) as (entries & Hloop & Hall).
      exists entries. split; [exact Hloop | exact Hall]. }
    destruct Hstops as (entries & Hstops & Hall).
    exists entries. split; [exact Hstops|]. split; [|split; [|split]].
    + apply gradient_markup; [exact Hstops|]. eapply stops_of_nonempty, Hall.
    + eapply stops_of_count, Hall.
    + exact Hall.
    + intros Hlength. apply stops_of_near_floor; [|exact Hvalid | exact Hall].
      pose proof (sequence_length_pos synthase Hsequence) as Hpos.
      unfold Synthase.sequence_length in Hpos. fold sequence_length in Hpos. lia.
Qed.

(** The scenario of the spec: one [KS] domain over the first half of a
    hundred residues gives stops at 0% and 50% in the colour of [KS]. *)
Lemma gradient_stops_per_domain_witness :
  let stops := [ {| offset := 0; stop_color := "white" |};
                 {| offset := 0; stop_color := "#08B208" |};
                 {| offset := 50; stop_color := "#08B208" |};
                 {| offset := 50; stop_color := "white" |} ] in
  exists entries,
    gradient_stops (figure_of [synthase_A]) synthase_A = Ok entries /\
    generate_synthase_gradient (figure_of [synthase_A]) synthase_A
    = Ok (linear_gradient "A" (concat entries)) /\
    length (concat entries) = 4%nat /\
    entries = [stops].
Proof.
  intros stops.
  destruct (gradient_stops_per_domain (figure_of [synthase_A]) synthase_A)
    as [_ Hstops].
  destruct Hstops as (entries & Hentries & Hmarkup & Hcount & _).
  - discriminate.
  - constructor; [|constructor]. split; [|split].
    + apply elem_of_dom. eexists. reflexivity.
    + simpl. lia.
    + vm_compute. discriminate.
  - exists entries. split; [exact Hentries|]. split; [exact Hmarkup|].
    split; [exact Hcount|].
    assert (Hrun : gradient_stops (figure_of [synthase_A]) synthase_A = Ok [stops])
      by (vm_compute; reflexivity).
    rewrite Hrun in Hentries. now inversion Hentries.
Defined.

(** C4 as stated fails: a [KS] domain from 29 to 57 on a hundred residues
    has its stops at 28 and 56 percent, where [floor(29 / 100 * 100)] is 29
    and [floor(57 / 100 * 100)] is 57. *)
Lemma gradient_offsets_below_floor :
  let synthase := Synthase.mk "C" (repeat_char "M" 100) [Domain.mk "KS" 29 57] in
  let f := figure_of [synthase] in
  Synthase.sequence synthase <> "" /\
  Forall (valid_domain (colours f) (len (Synthase.sequence synthase)))
    (Synthase.domains synthase) /\
  gradient_stops f synthase
  = Ok [[ {| offset := 28; stop_color := "white" |};
          {| offset := 28; stop_color := "#08B208" |};
          {| offset := 56; stop_color := "#08B208" |};
          {| offset := 56; stop_color := "white" |} ]] /\
  floor_percentage 29 100 = 29 /\
  floor_percentage 57 100 = 57.
Proof.
  intros synthase f. split; [discriminate|]. split; [|split; [|split]].
  - constructor; [|constructor]. split; [|split].
    + apply elem_of_dom. eexists. reflexivity.
    + simpl. lia.
    + vm_compute. discriminate.
  - vm_compute. reflexivity.
  - reflexivity.
  - reflexivity.
Qed.

(** ** Domain types without a colour *)

(** A domain whose positions lie inside the sequence. *)
Definition placed (sequence_length : Z) (d : Domain.t) : Prop :=
  0 <= Domain.start d <= sequence_length /\ 0 <= Domain.end_ d <= sequence_length.

(** Every domain of the list has a colour in the registry. *)
Definition coloured (registry : gmap string string) (domains : list Domain.t) : Prop :=
  Forall (fun d => Domain.type d ∈ dom registry) domains.

Lemma gradient_loop_placed (registry : gmap string string) (sequence_length : Z)
    (domains : list Domain.t) :
  0 < sequence_length ->
  Forall (placed sequence_length) domains ->
  forall stops,
    (coloured registry domains /\
     exists entries, gradient_loop registry sequence_length domains stops = Ok entries) \/
    (exists d,
       d ∈ domains /\ (Domain.type d ∉ dom registry) /\
       gradient_loop registry sequence_length domains stops
       = Raise (KeyError (Domain.type d))).
Proof.
  intros Hlength. induction 1 as [|d domains [Hstart Hend] _ IH]; intros stops.
  - left. split; [constructor | eexists; reflexivity].
  - simpl. unfold domain_stops, colour_of.
    destruct (percentage_returns (Domain.start d) sequence_length) as (sp & Hsp & _);
      [lia..|].
    destruct (percentage_returns (Domain.end_ d) sequence_length) as (ep & Hep & _);
      [lia..|].
    rewrite Hsp, Hep. cbn [mbind result_bind].
    destruct (registry !! Domain.type d) as [colour|] eqn:Hcolour; cbn [mbind result_bind].
    + match goal with
      | |- context [gradient_loop _ _ domains ?stops'] =>
          destruct (IH stops') as [[Hall Hloop]|(d' & Hin & Hunknown & Hloop)]
      end.
      * left. split; [|exact Hloop]. constructor; [|exact Hall].
        apply elem_of_dom. eauto.
      * right. exists d'. split; [now right|]. split; [exact Hunknown | exact Hloop].
    + right. exists d. split; [left|]. split; [now apply not_elem_of_dom | reflexivity].
Qed.

Lemma generate_synthase_gradient_placed (f : Figure) (s : Synthase.t) :
  Synthase.sequence s <> "" ->
  Forall (placed (len (Synthase.sequence s))) (Synthase.domains s) ->
  (coloured (colours f) (Synthase.domains s) /\
   exists markup, generate_synthase_gradient f s = Ok markup) \/
  (exists d,
     d ∈ Synthase.domains s /\ (Domain.type d ∉ dom (colours f)) /\
     generate_synthase_gradient f s = Raise (KeyError (Domain.type d))).
Proof.
  intros Hs Hplaced. unfold generate_synthase_gradient, gradient_stops, no_sequence.
  destruct (decide (Synthase.sequence s = "")); [contradiction|].
  pose proof (sequence_length_pos s Hs) as Hpos. unfold Synthase.sequence_length in Hpos.
  destruct (gradient_loop_placed (colours f) _ _ Hpos Hplaced [])
    as [[Hall [entries Hloop]]|(d & Hin & Hunknown & Hloop)]; rewrite Hloop.
  - left. split; [exact Hall|]. eexists. reflexivity.
  - right. exists d. auto.
Qed.

(** A comprehension returns when every call returns, and ends with the
    exception of the first call that raises. *)
Lemma comprehension_first_error {A B} (g : A -> result B) (l : list A) :
  (Forall (fun x => exists y, g x = Ok y) l /\ exists ys, comprehension g l = Ok ys) \/
  (exists x e, x ∈ l /\ g x = Raise e /\ comprehension g l = Raise e).
Proof.
  induction l as [|x l IH]; simpl.
  - left. split; [constructor | eexists; reflexivity].
  - destruct (g x) as [y|e] eqn:Hx; cbn [mbind result_bind].
    + destruct IH as [[Hall [ys Hys]]|(x' & e & Hin & Hx' & Hl)]; rewrite ?Hys, ?Hl.
      * left. split; [constructor; eauto | eexists; reflexivity].
      * right. exists x', e. split; [now right | auto].
    + right. exists x, e. split; [left | auto].
Qed.

Section unknown_type.
Context `{Classification}.

(** X17. A domain type without a colour makes [visualise] fail: when the
    synthases have sequences and their domains lie inside them, and some
    domain has a type that is not a key of the colour registry, [visualise]
    raises [KeyError] with such a type, after the blocks have been built and
    the figure has been left in the order of the groups. *)
Theorem visualise_unknown_domain_type (f : Figure)
    (arrow_height arrow_spacing block_spacing header_fsize info_fsize width : Z) :
  Forall (fun s => has_sequence s /\
                   Forall (placed (len (Synthase.sequence s))) (Synthase.domains s))
    (synthases f) ->
  Exists (fun s => ~ coloured (colours f) (Synthase.domains s)) (synthases f) ->
  0 <= width <= 2 ^ 1022 ->
  Z.abs info_fsize < 2 ^ 1023 -> Z.abs arrow_height < 2 ^ 1023 ->
  exists s d,
    s ∈ synthases f /\ d ∈ Synthase.domains s /\
    (Domain.type d ∉ dom (colours f)) /\
    visualise f arrow_height arrow_spacing block_spacing header_fsize info_fsize width
    = ((iterate_synthase_types f).1, Raise (KeyError (Domain.type d))).
Proof.
  intros Hplaced Hunknown Hwidth Hinfo Harrow.
  assert (Hnonempty : synthases f <> []).
  { intros Hnil. rewrite Hnil in Hunknown. inversion Hunknown. }
  assert (Hall : Forall (fun s => Synthase.sequence s <> "") (synthases f)).
  { eapply Forall_impl; [exact Hplaced|]. now intros s [[Hs _] _]. }
  destruct (py_max_spec Synthase.sequence_length (synthases f) Hnonempty)
    as (largest & Hmax & Hin & _).
  assert (Hpos : 0 < Synthase.sequence_length largest).
  { apply sequence_length_pos. rewrite Forall_forall in Hall. now apply Hall. }
  destruct (int_truediv_finite (width - 2) (Synthase.sequence_length largest) 1022)
    as (scale_factor & Hscale & _); [lia | lia | |].
  { assert (0 < 2 ^ 1022) by (apply Z.pow_pos_nonneg; lia). nia. }
  assert (Hfactor : calculate_scale_factor f width = Ok scale_factor).
  { unfold calculate_scale_factor.
    apply existsb_no_sequence_false in Hall. rewrite Hall.
    destruct (Z.ltb_spec width 0) as [?|_]; [lia|].
    now rewrite Hmax. }
  unfold visualise. rewrite Hfactor.
  pose proof (iterate_synthase_types_perm f) as Hperm.
  pose proof (groupby_concat subtype (synthases (iterate_synthase_types f).1)) as Hconcat.
  change (groupby subtype (synthases (iterate_synthase_types f).1))
    with (iterate_synthase_types f).2 in Hconcat.
  assert (Hcolours : colours (iterate_synthase_types f).1 = colours f) by reflexivity.
  destruct (iterate_synthase_types f) as [f' groups]. cbn [fst snd] in *.
  assert (Hplaced' : Forall (fun s => has_sequence s /\
                       Forall (placed (len (Synthase.sequence s))) (Synthase.domains s))
                       (synthases f')) by now rewrite Hperm.
  destruct (visualise_loop_returns scale_factor arrow_height arrow_spacing block_spacing
              header_fsize info_fsize Hinfo Harrow groups) with (blocks := @nil (Z * block))
              (offset := 3)
    as (blocks & _ & _ & Hloop).
  { apply Forall_concat_groups. rewrite Hconcat.
    eapply Forall_impl; [exact Hplaced'|]. now intros s [Hs _]. }
  rewrite Hloop. cbn [mbind result_bind].
  destruct (comprehension_first_error (generate_synthase_gradient f') (synthases f'))
    as [[Hok _]|(s & e & Hs & Hraise & Hlist)].
  - exfalso. rewrite <- Hperm in Hunknown.
    apply Exists_exists in Hunknown as (s & Hs & Hbad). apply Hbad.
    rewrite Forall_forall in Hok, Hplaced'.
    destruct (Hok s Hs) as [markup Hmarkup].
    destruct (Hplaced' s Hs) as [[Hseq _] Hdomains].
    destruct (generate_synthase_gradient_placed f' s Hseq Hdomains)
      as [[Hcoloured _]|(d & _ & _ & Hd)].
    + now rewrite <- Hcolours.
    + rewrite Hd in Hmarkup. discriminate.
  - rewrite Hlist. cbn [mbind result_bind].
    rewrite Forall_forall in Hplaced'.
    destruct (Hplaced' s Hs) as [[Hseq _] Hdomains].
    destruct (generate_synthase_gradient_placed f' s Hseq Hdomains)
      as [[_ [markup Hmarkup]]|(d & Hd & Htype & Hgradient)].
    + rewrite Hmarkup in Hraise. discriminate.
    + rewrite Hgradient in Hraise. inversion Hraise; subst e.
      exists s, d. rewrite Hperm in Hs. rewrite Hcolours in Htype. auto.
Qed.
End unknown_type.

Lemma visualise_unknown_domain_type_witness :
  @visualise_default terminal_classification (figure_of [synthase_X; synthase_A]) 600
  = (figure_of [synthase_A; synthase_X], Raise (KeyError "XX")).
Proof.
  destruct (@visualise_unknown_domain_type terminal_classification
              (figure_of [synthase_X; synthase_A]) 12 4 16 15 12 600)
    as (s & d & Hs & Hd & Htype & Hraise).
  - repeat constructor; try discriminate; try (vm_compute; discriminate); simpl; lia.
  - apply Exists_cons_hd. intros Hcoloured.
    inversion Hcoloured as [|? ? _ Hrest]; subst.
    inversion Hrest as [|? ? Hxx _]; subst.
    apply elem_of_dom in Hxx as [colour Hcolour]. discriminate.
  - split; [lia | vm_compute; discriminate].
  - reflexivity.
  - reflexivity.
  - assert (Hxx : Domain.type d = "XX").
    { apply elem_of_cons in Hs as [->|Hs]; [|apply elem_of_cons in Hs as [->|Hs]];
        [| |inversion Hs]; simpl in Hd.
      - apply elem_of_cons in Hd as [->|Hd]; [|apply elem_of_cons in Hd as [->|Hd]];
          [|reflexivity|inversion Hd].
        exfalso. apply Htype. apply elem_of_dom. eexists. reflexivity.
      - apply elem_of_cons in Hd as [->|Hd]; [|inversion Hd].
        exfalso. apply Htype. apply elem_of_dom. eexists. reflexivity. }
    unfold visualise_default. rewrite Hraise, Hxx. reflexivity.
Defined.

(** ** Reading back what was assigned *)

Lemma getitem_setitem_same (l : list Synthase.t) (key sequence : string) :
  key ∈ headers l ->
  exists s, getitem_loop (setitem_sequence l key sequence) key = Ok s /\
            Synthase.header s = key /\ Synthase.sequence s = sequence.
Proof.
  induction l as [|x l IH]; simpl; intros Hin; [inversion Hin|].
  destruct (decide (Synthase.header x = key)) as [Hx|Hx]; simpl.
  - destruct (decide (Synthase.header x = key)); [|contradiction].
    eexists. split; [reflexivity|]. simpl. auto.
  - destruct (decide (Synthase.header x = key)); [contradiction|].
    apply IH. apply elem_of_cons in Hin as [Heq|Hin]; [congruence | exact Hin].
Qed.

Lemma getitem_setitem_other (l : list Synthase.t) (key key' sequence : string) :
  key <> key' ->
  getitem_loop (setitem_sequence l key' sequence) key = getitem_loop l key.
Proof.
  intros Hne. induction l as [|x l IH]; simpl; [reflexivity|].
  destruct (decide (Synthase.header x = key')) as [Hx|Hx]; simpl.
  - destruct (decide (Synthase.header x = key)); [congruence | reflexivity].
  - destruct (decide (Synthase.header x = key)); [reflexivity | exact IH].
Qed.

Lemma getitem_assign_other (items : list (string * string)) (key : string) :
  key ∉ map fst items ->
  forall l, getitem_loop (assign_sequences l items) key = getitem_loop l key.
Proof.
  induction items as [|[k v] items IH]; intros Hkey l; [reflexivity|].
  simpl in Hkey. apply not_elem_of_cons in Hkey as [Hne Hkey].
  unfold assign_sequences. simpl. fold (assign_sequences (setitem_sequence l k v) items).
  rewrite IH by exact Hkey. now apply getitem_setitem_other.
Qed.

Lemma getitem_assign_same (items : list (string * string)) (key sequence : string) :
  NoDup (map fst items) -> (key, sequence) ∈ items ->
  forall l,
    key ∈ headers l ->
    exists s, getitem_loop (assign_sequences l items) key = Ok s /\
              Synthase.header s = key /\ Synthase.sequence s = sequence.
Proof.
  induction items as [|[k v] items IH]; intros Hnodup Hin l Hkey; [inversion Hin|].
  simpl in Hnodup. apply NoDup_cons in Hnodup as [Hfresh Hnodup].
  unfold assign_sequences. simpl. fold (assign_sequences (setitem_sequence l k v) items).
  apply elem_of_cons in Hin as [Heq|Hin].
  - inversion Heq; subst k v.
    rewrite getitem_assign_other by exact Hfresh.
    now apply getitem_setitem_same.
  - apply IH; [exact Hnodup | exact Hin|].
    now rewrite setitem_sequence_headers.
Qed.

Section reading_back.
Context {handle : Type} (parse_fasta : handle -> list (string * string)).

(** X18. Reading back what was assigned: after a call of
    [add_query_sequences] that returns, [figure[header]] returns a synthase
    with the sequence the dictionary holds under [header], for every header
    of the dictionary the call is given, as [sequences] or in the file. *)
Theorem add_query_sequences_getitem (f : Figure) (query_handle : option handle)
    (sequences : option (list (string * string))) (header sequence : string) :
  let items := default [] (query_sequences parse_fasta query_handle sequences) in
  let after := add_query_sequences parse_fasta f query_handle sequences in
  NoDup (map fst items) ->
  after.2 = Ok tt ->
  (header, sequence) ∈ items ->
  exists s,
    Figure_getitem after.1 header = Ok s /\
    Synthase.header s = header /\ Synthase.sequence s = sequence.
Proof.
  intros items after. unfold after, items, add_query_sequences. clear after items.
  destruct (query_sequences parse_fasta query_handle sequences) as [items|];
    simpl; intros Hnodup Hok Hin; [|discriminate].
  destruct (split_at_first_failure (fun item => item.1 ∈ headers (synthases f)) items)
    as [Hall|(matched & [h sq] & rest & Hitems & Hmatched & Hheader)].
  - rewrite add_query_sequences_loop_matched in Hok |- * by exact Hall. simpl.
    unfold Figure_getitem. simpl.
    apply getitem_assign_same; [exact Hnodup | exact Hin|].
    rewrite Forall_forall in Hall. exact (Hall _ Hin).
  - exfalso. rewrite Hitems, add_query_sequences_loop_app in Hok by exact Hmatched.
    simpl in Hok, Hheader.
    rewrite getitem_loop_missing in Hok by now rewrite assign_sequences_headers.
    discriminate.
Qed.
End reading_back.

Lemma add_query_sequences_getitem_witness :
  exists s,
    Figure_getitem
      (add_query_sequences no_records (figure_of [synthase_A; synthase_B]) None
         (Some [("B", "MKV")])).1 "B" = Ok s /\
    Synthase.sequence s = "MKV".
Proof.
  destruct (add_query_sequences_getitem no_records (figure_of [synthase_A; synthase_B])
              None (Some [("B", "MKV")]) "B" "MKV") as (s & Hs & _ & Hsequence).
  - compute_done.
  - reflexivity.
  - compute_done.
  - exists s. split; assumption.
Defined.

Lemma overwrite_keep (items : list (string * string)) (key : string) :
  key ∉ map fst items ->
  forall registry, overwrite registry items !! key = registry !! key.
Proof.
  induction items as [|[k v] items IH]; intros Hkey registry; [reflexivity|].
  simpl in Hkey. apply not_elem_of_cons in Hkey as [Hne Hkey].
  unfold overwrite. simpl. fold (overwrite (<[k := v]> registry) items).
  rewrite IH by exact Hkey. now apply lookup_insert_ne.
Qed.

(** X19. Reading back the colours: after a call of [set_colours] that
    returns, the registry holds the new colour under every key of the
    overrides and the colour it had under every other key; and a call
    returns only when every key is a domain type and every colour passes
    the validation. *)
Theorem set_colours_lookup (f : Figure) (overrides : list (string * string)) :
  NoDup (map fst overrides) ->
  (set_colours f overrides).2 = Ok tt ->
  let registry := colours (set_colours f overrides).1 in
  (forall key value, (key, value) ∈ overrides -> registry !! key = Some value) /\
  (forall key, key ∉ map fst overrides -> registry !! key = colours f !! key) /\
  Forall (fun item => item.1 ∈ dom (colours f) /\ _validate_colour item.2 = true)
    overrides.
Proof.
  intros Hnodup Hok registry.
  assert (Hdec : forall item, Decision (valid_override (colours f) item)).
  { intros item. unfold valid_override. apply _. }
  destruct (split_at_first_failure (valid_override (colours f)) overrides)
    as [Hall|(valid & [key value] & rest & Hoverrides & Hvalid & Hitem)].
  - assert (Hregistry : registry = overwrite (colours f) overrides).
    { unfold registry. now rewrite set_colours_valid. }
    rewrite Hregistry. split; [|split].
    + intros key value Hin. now apply overwrite_lookup.
    + intros key Hkey. now apply overwrite_keep.
    + exact Hall.
  - exfalso. rewrite Hoverrides in Hok.
    destruct (decide (key ∈ dom (colours f))) as [Hkey|Hkey].
    + rewrite (set_colours_invalid_colour f valid rest key value Hvalid Hkey) in Hok;
        [discriminate|].
      destruct (_validate_colour value) eqn:Hv; [|reflexivity].
      exfalso. apply Hitem. now split.
    + rewrite (set_colours_invalid_domain f valid rest key value Hvalid Hkey) in Hok.
      discriminate.
Qed.

Lemma set_colours_lookup_witness :
  let f := (set_colours (figure_of []) [("KS", "#000000"); ("AT", "#FFF")]).1 in
  colours f !! "KS" = Some "#000000" /\
  colours f !! "ACP" = Some "#084BC6".
Proof.
  intros f.
  destruct (set_colours_lookup (figure_of []) [("KS", "#000000"); ("AT", "#FFF")])
    as (Hnew & Hold & _).
  - compute_done.
  - reflexivity.
  - split.
    + apply Hnew. compute_done.
    + unfold f. rewrite Hold by compute_done. reflexivity.
Defined.

(** ** What the layout depends on *)

Section layout.
Context `{Classification}.

(** X20. The scale factor does not depend on the order of the synthases:
    two figures with the same synthases in any order have the same scale
    factor, or fail with the same exception; in particular the length sort
    and the generator, which reorder the figure, do not change it. *)
Theorem scale_factor_order_independent (f g : Figure) (width : Z) :
  synthases f ≡ₚ synthases g ->
  calculate_scale_factor f width = calculate_scale_factor g width /\
  calculate_scale_factor (sort_synthases_by_length f) width
  = calculate_scale_factor f width /\
  calculate_scale_factor (iterate_synthase_types f).1 width
  = calculate_scale_factor f width.
Proof.
  intros Hperm. split; [|split].
  - now apply calculate_scale_factor_perm.
  - apply calculate_scale_factor_perm. apply sort_synthases_by_length_sorted.
  - apply calculate_scale_factor_perm. apply iterate_synthase_types_perm.
Qed.

(** The blocks and the height do not depend on the colours. *)
Lemma visualise_layout (f g : Figure)
    (arrow_height arrow_spacing block_spacing header_fsize info_fsize width : Z) :
  synthases f = synthases g ->
  let drawn_f := visualise f arrow_height arrow_spacing block_spacing header_fsize
                   info_fsize width in
  let drawn_g := visualise g arrow_height arrow_spacing block_spacing header_fsize
                   info_fsize width in
  synthases drawn_f.1 = synthases drawn_g.1 /\
  forall document_f document_g,
    drawn_f.2 = Ok document_f -> drawn_g.2 = Ok document_g ->
    svg_width document_f = svg_width document_g /\
    svg_height document_f = svg_height document_g /\
    svg_blocks document_f = svg_blocks document_g.
Proof.
  intros Hsame drawn_f drawn_g. unfold drawn_f, drawn_g, visualise.
  assert (Hscale : calculate_scale_factor f width = calculate_scale_factor g width).
  { apply calculate_scale_factor_perm. now rewrite Hsame. }
  rewrite <- Hscale.
  destruct (calculate_scale_factor f width) as [scale_factor|e].
  2:{ cbn [fst snd]. split; [exact Hsame|]. intros ? ? Hf. discriminate. }
  assert (Hsorted : synthases (iterate_synthase_types f).1
                    = synthases (iterate_synthase_types g).1).
  { simpl. unfold length_key. now rewrite Hsame. }
  assert (Hgroups : (iterate_synthase_types f).2 = (iterate_synthase_types g).2).
  { simpl. unfold length_key. now rewrite Hsame. }
  destruct (iterate_synthase_types f) as [f' groups_f].
  destruct (iterate_synthase_types g) as [g' groups_g].
  cbn [fst snd] in *. subst groups_g. split; [exact Hsorted|].
  destruct (visualise_loop groups_f _ _ _ _ _ _ _ _) as [[blocks offset]|e];
    cbn [mbind result_bind]; [|intros ? ? Hf; discriminate].
  destruct (comprehension (generate_synthase_gradient f') (synthases f')) as [gf|e];
    cbn [mbind result_bind]; [|intros ? ? Hf; discriminate].
  destruct (comprehension (generate_synthase_gradient g') (synthases g')) as [gg|e];
    cbn [mbind result_bind]; [|intros ? ? _ Hg; discriminate].
  intros document_f document_g Hf Hg. inversion Hf; inversion Hg; subst.
  repeat split.
Qed.

(** X21. Colours do not move anything: a figure and the same figure after
    any call of [set_colours], returning or raising, are left in the same
    order by [visualise], and when both calls return a document the two
    documents have the same width, the same height and the same blocks. *)
Theorem recolouring_keeps_layout (f : Figure) (overrides : list (string * string))
    (arrow_height arrow_spacing block_spacing header_fsize info_fsize width : Z) :
  let recoloured := (set_colours f overrides).1 in
  let before := visualise f arrow_height arrow_spacing block_spacing header_fsize
                  info_fsize width in
  let after := visualise recoloured arrow_height arrow_spacing block_spacing
                 header_fsize info_fsize width in
  synthases before.1 = synthases after.1 /\
  forall document document',
    before.2 = Ok document -> after.2 = Ok document' ->
    svg_width document = svg_width document' /\
    svg_height document = svg_height document' /\
    svg_blocks document = svg_blocks document'.
Proof.
  intros recoloured before after.
  apply visualise_layout. unfold recoloured. now rewrite set_colours_synthases.
Qed.
End layout.

Lemma scale_factor_order_independent_witness :
  calculate_scale_factor (figure_of [synthase_c; synthase_A]) 102
  = calculate_scale_factor (figure_of [synthase_A; synthase_c]) 102.
Proof.
  apply (@scale_factor_order_independent terminal_classification).
  apply Permutation_swap.
Defined.

Lemma recolouring_keeps_layout_witness :
  let f := figure_of [synthase_A] in
  let recoloured := (set_colours f [("KS", "#000000")]).1 in
  exists document document',
    (@visualise_default terminal_classification f 600).2 = Ok document /\
    (@visualise_default terminal_classification recoloured 600).2 = Ok document' /\
    svg_height document = svg_height document' /\
    svg_blocks document = svg_blocks document'.
Proof.
  intros f recoloured.
  destruct (@visualise_default terminal_classification f 600) as [f' [document|e]] eqn:Hf;
    [|vm_compute in Hf; discriminate].
  destruct (@visualise_default terminal_classification recoloured 600)
    as [g' [document'|e]] eqn:Hg; [|vm_compute in Hg; discriminate].
  exists document, document'. split; [reflexivity|]. split; [reflexivity|].
  destruct (@recolouring_keeps_layout terminal_classification f [("KS", "#000000")]
              12 4 16 15 12 600) as [_ Hlayout].
  destruct (Hlayout document document') as (_ & Hheight & Hblocks).
  - unfold visualise_default in Hf. now rewrite Hf.
  - unfold visualise_default in Hg. fold f. fold recoloured. now rewrite Hg.
  - split; assumption.
Defined.

(** ** The arrows and the width *)

(** The tip of the polygon is at the scaled length. *)
Lemma generate_synthase_polygon_tip (synthase : Synthase.t)
    (scale_factor info_fsize arrow_height : number) (scaled_length : number) :
  Synthase.sequence synthase <> "" ->
  convertible info_fsize -> convertible arrow_height ->
  Number.mul scale_factor (Int (len (Synthase.sequence synthase))) = Ok scaled_length ->
  exists drawn,
    generate_synthase_polygon synthase scale_factor info_fsize arrow_height = Ok drawn /\
    tip_x drawn = Some scaled_length.
Proof.
  intros Hsequence Hinfo Harrow Hscaled.
  unfold generate_synthase_polygon, no_sequence.
  destruct (decide (Synthase.sequence synthase = "")); [contradiction|].
  destruct (arith_float_r Z.mul Float.mul info_fsize Float.lit_0_9 Hinfo) as (top & Htop).
  destruct (arith_float_l Z.add Float.add top arrow_height Harrow) as (bottom & Hbottom).
  destruct (truediv_two arrow_height Harrow) as (half & Hhalf).
  destruct (arith_float_l Z.add Float.add top (Float half) I) as (middle & Hmiddle).
  destruct (arith_int_r Z.sub Float.sub scaled_length 10) as (right & Hright).
  { apply pow_1023_large. simpl. lia. }
  change (Number.arith Z.mul Float.mul) with Number.mul in *.
  change (Number.arith Z.add Float.add) with Number.add in *.
  change (Number.arith Z.sub Float.sub) with Number.sub in *.
  rewrite Hscaled, Htop. cbn [mbind result_bind].
  repeat (progress (try rewrite Hbottom; try rewrite Hhalf; try rewrite Hmiddle;
                    try rewrite Hright; cbn [mbind result_bind])).
  eexists. split; reflexivity.
Qed.

(** X22. The arrows are to scale and fit the width: for a width above 2 and
    sequences of fewer than [2 ^ 53] residues, the tip of the arrow of
    every synthase, drawn with the scale factor of the figure, is at
    [(width - 2) * length / longest] up to a relative error of [2 ^ -50],
    where [longest] is the largest sequence length; so no tip lies beyond
    [(width - 2) * (1 + 2 ^ -50)]. *)
Theorem polygon_tips_scaled (f : Figure) (width info_fsize arrow_height : Z) :
  synthases f <> [] ->
  Forall (fun s => Synthase.sequence s <> "" /\ Synthase.sequence_length s < 2 ^ 53)
    (synthases f) ->
  2 < width <= 2 ^ 900 ->
  Z.abs info_fsize < 2 ^ 1023 -> Z.abs arrow_height < 2 ^ 1023 ->
  exists scale_factor longest,
    calculate_scale_factor f width = Ok scale_factor /\
    longest ∈ synthases f /\
    forall s,
      s ∈ synthases f ->
      Synthase.sequence_length s <= Synthase.sequence_length longest /\
      exists drawn x,
        generate_synthase_polygon s (Float scale_factor) (Int info_fsize)
          (Int arrow_height) = Ok drawn /\
        tip_x drawn = Some (Float x) /\
        Z.abs (quanta x * Synthase.sequence_length longest
               - (width - 2) * Synthase.sequence_length s * 2 ^ 1074) * 2 ^ 50
        <= (width - 2) * Synthase.sequence_length s * 2 ^ 1074 /\
        quanta x * 2 ^ 50 <= (width - 2) * 2 ^ 1074 * (2 ^ 50 + 1).
Proof.
  intros Hnonempty Hall Hwidth Hinfo Harrow.
  destruct (py_max_spec Synthase.sequence_length (synthases f) Hnonempty)
    as (longest & Hmax & Hin & Hlongest).
  rewrite Forall_forall in Hall.
  assert (Hlengths : forall s, s ∈ synthases f ->
            exists c, Synthase.sequence_length s = Zpos c /\ Zpos c < 2 ^ 53).
  { intros s Hs. destruct (Hall s Hs) as [Hseq Hlen].
    pose proof (sequence_length_pos s Hseq) as Hpos.
    destruct (Synthase.sequence_length s) as [|c|c]; try lia. eauto. }
  destruct (Hlengths longest Hin) as (b & Hb & Hbsmall).
  destruct (width - 2) as [|a|a] eqn:Ha; try lia.
  assert (Hda : Zdigits2 (Zpos a) <= 900) by (apply Zdigits2_le_pow; lia).
  assert (Hdb : Zdigits2 (Zpos b) <= 64).
  { assert (Zdigits2 (Zpos b) <= 53) by (apply Zdigits2_le_pow; lia). lia. }
  destruct (div_mul_value a b b Hda Hdb Hbsmall) as (mx & ex & _ & _ & _ & _ & Hdiv & _).
  exists (S754_finite false mx ex), longest.
  assert (Hscale : calculate_scale_factor f width = Ok (S754_finite false mx ex)).
  { unfold calculate_scale_factor.
    assert (Hseq : existsb no_sequence (synthases f) = false).
    { apply existsb_no_sequence_false, Forall_forall. intros s Hs. now apply Hall. }
    rewrite Hseq. destruct (Z.ltb_spec width 0) as [?|_]; [lia|].
    rewrite Hmax. cbn [mbind result_bind]. rewrite Ha, Hb.
    unfold Float.int_truediv. destruct (decide (Zpos b = 0)) as [?|_]; [lia|].
    simpl Float.exact. now rewrite Hdiv. }
  split; [exact Hscale|]. split; [exact Hin|].
  intros s Hs. split; [now apply Hlongest|].
  destruct (Hlengths s Hs) as (c & Hc & Hcsmall).
  destruct (div_mul_value a b c Hda Hdb Hcsmall)
    as (mx' & ex' & ml & k & my & ey & Hdiv' & Hfloat & Hmul & Hey & Herr).
  rewrite Hdiv in Hdiv'. inversion Hdiv'; subst mx' ex'.
  assert (Hscaled : Number.mul (Float (S754_finite false mx ex))
                      (Int (len (Synthase.sequence s)))
                    = Ok (Float (S754_finite false my ey))).
  { unfold Synthase.sequence_length in Hc. rewrite Hc.
    unfold Number.mul, Number.arith, Number.to_float.
    rewrite Hfloat. cbn [mbind result_bind]. now rewrite Hmul. }
  destruct (Hall s Hs) as [Hseq _].
  destruct (generate_synthase_polygon_tip s (Float (S754_finite false mx ex))
              (Int info_fsize) (Int arrow_height) _ Hseq Hinfo Harrow Hscaled)
    as (drawn & Hdrawn & Htip).
  exists drawn, (S754_finite false my ey).
  split; [exact Hdrawn|]. split; [exact Htip|].
  rewrite Hb, Hc. unfold quanta, cond_Zopp. rewrite Z.shiftl_mul_pow2 by exact Hey.
  set (Q := Zpos my * 2 ^ (ey + 1074)) in *.
  set (D := 2 ^ 1074) in *.
  assert (HD : 0 < D) by (apply Z.pow_pos_nonneg; lia).
  split; [exact Herr|].
  assert (Hcb : Zpos c <= Zpos b).
  { rewrite <- Hc, <- Hb. now apply Hlongest. }
  (* from the error bound to the bound on the tip *)
  assert (H1 : Q * Zpos b * 2 ^ 50 <= Zpos a * Zpos c * D * (2 ^ 50 + 1)) by lia.
  assert (H2 : Zpos a * Zpos c * D * (2 ^ 50 + 1) <= Zpos a * Zpos b * D * (2 ^ 50 + 1)).
  { apply Z.mul_le_mono_nonneg_r; [lia|].
    apply Z.mul_le_mono_nonneg_r; [lia|].
    apply Z.mul_le_mono_nonneg_l; lia. }
  apply (Z.mul_le_mono_pos_r _ _ (Zpos b)); lia.
Qed.

(** The scenario of the spec: a hundred residues at width 102 reach x = 100. *)
Lemma polygon_tips_scaled_witness :
  exists scale_factor drawn x,
    calculate_scale_factor (figure_of [synthase_A]) 102 = Ok scale_factor /\
    generate_synthase_polygon synthase_A (Float scale_factor) (Int 12) (Int 12) = Ok drawn /\
    tip_x drawn = Some (Float x) /\
    quanta x * 2 ^ 50 <= 100 * 2 ^ 1074 * (2 ^ 50 + 1).
Proof.
  destruct (polygon_tips_scaled (figure_of [synthase_A]) 102 12 12)
    as (scale_factor & longest & Hscale & _ & Htips).
  - discriminate.
  - constructor; [split; [discriminate | reflexivity] | constructor].
  - split; [lia | vm_compute; discriminate].
  - reflexivity.
  - reflexivity.
  - destruct (Htips synthase_A) as (_ & drawn & x & Hdrawn & Htip & _ & Hfit); [left|].
    exists scale_factor, drawn, x. repeat split; assumption.
Defined.
